(** * struct_converter: reflection-driven conversion of records, sequences and mappings

    A shallow embedding of [struct-converter/converter.go].  The Go code is
    written against package [reflect]; the part of [reflect] it calls is
    modelled first (module [reflect]), the converter itself second (module
    [struct_converter]), the properties last.  The repository holds two more
    revisions of the file, an earlier one that passes over failing fields and
    a later one that follows pointers; the embedding is the one of the file
    named above, and the earlier revision is embedded beside it (module
    [best_effort]) to be compared with it.

    Conventions.
    - A Go call returning [(reflect.Value, error)] becomes a [result Value]:
      [Ok v] is [(v, nil)], [Err msg] is [(reflect.Value{}, errors.New(msg))],
      and [Panic p] is a run-time panic raised inside package [reflect].
    - A [reflect.Value] is a type descriptor, the data it views and its flag
      word (read-only / addressable bits).  A pointer is nil or an address
      with what is stored there; a map is the list of its entries, in the
      order in which the call at hand ranges over it, and its keys are
      compared as [==] compares them.
    - The universe of types covers the predeclared scalar types, defined
      (named) types, pointers, slices, arrays, maps and structs without
      embedded fields.  Interface, channel and function types are outside the
      model, and so is field promotion through embedded structs. *)

From Stdlib Require Import String Ascii List ZArith Bool Lia PeanoNat.
Import ListNotations.
Open Scope string_scope.
Open Scope list_scope.

Set Implicit Arguments.
#[local] Set Warnings "-register-all".

(** ** Outcomes *)

(** The run-time panics of package [reflect] that the converter can
    meet, by cause; [method] names the method that raised it. *)
Inductive panic : Set :=
| OnZeroValue (method : string)      (* call of [method] on zero Value *)
| OnWrongKind (method : string)      (* call of [method] on a Value or type
                                        of a kind it does not accept *)
| IndexOutOfRange
| UnexportedField (method : string)  (* using value obtained using
                                        unexported field *)
| Unaddressable                      (* Set using unaddressable value *)
| NotAssignable (method : string)    (* value of type V is not assignable
                                        to type T *)
| NilMap                             (* assignment to entry in nil map *)
| LenGreaterThanCap.                 (* MakeSlice: len > cap *)

Inductive result (A : Type) : Type :=
| Ok (a : A)
| Err (msg : string)
| Panic (p : panic).

Arguments Ok {A} a.
Arguments Err {A} msg.
Arguments Panic {A} p.

Notation "x <- e ;; k" :=
  (match e with
   | Ok x => k
   | Err msg => Err msg
   | Panic p => Panic p
   end)
  (at level 61, e at next level, right associativity).

Definition is_ok {A} (r : result A) : bool :=
  match r with Ok _ => true | _ => false end.

(** ** The fragment of package [reflect] used by the converter *)

Module reflect.

(** Scalar kinds of the predeclared types. *)
Inductive basic : Set :=
| Bool
| Int | Int8 | Int16 | Int32 | Int64
| Uint | Uint8 | Uint16 | Uint32 | Uint64 | Uintptr
| Float32 | Float64
| Complex64 | Complex128
| String.

(** [reflect.Kind]; [Invalid] is the kind of the zero [Value]. *)
Inductive Kind : Set :=
| Invalid
| Scalar (b : basic)
| Array
| Map
| Ptr
| Slice
| Struct.

(** A struct tag in its conventional form, as the sequence of
    [key:"value"] pairs that [StructTag.Lookup] scans, values unquoted. *)
Definition StructTag : Set := list (string * string).

(** Type descriptors.  [Defined name u] is the declaration [type name u'],
    where [u] is the underlying type of [u']. *)
Inductive rtype : Set :=
| Basic (b : basic)
| Defined (name : string) (underlying : rtype)
| PtrTo (elem : rtype)
| SliceOf (elem : rtype)
| ArrayOf (len : nat) (elem : rtype)
| MapOf (key elem : rtype)
| StructOf (fields : fieldlist)
with fieldlist : Set :=
| FNil
| FCons (name pkgPath : string) (typ : rtype) (tag : StructTag)
        (rest : fieldlist).

(** [reflect.StructField]: [PkgPath] is empty exactly for exported fields. *)
Record StructField : Set := mkStructField {
  Name : string;
  PkgPath : string;
  Typ : rtype;
  Tag : StructTag
}.

Fixpoint fields_of (fs : fieldlist) : list StructField :=
  match fs with
  | FNil => []
  | FCons n p t g rest => mkStructField n p t g :: fields_of rest
  end.

Definition IsExported (f : StructField) : bool :=
  String.eqb (PkgPath f) "".

(** Decidable identity of type descriptors. *)
Definition basic_eq_dec (a b : basic) : {a = b} + {a <> b}.
Proof. decide equality. Defined.

Definition Kind_eq_dec (a b : Kind) : {a = b} + {a <> b}.
Proof. decide equality. apply basic_eq_dec. Defined.

Definition StructTag_eq_dec (a b : StructTag) : {a = b} + {a <> b}.
Proof.
  apply list_eq_dec. intros [k1 v1] [k2 v2].
  destruct (string_dec k1 k2); destruct (string_dec v1 v2);
    [left; congruence | right; congruence ..].
Defined.

Fixpoint rtype_eq_dec (a b : rtype) {struct a} : {a = b} + {a <> b}
with fieldlist_eq_dec (a b : fieldlist) {struct a} : {a = b} + {a <> b}.
Proof.
  - decide equality.
    + apply basic_eq_dec.
    + apply string_dec.
    + apply Nat.eq_dec.
  - decide equality.
    + apply StructTag_eq_dec.
    + apply string_dec.
    + apply string_dec.
Defined.

Definition rtype_eqb (a b : rtype) : bool :=
  if rtype_eq_dec a b then true else false.

Definition Kind_eqb (a b : Kind) : bool :=
  if Kind_eq_dec a b then true else false.

(** [Type.Kind], the underlying type and [Type.hasName]. *)
Fixpoint Type_Kind (t : rtype) : Kind :=
  match t with
  | Basic b => Scalar b
  | Defined _ u => Type_Kind u
  | PtrTo _ => Ptr
  | SliceOf _ => Slice
  | ArrayOf _ _ => Array
  | MapOf _ _ => Map
  | StructOf _ => Struct
  end.

Fixpoint underlying (t : rtype) : rtype :=
  match t with
  | Defined _ u => underlying u
  | _ => t
  end.

Definition hasName (t : rtype) : bool :=
  match t with
  | Basic _ | Defined _ _ => true
  | _ => false
  end.

(** [directlyAssignable(T, V)]: identical types, or identical underlying
    types when at most one of the two is named. *)
Definition directlyAssignable (T V : rtype) : bool :=
  if rtype_eqb T V then true
  else if (hasName T && hasName V) || negb (Kind_eqb (Type_Kind T) (Type_Kind V))
       then false
       else rtype_eqb (underlying T) (underlying V).

(** [V.AssignableTo(T)].  Without interface types nothing is assignable
    through [implements]. *)
Definition Type_AssignableTo (V T : rtype) : bool :=
  directlyAssignable T V.

(** [Type.Elem] and [Type.Key] panic on the kinds that have none. *)
Definition Type_Elem (t : rtype) : result rtype :=
  match underlying t with
  | PtrTo e | SliceOf e | ArrayOf _ e | MapOf _ e => Ok e
  | _ => Panic (OnWrongKind "Type.Elem")
  end.

Definition Type_Key (t : rtype) : result rtype :=
  match underlying t with
  | MapOf k _ => Ok k
  | _ => Panic (OnWrongKind "Type.Key")
  end.

(** The declared fields of a struct type, in declaration order. *)
Definition Type_Fields (t : rtype) : list StructField :=
  match underlying t with
  | StructOf fs => fields_of fs
  | _ => []
  end.

(** [StructTag.Lookup] scans the pairs in order, stops at a malformed pair
    (a name is never empty) and returns the value of the first pair whose
    name is the key; [StructTag.Get] maps a miss to the empty string. *)
Fixpoint Tag_Lookup (tag : StructTag) (key : string) : option string :=
  match tag with
  | [] => None
  | (name, value) :: rest =>
      if String.eqb name "" then None
      else if String.eqb key name then Some value
      else Tag_Lookup rest key
  end.

Definition Tag_Get (tag : StructTag) (key : string) : string :=
  match Tag_Lookup tag key with
  | Some v => v
  | None => ""
  end.

(** Data viewed by a [Value].  Integers of every width are carried as their
    mathematical value, floating-point numbers as their IEEE 754 bit
    pattern; a pointer is nil or holds an address, together with what is
    stored there; a nil slice or map is flagged [isnil]. *)
Inductive data : Set :=
| DBool (b : bool)
| DInt (z : Z)
| DFloat (bits : Z)
| DComplex (re im : Z)
| DString (s : string)
| DPtr (pointee : option (nat * data))
| DArray (elems : list data)
| DSlice (elems : list data) (cap : nat) (isnil : bool)
| DMap (entries : list (data * data)) (isnil : bool)
| DStruct (fields : list data).

(** The flag bits the converter depends on. *)
Record flag : Set := mkFlag {
  flagRO : bool;    (* obtained through an unexported field *)
  flagAddr : bool   (* addressable *)
}.

Definition flag0 : flag := mkFlag false false.
Definition flagAddressable : flag := mkFlag false true.

(** [reflect.Value]; [ZeroValue] is [reflect.Value{}]. *)
Inductive Value : Set :=
| ZeroValue
| ValueOf (typ : rtype) (dat : data) (fl : flag).

(** *** Equality of keys

    The runtime's maps compare keys with [==].  Floating-point numbers
    are compared as IEEE 754 has it: a NaN equals nothing, itself
    included, and the two zeros are equal.  Pointers are compared by
    address, arrays element by element, structs field by field without
    their blank fields.  Slices and maps are not comparable and make no
    key. *)

(** A binary format with [ebits] exponent and [mbits] fraction bits. *)
Definition float_isNaN (ebits mbits bits : Z) : bool :=
  Z.eqb ((bits / 2 ^ mbits) mod 2 ^ ebits) (2 ^ ebits - 1)
  && negb (Z.eqb (bits mod 2 ^ mbits) 0).

Definition float_isZero (ebits mbits bits : Z) : bool :=
  Z.eqb (bits mod 2 ^ (ebits + mbits)) 0.

Definition float_equal (ebits mbits a b : Z) : bool :=
  if float_isNaN ebits mbits a || float_isNaN ebits mbits b then false
  else if float_isZero ebits mbits a && float_isZero ebits mbits b then true
  else Z.eqb a b.

Definition basic_equal (k : basic) (a b : data) : bool :=
  match k, a, b with
  | Bool, DBool x, DBool y => Bool.eqb x y
  | String, DString x, DString y => String.eqb x y
  | Float32, DFloat x, DFloat y => float_equal 8 23 x y
  | Float64, DFloat x, DFloat y => float_equal 11 52 x y
  | Complex64, DComplex r i, DComplex r' i' =>
      float_equal 8 23 r r' && float_equal 8 23 i i'
  | Complex128, DComplex r i, DComplex r' i' =>
      float_equal 11 52 r r' && float_equal 11 52 i i'
  | (Int | Int8 | Int16 | Int32 | Int64
     | Uint | Uint8 | Uint16 | Uint32 | Uint64 | Uintptr), DInt x, DInt y =>
      Z.eqb x y
  | _, _, _ => false
  end.

(** [a == b] at the comparable type [t]. *)
Fixpoint key_equal (t : rtype) (a b : data) {struct a} : bool :=
  match underlying t, a, b with
  | Basic k, _, _ => basic_equal k a b
  | PtrTo _, DPtr p, DPtr q =>
      match p, q with
      | None, None => true
      | Some (x, _), Some (y, _) => Nat.eqb x y
      | _, _ => false
      end
  | ArrayOf _ e, DArray xs, DArray ys =>
      (fix elems_equal (xs ys : list data) {struct xs} : bool :=
         match xs, ys with
         | [], [] => true
         | x :: xs', y :: ys' => key_equal e x y && elems_equal xs' ys'
         | _, _ => false
         end) xs ys
  | StructOf fs, DStruct xs, DStruct ys =>
      (fix fields_equal (xs : list data) (fs : list StructField)
           (ys : list data) {struct xs} : bool :=
         match xs, fs, ys with
         | [], [], [] => true
         | x :: xs', f :: fs', y :: ys' =>
             (String.eqb (Name f) "_" || key_equal (Typ f) x y)
             && fields_equal xs' fs' ys'
         | _, _, _ => false
         end) xs (fields_of fs) ys
  | _, _, _ => false
  end.

(** [needKeyUpdate]: whether an assignment [m[k] = v] to a key already
    in the map stores [k] over the key that is there; it does for the
    types at which equal keys can differ. *)
Fixpoint needKeyUpdate (t : rtype) : bool :=
  match t with
  | Basic (Float32 | Float64 | Complex64 | Complex128 | String) => true
  | Defined _ u => needKeyUpdate u
  | ArrayOf _ e => needKeyUpdate e
  | StructOf fs => fields_needKeyUpdate fs
  | _ => false
  end
with fields_needKeyUpdate (fs : fieldlist) : bool :=
  match fs with
  | FNil => false
  | FCons _ _ t _ rest => needKeyUpdate t || fields_needKeyUpdate rest
  end.

(** The zero value of a type, [reflect.Zero]. *)
Definition Zero_basic (b : basic) : data :=
  match b with
  | Bool => DBool false
  | String => DString ""
  | Float32 | Float64 => DFloat 0
  | Complex64 | Complex128 => DComplex 0 0
  | _ => DInt 0
  end.

Fixpoint Zero_data (t : rtype) : data :=
  match t with
  | Basic b => Zero_basic b
  | Defined _ u => Zero_data u
  | PtrTo _ => DPtr None
  | SliceOf _ => DSlice [] 0 true
  | ArrayOf n e => DArray (repeat (Zero_data e) n)
  | MapOf _ _ => DMap [] true
  | StructOf fs => DStruct (Zero_fields fs)
  end
with Zero_fields (fs : fieldlist) : list data :=
  match fs with
  | FNil => []
  | FCons _ _ t _ rest => Zero_data t :: Zero_fields rest
  end.


(** *** Methods of [Value] *)

Definition Value_Kind (v : Value) : Kind :=
  match v with
  | ZeroValue => Invalid
  | ValueOf t _ _ => Type_Kind t
  end.

Definition Value_IsValid (v : Value) : bool :=
  match v with
  | ZeroValue => false
  | ValueOf _ _ _ => true
  end.

Definition Value_Type (v : Value) : result rtype :=
  match v with
  | ZeroValue => Panic (OnZeroValue "Value.Type")
  | ValueOf t _ _ => Ok t
  end.

Definition Value_CanInterface (v : Value) : result bool :=
  match v with
  | ZeroValue =>
      Panic (OnZeroValue "Value.CanInterface")
  | ValueOf _ _ fl => Ok (negb (flagRO fl))
  end.

Definition Value_CanSet (v : Value) : bool :=
  match v with
  | ZeroValue => false
  | ValueOf _ _ fl => flagAddr fl && negb (flagRO fl)
  end.

(** [reflect.New(t)] and [Value.Elem] on pointers.  The address of the
    new storage is the allocator's choice; the converter keeps what
    [Elem] gives and drops the pointer, so that the model fixes the
    address. *)
Definition New (t : rtype) : Value :=
  ValueOf (PtrTo t) (DPtr (Some (0, Zero_data t))) flag0.

Definition Value_Elem (v : Value) : result Value :=
  match v with
  | ValueOf t (DPtr p) fl =>
      match underlying t, p with
      | PtrTo e, Some (_, d) => Ok (ValueOf e d (mkFlag (flagRO fl) true))
      | PtrTo e, None => Ok ZeroValue
      | _, _ => Panic (OnWrongKind "Value.Elem")
      end
  | _ => Panic (OnWrongKind "Value.Elem")
  end.

(** Struct fields.  A field read through an unexported name is read-only;
    addressability is inherited from the struct. *)
Definition field_flag (parent : flag) (f : StructField) : flag :=
  mkFlag (flagRO parent || negb (IsExported f)) (flagAddr parent).

Definition fieldValue (parent : flag) (f : StructField) (d : data) : Value :=
  ValueOf (Typ f) d (field_flag parent f).

Definition struct_data (d : data) : list data :=
  match d with
  | DStruct ds => ds
  | _ => []
  end.

Definition Value_NumField (v : Value) : result nat :=
  match Value_Kind v, v with
  | Struct, ValueOf t _ _ => Ok (length (Type_Fields t))
  | _, _ => Panic (OnWrongKind "Value.NumField")
  end.

Definition Value_Field (v : Value) (i : nat) : result Value :=
  match Value_Kind v, v with
  | Struct, ValueOf t d fl =>
      match nth_error (Type_Fields t) i, nth_error (struct_data d) i with
      | Some f, Some x => Ok (fieldValue fl f x)
      | _, _ => Panic IndexOutOfRange
      end
  | _, _ => Panic (OnWrongKind "Value.Field")
  end.

(** [Type.FieldByName] on a struct without embedded fields: the first field
    of that name; the empty name finds nothing. *)
Fixpoint find_field (fs : list StructField) (name : string) (i : nat)
  : option nat :=
  match fs with
  | [] => None
  | f :: rest =>
      if String.eqb (Name f) name then Some i else find_field rest name (S i)
  end.

Definition Type_FieldByName (t : rtype) (name : string) : option nat :=
  if String.eqb name "" then None else find_field (Type_Fields t) name 0.

(** A value that aliases a slot of a container (a struct field or a sequence
    element): the slot's own [Value] and its position.  The zero [Value]
    stands for "no such field". *)
Record Handle : Set := mkHandle {
  handle_value : Value;
  handle_index : nat
}.

Definition noHandle : Handle := mkHandle ZeroValue 0.

Definition Value_FieldByName (v : Value) (name : string) : result Handle :=
  match Value_Kind v, v with
  | Struct, ValueOf t _ _ =>
      match Type_FieldByName t name with
      | Some i => fv <- Value_Field v i ;; Ok (mkHandle fv i)
      | None => Ok noHandle
      end
  | _, _ =>
      Panic (OnWrongKind "Value.FieldByName")
  end.

(** Sequences.  [Len] and [Cap] accept a pointer to an array as well,
    and answer with the length that the array type declares. *)
Definition ptrToArray_Len (t : rtype) : option nat :=
  match underlying t with
  | PtrTo e =>
      match underlying e with
      | ArrayOf n _ => Some n
      | _ => None
      end
  | _ => None
  end.

Definition Value_Len (v : Value) : result nat :=
  match v with
  | ValueOf t d _ =>
      match Type_Kind t, d with
      | Slice, DSlice es _ _ => Ok (length es)
      | Array, DArray es => Ok (length es)
      | Map, DMap es _ => Ok (length es)
      | Scalar String, DString s => Ok (String.length s)
      | Ptr, DPtr _ =>
          match ptrToArray_Len t with
          | Some n => Ok n
          | None => Panic (OnWrongKind "Value.Len")
          end
      | _, _ => Panic (OnWrongKind "Value.Len")
      end
  | ZeroValue => Panic (OnZeroValue "Value.Len")
  end.

Definition Value_Cap (v : Value) : result nat :=
  match v with
  | ValueOf t d _ =>
      match Type_Kind t, d with
      | Slice, DSlice _ cap _ => Ok cap
      | Array, DArray es => Ok (length es)
      | Ptr, DPtr _ =>
          match ptrToArray_Len t with
          | Some n => Ok n
          | None => Panic (OnWrongKind "Value.Cap")
          end
      | _, _ => Panic (OnWrongKind "Value.Cap")
      end
  | ZeroValue => Panic (OnZeroValue "Value.Cap")
  end.

(** Elements of a slice are always addressable, elements of an array are
    as addressable as the array. *)
Definition elem_flag (k : Kind) (parent : flag) : flag :=
  match k with
  | Slice => mkFlag (flagRO parent) true
  | _ => mkFlag (flagRO parent) (flagAddr parent)
  end.

Definition seq_data (d : data) : list data :=
  match d with
  | DSlice es _ _ => es
  | DArray es => es
  | _ => []
  end.

Definition Value_Index (v : Value) (i : nat) : result Handle :=
  match v with
  | ValueOf t d fl =>
      match Type_Kind t with
      | Slice | Array =>
          e <- Type_Elem t ;;
          match nth_error (seq_data d) i with
          | Some x => Ok (mkHandle (ValueOf e x (elem_flag (Type_Kind t) fl)) i)
          | None => Panic IndexOutOfRange
          end
      | _ => Panic (OnWrongKind "Value.Index")
      end
  | ZeroValue => Panic (OnZeroValue "Value.Index")
  end.

Definition MakeSlice (t : rtype) (len cap : nat) : result Value :=
  if negb (Kind_eqb (Type_Kind t) Slice)
  then Panic (OnWrongKind "MakeSlice")
  else if Nat.ltb cap len then Panic LenGreaterThanCap
  else e <- Type_Elem t ;;
       Ok (ValueOf t (DSlice (repeat (Zero_data e) len) cap false) flag0).

(** Writing through a handle: [handle.Set(x)], seen from the container.
    The stored data is [x]'s; the slot keeps its own type. *)
Fixpoint set_nth (l : list data) (i : nat) (x : data) : list data :=
  match l, i with
  | [], _ => []
  | _ :: rest, O => x :: rest
  | y :: rest, S j => y :: set_nth rest j x
  end.

Definition store (container : Value) (i : nat) (x : data) : Value :=
  match container with
  | ValueOf t (DStruct ds) fl => ValueOf t (DStruct (set_nth ds i x)) fl
  | ValueOf t (DSlice es cap isnil) fl =>
      ValueOf t (DSlice (set_nth es i x) cap isnil) fl
  | ValueOf t (DArray es) fl => ValueOf t (DArray (set_nth es i x)) fl
  | _ => container
  end.

Definition Value_Set (container : Value) (h : Handle) (x : Value)
  : result Value :=
  match handle_value h with
  | ZeroValue => Panic (OnZeroValue "Value.Set")
  | ValueOf T _ hfl =>
      if flagRO hfl
      then Panic (UnexportedField "Value.Set")
      else if negb (flagAddr hfl)
      then Panic Unaddressable
      else match x with
           | ZeroValue => Panic (OnZeroValue "Value.Set")
           | ValueOf V xd xfl =>
               if flagRO xfl
               then Panic (UnexportedField "Value.Set")
               else if Type_AssignableTo V T
               then Ok (store container (handle_index h) xd)
               else Panic (NotAssignable "Value.Set")
           end
  end.

(** Maps.  A map is the list of its entries, in the order in which the
    call at hand finds them: [MapKeys] picks an order at each call, so
    that what is proved of one call holds whatever the order, and a
    statement that compares two calls on the same list compares two calls
    that range over the map in the same order. *)
Definition MakeMapWithSize (t : rtype) (n : nat) : result Value :=
  if negb (Kind_eqb (Type_Kind t) Map)
  then Panic (OnWrongKind "MakeMapWithSize")
  else Ok (ValueOf t (DMap [] false) flag0).

(** [m[k]], [m[k] = v] and [delete(m, k)] on the entries of a map with
    keys of type [kt]. *)
Fixpoint map_find (kt : rtype) (es : list (data * data)) (k : data)
  : option data :=
  match es with
  | [] => None
  | (k', v') :: rest =>
      if key_equal kt k' k then Some v' else map_find kt rest k
  end.

Fixpoint map_insert (kt : rtype) (es : list (data * data)) (k v : data)
  : list (data * data) :=
  match es with
  | [] => [(k, v)]
  | (k', v') :: rest =>
      if key_equal kt k' k
      then ((if needKeyUpdate kt then k else k'), v) :: rest
      else (k', v') :: map_insert kt rest k v
  end.

Fixpoint map_delete (kt : rtype) (es : list (data * data)) (k : data)
  : list (data * data) :=
  match es with
  | [] => []
  | (k', v') :: rest =>
      if key_equal kt k' k then rest
      else (k', v') :: map_delete kt rest k
  end.

(** [m.MapIndex(key)]: the zero [Value] when the key is not found. *)
Definition Value_MapIndex (m key : Value) : result Value :=
  match m with
  | ValueOf t (DMap es _) fl =>
      if negb (Kind_eqb (Type_Kind t) Map)
      then Panic (OnWrongKind "Value.MapIndex")
      else
        match key with
        | ZeroValue => Panic (OnZeroValue "Value.MapIndex")
        | ValueOf K kd kfl =>
            kt <- Type_Key t ;;
            if negb (Type_AssignableTo K kt)
            then Panic (NotAssignable "Value.MapIndex")
            else
              et <- Type_Elem t ;;
              match map_find kt es kd with
              | Some x =>
                  Ok (ValueOf et x (mkFlag (flagRO fl || flagRO kfl) false))
              | None => Ok ZeroValue
              end
        end
  | ValueOf _ _ _ => Panic (OnWrongKind "Value.MapIndex")
  | ZeroValue => Panic (OnZeroValue "Value.MapIndex")
  end.

(** [m.SetMapIndex(key, elem)]; the zero [Value] as [elem] deletes the
    key. *)
Definition Value_SetMapIndex (m key elem : Value) : result Value :=
  match m with
  | ValueOf t (DMap es isnil) fl =>
      if negb (Kind_eqb (Type_Kind t) Map)
      then Panic (OnWrongKind "Value.SetMapIndex")
      else if flagRO fl then Panic (UnexportedField "Value.SetMapIndex")
      else
        match key with
        | ZeroValue => Panic (OnZeroValue "Value.SetMapIndex")
        | ValueOf K kd kfl =>
            if flagRO kfl then Panic (UnexportedField "Value.SetMapIndex")
            else
              kt <- Type_Key t ;;
              if negb (Type_AssignableTo K kt)
              then Panic (NotAssignable "Value.SetMapIndex")
              else
                match elem with
                | ZeroValue =>
                    Ok (ValueOf t (DMap (map_delete kt es kd) isnil) fl)
                | ValueOf E ed efl =>
                    if flagRO efl
                    then Panic (UnexportedField "Value.SetMapIndex")
                    else
                      et <- Type_Elem t ;;
                      if negb (Type_AssignableTo E et)
                      then Panic (NotAssignable "Value.SetMapIndex")
                      else if isnil then Panic NilMap
                      else
                        Ok (ValueOf t (DMap (map_insert kt es kd ed) false)
                                    fl)
                end
        end
  | ValueOf _ _ _ => Panic (OnWrongKind "Value.SetMapIndex")
  | ZeroValue => Panic (OnZeroValue "Value.SetMapIndex")
  end.

(** The numeric cases of [convertOp], which decides [Type.ConvertibleTo]:
    integers and floating-point numbers convert to one another, complex
    numbers to complex numbers.  [converter.go] never consults it. *)
Definition isInteger (k : Kind) : bool :=
  match k with
  | Scalar (Int | Int8 | Int16 | Int32 | Int64
            | Uint | Uint8 | Uint16 | Uint32 | Uint64 | Uintptr) => true
  | _ => false
  end.

Definition isFloat (k : Kind) : bool :=
  match k with
  | Scalar (Float32 | Float64) => true
  | _ => false
  end.

Definition isComplex (k : Kind) : bool :=
  match k with
  | Scalar (Complex64 | Complex128) => true
  | _ => false
  end.

Definition Type_ConvertibleTo_numeric (src dst : rtype) : bool :=
  let s := Type_Kind src in
  let d := Type_Kind dst in
  ((isInteger s || isFloat s) && (isInteger d || isFloat d))
  || (isComplex s && isComplex d).

End reflect.

(** ** The converter: [struct-converter/converter.go] *)

Module struct_converter.
Import reflect.

(** The three strategies call the dispatcher [convertValue] on the parts of
    their source; they are written once against that recursive call and tied
    to it below. *)
Section strategies.

Variable convertValue : Value -> rtype -> result Value.

(** The body of the loop of [convertStruct], on the source fields from the
    current one on; [target] is the record built so far. *)
Fixpoint convertStruct_loop (srcFlag : flag) (fs : list StructField)
    (ds : list data) (target : Value) {struct ds} : result Value :=
  match ds, fs with
  | d :: ds', f :: fs' =>
      let sourceField := fieldValue srcFlag f d in
      canInterface <- Value_CanInterface sourceField ;;
      if negb canInterface then convertStruct_loop srcFlag fs' ds' target
      else
        let targetFieldName := Name f in
        targetField <- Value_FieldByName target targetFieldName ;;
        if Value_IsValid (handle_value targetField)
           && Value_CanSet (handle_value targetField)
        then
          targetFieldType <- Value_Type (handle_value targetField) ;;
          convertedValue <- convertValue sourceField targetFieldType ;;
          target' <- Value_Set target targetField convertedValue ;;
          convertStruct_loop srcFlag fs' ds' target'
        else convertStruct_loop srcFlag fs' ds' target
  | _, _ => Ok target
  end.

(** [convertStruct]: struct-to-struct conversion by field name. *)
Definition convertStructWith (source : Value) (targetType : rtype)
  : result Value :=
  target <- Value_Elem (New targetType) ;;
  _ <- Value_NumField source ;;
  match source with
  | ValueOf st (DStruct ds) fl =>
      convertStruct_loop fl (Type_Fields st) ds target
  | _ => Ok target
  end.

(** The loop of [convertSlice] from index [i] on. *)
Fixpoint convertSlice_loop (elemType srcElemType : rtype) (srcElemFlag : flag)
    (es : list data) (i : nat) (targetSlice : Value) {struct es}
  : result Value :=
  match es with
  | [] => Ok targetSlice
  | e :: es' =>
      let sourceElem := ValueOf srcElemType e srcElemFlag in
      convertedValue <- convertValue sourceElem elemType ;;
      slot <- Value_Index targetSlice i ;;
      targetSlice' <- Value_Set targetSlice slot convertedValue ;;
      convertSlice_loop elemType srcElemType srcElemFlag es' (S i)
                        targetSlice'
  end.

(** [convertSlice]: slice-to-slice conversion, element by element. *)
Definition convertSliceWith (source : Value) (targetType : rtype)
  : result Value :=
  if negb (Kind_eqb (Type_Kind targetType) Slice)
  then Err "target type is not a slice"
  else
    elemType <- Type_Elem targetType ;;
    len <- Value_Len source ;;
    cap <- Value_Cap source ;;
    targetSlice <- MakeSlice targetType len cap ;;
    match source with
    | ValueOf st (DSlice es _ _) fl =>
        srcElemType <- Type_Elem st ;;
        convertSlice_loop elemType srcElemType (elem_flag Slice fl) es 0
                          targetSlice
    | ValueOf st (DArray es) fl =>
        srcElemType <- Type_Elem st ;;
        convertSlice_loop elemType srcElemType (elem_flag Array fl) es 0
                          targetSlice
    | _ =>
        (* a pointer to an array: [Len] answers, [Index] does not *)
        if Nat.eqb len 0 then Ok targetSlice
        else Panic (OnWrongKind "Value.Index")
    end.

(** [convertValue(source.MapIndex(key), elemType)] for a key [k] that
    [MapKeys] gave, on the entries [all] of the source: the conversion of
    the value found under [k], or of the zero [Value] when [k] is not
    found, which is the case of a key that does not equal itself.  The
    lookup and the call are written as one recursion on the entries;
    [convertMapIndex_MapIndex] below splits them again. *)
Fixpoint convertMapIndex (srcKeyType srcElemType : rtype) (srcFlag : flag)
    (k : data) (elemType : rtype) (all : list (data * data)) {struct all}
  : result Value :=
  match all with
  | [] => convertValue ZeroValue elemType
  | (k', v') :: rest =>
      if key_equal srcKeyType k' k
      then convertValue
             (ValueOf srcElemType v' (mkFlag (flagRO srcFlag) false))
             elemType
      else convertMapIndex srcKeyType srcElemType srcFlag k elemType rest
  end.

(** The loop of [convertMap] over the keys that remain; [all] are the
    entries of the source.  The code calls [MapIndex] before it converts
    the key; [MapIndex] answers for every key that [MapKeys] gave
    ([Value_MapIndex_of_key] below), so that the order of the two does
    not show in the outcome. *)
Fixpoint convertMap_loop (targetType srcKeyType srcElemType : rtype)
    (srcFlag : flag) (all es : list (data * data)) (targetMap : Value)
    {struct es} : result Value :=
  match es with
  | [] => Ok targetMap
  | (k, _) :: es' =>
      let key := ValueOf srcKeyType k (mkFlag (flagRO srcFlag) false) in
      keyType <- Type_Key targetType ;;
      convertedKey <- convertValue key keyType ;;
      elemType <- Type_Elem targetType ;;
      convertedValue <-
        convertMapIndex srcKeyType srcElemType srcFlag k elemType all ;;
      targetMap' <- Value_SetMapIndex targetMap convertedKey convertedValue ;;
      convertMap_loop targetType srcKeyType srcElemType srcFlag all es'
                      targetMap'
  end.

(** [convertMap]: map-to-map conversion, key by key and value by value. *)
Definition convertMapWith (source : Value) (targetType : rtype)
  : result Value :=
  if negb (Kind_eqb (Type_Kind targetType) Map)
  then Err "target type is not a map"
  else
    len <- Value_Len source ;;
    targetMap <- MakeMapWithSize targetType len ;;
    match source with
    | ValueOf st (DMap es _) fl =>
        if Kind_eqb (Type_Kind st) Map then
          srcKeyType <- Type_Key st ;;
          srcElemType <- Type_Elem st ;;
          convertMap_loop targetType srcKeyType srcElemType fl es es
                          targetMap
        else Panic (OnWrongKind "Value.MapKeys")
    | _ => Panic (OnWrongKind "Value.MapKeys")
    end.

(** The [default] branch of the dispatcher. *)
Definition convertDefault (source : Value) (targetType : rtype)
  : result Value :=
  sourceType <- Value_Type source ;;
  if Type_AssignableTo sourceType targetType then Ok source
  else Err "incompatible types or unsupported conversion".

End strategies.

(** [convertValue] recursively converts a single [Value] to the target
    type.  The recursion descends into the data of the source. *)
Fixpoint convertData (d : data) (st : rtype) (fl : flag) (targetType : rtype)
    {struct d} : result Value :=
  let source := ValueOf st d fl in
  let convertValue := fun (v : Value) (T : rtype) =>
    match v with
    | ValueOf st' d' fl' => convertData d' st' fl' T
    | ZeroValue => convertDefault ZeroValue T
    end in
  match Value_Kind source with
  | Struct => convertStructWith convertValue source targetType
  | Slice => convertSliceWith convertValue source targetType
  | Map => convertMapWith convertValue source targetType
  | _ => convertDefault source targetType
  end.

Definition convertValue (source : Value) (targetType : rtype)
  : result Value :=
  match source with
  | ValueOf st d fl => convertData d st fl targetType
  | ZeroValue => convertDefault ZeroValue targetType
  end.

Definition convertStruct : Value -> rtype -> result Value :=
  convertStructWith convertValue.

Definition convertSlice : Value -> rtype -> result Value :=
  convertSliceWith convertValue.

Definition convertMap : Value -> rtype -> result Value :=
  convertMapWith convertValue.

(** The target field that [ConvertStructs] settles on for a source field
    (the [if tagName != ""] statement of the loop): [Ok None] is its
    [continue], [Ok (Some targetField)] leaves the statement with
    [targetField]. *)
Definition resolveTargetField (tagName : string)
    (sourceTypeField : StructField) (targetVal : Value)
  : result (option Handle) :=
  if negb (String.eqb tagName "") then
    let tagValue := Tag_Get (Tag sourceTypeField) tagName in
    targetField <-
      (if negb (String.eqb tagValue "")
       then Value_FieldByName targetVal tagValue
       else Ok noHandle) ;;
    targetField <-
      (if negb (Value_IsValid (handle_value targetField))
          || negb (Value_CanSet (handle_value targetField))
       then Value_FieldByName targetVal (Name sourceTypeField)
       else Ok targetField) ;;
    if negb (Value_IsValid (handle_value targetField))
       || negb (Value_CanSet (handle_value targetField))
    then Ok None
    else Ok (Some targetField)
  else
    targetField <- Value_FieldByName targetVal (Name sourceTypeField) ;;
    Ok (Some targetField).

(** One iteration of the loop of [ConvertStructs]: the field
    [sourceTypeField] with value [sourceField], against the target as it
    stands.  [Ok targetVal'] continues with the next field, [Err] is the
    [return err] of the loop. *)
Definition ConvertStructs_field (tagName : string)
    (sourceTypeField : StructField) (sourceField : Value) (targetVal : Value)
  : result Value :=
  let tagValue := Tag_Get (Tag sourceTypeField) tagName in
  canInterface <- Value_CanInterface sourceField ;;
  if negb canInterface || String.eqb tagValue "" then Ok targetVal
  else
    resolved <- resolveTargetField tagName sourceTypeField targetVal ;;
    match resolved with
    | None => Ok targetVal
    | Some targetField =>
        if negb (Value_IsValid (handle_value targetField))
           || negb (Value_CanSet (handle_value targetField))
        then Ok targetVal
        else
          targetFieldType <- Value_Type (handle_value targetField) ;;
          convertedValue <- convertValue sourceField targetFieldType ;;
          Value_Set targetVal targetField convertedValue
    end.

(** The loop of [ConvertStructs]; the first component of the outcome is the
    target as the call leaves it, the second is the returned error. *)
Fixpoint ConvertStructs_loop (tagName : string) (fs : list StructField)
    (ds : list data) (targetVal : Value) {struct ds}
  : Value * result unit :=
  match ds, fs with
  | d :: ds', sourceTypeField :: fs' =>
      let sourceField := fieldValue flag0 sourceTypeField d in
      match ConvertStructs_field tagName sourceTypeField sourceField
                                 targetVal with
      | Ok targetVal' => ConvertStructs_loop tagName fs' ds' targetVal'
      | Err msg => (targetVal, Err msg)
      | Panic p => (targetVal, Panic p)
      end
  | _, _ => (targetVal, Ok tt)
  end.

(** [ConvertStructs[Source, Target](source, target, tagName)]: [source] and
    [target] are the values the two pointers refer to. *)
Definition ConvertStructs (Source Target : rtype) (source target : data)
    (tagName : string) : Value * result unit :=
  let sourceVal := ValueOf Source source flag0 in
  let targetVal := ValueOf Target target flagAddressable in
  if negb (Kind_eqb (Value_Kind sourceVal) Struct)
     || negb (Kind_eqb (Value_Kind targetVal) Struct)
  then (targetVal, Err "source or target is not a struct")
  else ConvertStructs_loop tagName (Type_Fields Source) (struct_data source)
                           targetVal.

End struct_converter.

(** ** Notions used in the statements *)

Import reflect.

(** The data of a value and its read-only bit. *)
Definition Value_data (v : Value) : data :=
  match v with
  | ValueOf _ d _ => d
  | ZeroValue => DPtr None
  end.

Definition Value_flagRO (v : Value) : bool :=
  match v with
  | ValueOf _ _ fl => flagRO fl
  | ZeroValue => false
  end.

(** [fits v T]: [v] is a valid value whose type is assignable to [T]. *)
Definition fits (v : Value) (T : rtype) : bool :=
  match v with
  | ValueOf V _ _ => Type_AssignableTo V T
  | ZeroValue => false
  end.

(** An assignment ([Set], [SetMapIndex]) that rejected the type of the
    value it was given. *)
Definition type_mismatch {A : Type} (r : result A) : bool :=
  match r with
  | Panic (NotAssignable _) => true
  | _ => false
  end.

(** [well_typed r srcRO T]: the outcome [r] of converting a source whose
    read-only bit is [srcRO] to the type [T] is, when it is a value, a value
    that fits [T] and is read-only only if the source was; and [r] is not a
    rejected assignment. *)
Definition well_typed (r : result Value) (srcRO : bool) (T : rtype) : Prop :=
  (forall v, r = Ok v ->
             fits v T = true /\ (srcRO = false -> Value_flagRO v = false))
  /\ type_mismatch r = false.

(** What a strategy needs of the recursive call on one piece of data. *)
Definition well_typed_on (conv : Value -> rtype -> result Value) (d : data)
  : Prop :=
  forall st fl T, well_typed (conv (ValueOf st d fl) T) (flagRO fl) T.

Definition well_typed_entry (conv : Value -> rtype -> result Value)
    (kv : data * data) : Prop :=
  well_typed_on conv (fst kv) /\ well_typed_on conv (snd kv).

Definition map_data (d : data) : list (data * data) :=
  match d with
  | DMap es _ => es
  | _ => []
  end.

(** The kinds that the dispatcher hands to a strategy; the other kinds take
    its default branch. *)
Definition is_container (k : Kind) : bool :=
  match k with
  | Struct | Slice | Map => true
  | _ => false
  end.

(** [sequence st d es cap]: data [d] of type [st] is a sequence, a slice
    or an array, with the elements [es] and the capacity [cap]. *)
Definition sequence (st : rtype) (d : data) (es : list data) (cap : nat)
  : Prop :=
  (Type_Kind st = Slice
   /\ exists isnil, d = DSlice es cap isnil /\ length es <= cap)
  \/ (Type_Kind st = Array /\ d = DArray es /\ cap = length es).


(** What [Set] makes of the outcome of a conversion: a value that was
    obtained through an unexported field is refused. *)
Definition settable_result (r : result Value) : result Value :=
  cv <- r ;;
  if Value_flagRO cv then Panic (UnexportedField "Value.Set") else Ok cv.

(** The outcomes of [f] along a list, up to the first failure. *)
Fixpoint mapM {A B : Type} (f : A -> result B) (l : list A)
  : result (list B) :=
  match l with
  | [] => Ok []
  | a :: rest =>
      b <- f a ;;
      bs <- mapM f rest ;;
      Ok (b :: bs)
  end.

(** ** Notions used in the further properties *)

Import struct_converter.

(** The errors that [converter.go] creates with [errors.New]. *)
Definition conversion_errors : list string :=
  ["incompatible types or unsupported conversion";
   "target type is not a slice";
   "target type is not a map"].

(** The errors of the recursive call [conv] on one piece of data, and
    on the two sides of a map entry, are among [errs]. *)
Definition errors_within (conv : Value -> rtype -> result Value)
    (errs : list string) (d : data) : Prop :=
  forall st fl T msg, conv (ValueOf st d fl) T = Err msg -> In msg errs.

Definition errors_within_entry (conv : Value -> rtype -> result Value)
    (errs : list string) (kv : data * data) : Prop :=
  errors_within conv errs (fst kv) /\ errors_within conv errs (snd kv).

(** [settableField T name]: the field that [FieldByName(name)] yields on
    an addressable record of type [T], with its index, when there is one
    and it can be set (it is exported). *)
Definition settableField (T : rtype) (name : string)
  : option (nat * StructField) :=
  match Type_FieldByName T name with
  | Some i =>
      match nth_error (Type_Fields T) i with
      | Some g => if IsExported g then Some (i, g) else None
      | None => None
      end
  | None => None
  end.

(** The target field that [convertStruct] assigns from the source field
    [f] of a readable record: the settable field of the same name. *)
Definition nameTarget (T : rtype) (f : StructField)
  : option (nat * StructField) :=
  if IsExported f then settableField T (Name f) else None.

(** The target field that [ConvertStructs] assigns from the source field
    [f]: none for a field that is unexported or has no value under
    [tagName]; otherwise the settable field named by the tag value, or
    else the settable field of the same name as [f]. *)
Definition tagTarget (tagName : string) (T : rtype) (f : StructField)
  : option (nat * StructField) :=
  let tagValue := Tag_Get (Tag f) tagName in
  if IsExported f && negb (String.eqb tagValue "") then
    match settableField T tagValue with
    | Some r => Some r
    | None => settableField T (Name f)
    end
  else None.

(** Field-by-field assignment into the fields [ts] of a record: each
    source field that [resolve] sends to a target field is converted to
    that field's type and stored at its index; the first failure stops
    the loop and leaves the fields as they are by then. *)
Section assignment.

Variable conv : Value -> rtype -> result Value.
Variable resolve : StructField -> option (nat * StructField).
Variable srcFlag : flag.

Fixpoint assign_fields (fs : list StructField) (ds : list data)
    (ts : list data) {struct ds} : list data * result unit :=
  match ds, fs with
  | d :: ds', f :: fs' =>
      match resolve f with
      | None => assign_fields fs' ds' ts
      | Some (i, g) =>
          match conv (fieldValue srcFlag f d) (Typ g) with
          | Ok c => assign_fields fs' ds' (set_nth ts i (Value_data c))
          | Err msg => (ts, Err msg)
          | Panic p => (ts, Panic p)
          end
      end
  | _, _ => (ts, Ok tt)
  end.

End assignment.

(** The entries of a map with keys of type [kt] after the assignments
    [m[k] = v] for the pairs of [kvs], in order. *)
Definition map_inserts (kt : rtype) (ms kvs : list (data * data))
  : list (data * data) :=
  fold_left (fun m kv => map_insert kt m (fst kv) (snd kv)) kvs ms.

(** The two conversions that [convertMap] asks for at one key of a map
    with the entries [all], key type [sk] and element type [se], read
    through a value with the flag [fl]: the key to [kt], then what
    [MapIndex] gives for the key to [et]. *)
Definition convertEntry (sk se : rtype) (fl : flag) (kt et : rtype)
    (all : list (data * data)) (kv : data * data) : result (data * data) :=
  convertedKey <-
    convertValue (ValueOf sk (fst kv) (mkFlag (flagRO fl) false)) kt ;;
  convertedValue <-
    convertMapIndex convertValue sk se fl (fst kv) et all ;;
  Ok (Value_data convertedKey, Value_data convertedValue).

(** [keys_distinct kt es]: no key of the entries [es] equals a later one,
    as in every map of a Go program; [keys_found kt es]: every key equals
    itself, so that [MapIndex] finds it, as in every map without a NaN
    in a key. *)
Fixpoint keys_distinct (kt : rtype) (es : list (data * data)) : bool :=
  match es with
  | [] => true
  | (k, _) :: rest =>
      forallb (fun kv => negb (key_equal kt k (fst kv))) rest
      && keys_distinct kt rest
  end.

Definition keys_found (kt : rtype) (es : list (data * data)) : bool :=
  forallb (fun kv => key_equal kt (fst kv) (fst kv)) es.

(** [has_type d t]: the data [d] are shaped as the values of type [t]
    are.  A scalar has the representation of its kind; a slice has no more
    elements than its capacity and an array as many as its type says;
    a record has one entry per declared field; and the parts are shaped
    as their own types say.  Every [reflect.Value] of a Go program
    satisfies it. *)
Definition basic_has_type (d : data) (b : basic) : bool :=
  match b, d with
  | Bool, DBool _ => true
  | String, DString _ => true
  | (Float32 | Float64), DFloat _ => true
  | (Complex64 | Complex128), DComplex _ _ => true
  | (Int | Int8 | Int16 | Int32 | Int64
     | Uint | Uint8 | Uint16 | Uint32 | Uint64 | Uintptr), DInt _ => true
  | _, _ => false
  end.

Fixpoint has_type (d : data) (t : rtype) {struct d} : bool :=
  match d, underlying t with
  | DPtr None, PtrTo _ => true
  | DPtr (Some (_, x)), PtrTo e => has_type x e
  | DArray es, ArrayOf n e =>
      Nat.eqb (length es) n && forallb (fun x => has_type x e) es
  | DSlice es cap _, SliceOf e =>
      Nat.leb (length es) cap && forallb (fun x => has_type x e) es
  | DMap es _, MapOf k e =>
      forallb (fun kv => has_type (fst kv) k && has_type (snd kv) e) es
  | DStruct ds, StructOf fs =>
      (fix fields_have_type (ds : list data) (fs : list StructField)
           {struct ds} : bool :=
         match ds, fs with
         | [], [] => true
         | d :: ds', f :: fs' =>
             has_type d (Typ f) && fields_have_type ds' fs'
         | _, _ => false
         end) ds (fields_of fs)
  | _, Basic b => basic_has_type d b
  | _, _ => false
  end.

(** [all_maps P d t]: every map that a conversion of the data [d] of
    type [t] walks through satisfies [P], which is given the key type and
    the entries of the map. *)
Section maps_of_data.

Variable P : rtype -> list (data * data) -> bool.

Fixpoint all_maps (d : data) (t : rtype) {struct d} : bool :=
  match d, underlying t with
  | DSlice es _ _, SliceOf e => forallb (fun x => all_maps x e) es
  | DMap es _, MapOf k e =>
      P k es
      && forallb (fun kv => all_maps (fst kv) k && all_maps (snd kv) e) es
  | DStruct ds, StructOf fs =>
      (fix fields_all_maps (ds : list data) (fs : list StructField)
           {struct ds} : bool :=
         match ds, fs with
         | d :: ds', f :: fs' => all_maps d (Typ f) && fields_all_maps ds' fs'
         | _, _ => true
         end) ds (fields_of fs)
  | _, _ => true
  end.

End maps_of_data.

(** [keys_equal_themselves d t]: no map in [d] has a key that does not
    equal itself (a NaN); [keys_ok d t]: moreover the keys of each map
    are distinct. *)
Definition keys_equal_themselves (d : data) (t : rtype) : bool :=
  all_maps keys_found d t.

Definition keys_ok (d : data) (t : rtype) : bool :=
  all_maps (fun k es => keys_found k es && keys_distinct k es) d t.

(** The panics that [convertValue] raises on readable, well-shaped data
    [d] are the one of [FieldByName] and the one of [Type] on the zero
    [Value], and the second needs a key in a map of [d] that does not
    equal itself. *)
Definition panics_are_known (d : data) : Prop :=
  forall st addr T p,
    has_type d st = true ->
    convertValue (ValueOf st d (mkFlag false addr)) T = Panic p ->
    p = OnWrongKind "Value.FieldByName"
    \/ (p = OnZeroValue "Value.Type" /\ keys_equal_themselves d st = false).

(** The stores of an assignment, as (index, data) pairs in the order in
    which they are made, and the last one made at an index. *)
Definition apply_writes (ws : list (nat * data)) (ts : list data)
  : list data :=
  fold_left (fun t w => set_nth t (fst w) (snd w)) ws ts.

Fixpoint last_write (ws : list (nat * data)) (j : nat) : option data :=
  match ws with
  | [] => None
  | (i, x) :: rest =>
      match last_write rest j with
      | Some y => Some y
      | None => if Nat.eqb i j then Some x else None
      end
  end.

(** [names_ok t]: in every record type that a conversion of a value of
    type [t] walks through, an exported field has a name, and no earlier
    field of the record has the same one.  Go's rule that the field names
    of a struct type are distinct gives it. *)
Fixpoint names_ok (t : rtype) : bool :=
  match t with
  | Defined _ u => names_ok u
  | SliceOf e => names_ok e
  | MapOf k e => names_ok k && names_ok e
  | StructOf fs => fields_names_ok [] fs
  | _ => true
  end
with fields_names_ok (seen : list string) (fs : fieldlist) : bool :=
  match fs with
  | FNil => true
  | FCons n p t _ rest =>
      (if String.eqb p ""
       then negb (String.eqb n "") && negb (existsb (String.eqb n) seen)
            && names_ok t
       else true)
      && fields_names_ok (n :: seen) rest
  end.

(** [copy d t]: the data of type [t] that a conversion of [d] to its own
    type builds.  Slices and maps are rebuilt and are not nil, the
    exported fields of a record are copied and the others zeroed, and
    everything else (scalars, pointers, arrays) is taken as it is. *)
Fixpoint copy (d : data) (t : rtype) {struct d} : data :=
  match d, underlying t with
  | DSlice es cap _, SliceOf e =>
      DSlice (map (fun x => copy x e) es) cap false
  | DMap es _, MapOf k e =>
      DMap (map_inserts k []
              (map (fun kv => (copy (fst kv) k, copy (snd kv) e)) es))
           false
  | DStruct ds, StructOf fs =>
      DStruct
        ((fix copy_fields (ds : list data) (fs : list StructField)
              {struct ds} : list data :=
            match ds, fs with
            | d :: ds', f :: fs' =>
                (if IsExported f then copy d (Typ f) else Zero_data (Typ f))
                :: copy_fields ds' fs'
            | _, _ => []
            end) ds (fields_of fs))
  | _, _ => d
  end.

(** Well-shaped, readable data [d] whose maps have distinct keys that
    equal themselves convert to their own type, and the result is
    [copy d]. *)
Definition copies_to_own_type (d : data) : Prop :=
  forall st addr,
    has_type d st = true -> names_ok st = true -> keys_ok d st = true ->
    exists fl',
      convertValue (ValueOf st d (mkFlag false addr)) st
      = Ok (ValueOf st (copy d st) fl').

(** Converting readable, well-shaped data [d] gives well-shaped data. *)
Definition keeps_shape (d : data) : Prop :=
  forall st addr T v,
    has_type d st = true ->
    convertValue (ValueOf st d (mkFlag false addr)) T = Ok v ->
    has_type (Value_data v) T = true.

(** ** The earlier revision of the converter

    The repository's earlier revision of [converter.go] has the same
    dispatcher and the same reflection calls, and differs in what the
    loops do with a part that fails to convert: they pass over it
    ([continue]) where the later file returns the error.  Its functions
    are embedded under their own names in the module [best_effort]; the
    default branch of the dispatcher and the [if tagName != ""] statement
    of [ConvertStructs] read the same in both revisions and are shared. *)

Module best_effort.

Section strategies.

Variable convertValue : Value -> rtype -> result Value.

(** The loop of [convertStruct]: a field whose conversion returns an
    error is skipped. *)
Fixpoint convertStruct_loop (srcFlag : flag) (fs : list StructField)
    (ds : list data) (target : Value) {struct ds} : result Value :=
  match ds, fs with
  | d :: ds', f :: fs' =>
      let sourceField := fieldValue srcFlag f d in
      canInterface <- Value_CanInterface sourceField ;;
      if negb canInterface then convertStruct_loop srcFlag fs' ds' target
      else
        let targetFieldName := Name f in
        targetField <- Value_FieldByName target targetFieldName ;;
        if Value_IsValid (handle_value targetField)
           && Value_CanSet (handle_value targetField)
        then
          targetFieldType <- Value_Type (handle_value targetField) ;;
          match convertValue sourceField targetFieldType with
          | Ok convertedValue =>
              target' <- Value_Set target targetField convertedValue ;;
              convertStruct_loop srcFlag fs' ds' target'
          | Err _ => convertStruct_loop srcFlag fs' ds' target
          | Panic p => Panic p
          end
        else convertStruct_loop srcFlag fs' ds' target
  | _, _ => Ok target
  end.

Definition convertStructWith (source : Value) (targetType : rtype)
  : result Value :=
  target <- Value_Elem (New targetType) ;;
  _ <- Value_NumField source ;;
  match source with
  | ValueOf st (DStruct ds) fl =>
      convertStruct_loop fl (Type_Fields st) ds target
  | _ => Ok target
  end.

(** The loop of [convertSlice]: an element whose conversion returns an
    error keeps the zero value that [MakeSlice] put there. *)
Fixpoint convertSlice_loop (elemType srcElemType : rtype) (srcElemFlag : flag)
    (es : list data) (i : nat) (targetSlice : Value) {struct es}
  : result Value :=
  match es with
  | [] => Ok targetSlice
  | e :: es' =>
      let sourceElem := ValueOf srcElemType e srcElemFlag in
      match convertValue sourceElem elemType with
      | Ok convertedValue =>
          slot <- Value_Index targetSlice i ;;
          targetSlice' <- Value_Set targetSlice slot convertedValue ;;
          convertSlice_loop elemType srcElemType srcElemFlag es' (S i)
                            targetSlice'
      | Err _ =>
          convertSlice_loop elemType srcElemType srcElemFlag es' (S i)
                            targetSlice
      | Panic p => Panic p
      end
  end.

Definition convertSliceWith (source : Value) (targetType : rtype)
  : result Value :=
  if negb (Kind_eqb (Type_Kind targetType) Slice)
  then Err "target type is not a slice"
  else
    elemType <- Type_Elem targetType ;;
    len <- Value_Len source ;;
    cap <- Value_Cap source ;;
    targetSlice <- MakeSlice targetType len cap ;;
    match source with
    | ValueOf st (DSlice es _ _) fl =>
        srcElemType <- Type_Elem st ;;
        convertSlice_loop elemType srcElemType (elem_flag Slice fl) es 0
                          targetSlice
    | ValueOf st (DArray es) fl =>
        srcElemType <- Type_Elem st ;;
        convertSlice_loop elemType srcElemType (elem_flag Array fl) es 0
                          targetSlice
    | _ =>
        if Nat.eqb len 0 then Ok targetSlice
        else Panic (OnWrongKind "Value.Index")
    end.

(** The loop of [convertMap]: the key and what [MapIndex] gives for it
    are both converted, and the entry is set when neither conversion
    returned an error; [all] are the entries of the source. *)
Fixpoint convertMap_loop (targetType srcKeyType srcElemType : rtype)
    (srcFlag : flag) (all es : list (data * data)) (targetMap : Value)
    {struct es} : result Value :=
  match es with
  | [] => Ok targetMap
  | (k, _) :: es' =>
      let key := ValueOf srcKeyType k (mkFlag (flagRO srcFlag) false) in
      keyType <- Type_Key targetType ;;
      match convertValue key keyType with
      | Panic p => Panic p
      | convertedKey =>
          elemType <- Type_Elem targetType ;;
          match convertMapIndex convertValue srcKeyType srcElemType srcFlag
                                k elemType all with
          | Panic p => Panic p
          | convertedValue =>
              match convertedKey, convertedValue with
              | Ok ck, Ok cv =>
                  targetMap' <- Value_SetMapIndex targetMap ck cv ;;
                  convertMap_loop targetType srcKeyType srcElemType srcFlag
                                  all es' targetMap'
              | _, _ =>
                  convertMap_loop targetType srcKeyType srcElemType srcFlag
                                  all es' targetMap
              end
          end
      end
  end.

Definition convertMapWith (source : Value) (targetType : rtype)
  : result Value :=
  if negb (Kind_eqb (Type_Kind targetType) Map)
  then Err "target type is not a map"
  else
    len <- Value_Len source ;;
    targetMap <- MakeMapWithSize targetType len ;;
    match source with
    | ValueOf st (DMap es _) fl =>
        if Kind_eqb (Type_Kind st) Map then
          srcKeyType <- Type_Key st ;;
          srcElemType <- Type_Elem st ;;
          convertMap_loop targetType srcKeyType srcElemType fl es es
                          targetMap
        else Panic (OnWrongKind "Value.MapKeys")
    | _ => Panic (OnWrongKind "Value.MapKeys")
    end.

End strategies.

Fixpoint convertData (d : data) (st : rtype) (fl : flag) (targetType : rtype)
    {struct d} : result Value :=
  let source := ValueOf st d fl in
  let convertValue := fun (v : Value) (T : rtype) =>
    match v with
    | ValueOf st' d' fl' => convertData d' st' fl' T
    | ZeroValue => convertDefault ZeroValue T
    end in
  match Value_Kind source with
  | Struct => convertStructWith convertValue source targetType
  | Slice => convertSliceWith convertValue source targetType
  | Map => convertMapWith convertValue source targetType
  | _ => convertDefault source targetType
  end.

Definition convertValue (source : Value) (targetType : rtype)
  : result Value :=
  match source with
  | ValueOf st d fl => convertData d st fl targetType
  | ZeroValue => convertDefault ZeroValue targetType
  end.

Definition convertStruct : Value -> rtype -> result Value :=
  convertStructWith convertValue.

Definition convertSlice : Value -> rtype -> result Value :=
  convertSliceWith convertValue.

Definition convertMap : Value -> rtype -> result Value :=
  convertMapWith convertValue.

(** One iteration of the loop of [ConvertStructs]; a field whose
    conversion returns an error leaves the target as it is. *)
Definition ConvertStructs_field (tagName : string)
    (sourceTypeField : StructField) (sourceField : Value) (targetVal : Value)
  : result Value :=
  let tagValue := Tag_Get (Tag sourceTypeField) tagName in
  canInterface <- Value_CanInterface sourceField ;;
  if negb canInterface || String.eqb tagValue "" then Ok targetVal
  else
    resolved <- resolveTargetField tagName sourceTypeField targetVal ;;
    match resolved with
    | None => Ok targetVal
    | Some targetField =>
        if negb (Value_IsValid (handle_value targetField))
           || negb (Value_CanSet (handle_value targetField))
        then Ok targetVal
        else
          targetFieldType <- Value_Type (handle_value targetField) ;;
          match convertValue sourceField targetFieldType with
          | Ok convertedValue =>
              Value_Set targetVal targetField convertedValue
          | Err _ => Ok targetVal
          | Panic p => Panic p
          end
    end.

Fixpoint ConvertStructs_loop (tagName : string) (fs : list StructField)
    (ds : list data) (targetVal : Value) {struct ds}
  : Value * result unit :=
  match ds, fs with
  | d :: ds', sourceTypeField :: fs' =>
      let sourceField := fieldValue flag0 sourceTypeField d in
      match ConvertStructs_field tagName sourceTypeField sourceField
                                 targetVal with
      | Ok targetVal' => ConvertStructs_loop tagName fs' ds' targetVal'
      | Err msg => (targetVal, Err msg)
      | Panic p => (targetVal, Panic p)
      end
  | _, _ => (targetVal, Ok tt)
  end.

Definition ConvertStructs (Source Target : rtype) (source target : data)
    (tagName : string) : Value * result unit :=
  let sourceVal := ValueOf Source source flag0 in
  let targetVal := ValueOf Target target flagAddressable in
  if negb (Kind_eqb (Value_Kind sourceVal) Struct)
     || negb (Kind_eqb (Value_Kind targetVal) Struct)
  then (targetVal, Err "source or target is not a struct")
  else ConvertStructs_loop tagName (Type_Fields Source) (struct_data source)
                           targetVal.

End best_effort.

(** [conv2] returns what [conv1] returns on the data [d], whenever
    [conv1] returns a value. *)
Definition agrees_on (conv1 conv2 : Value -> rtype -> result Value)
    (d : data) : Prop :=
  forall st fl T v,
    conv1 (ValueOf st d fl) T = Ok v -> conv2 (ValueOf st d fl) T = Ok v.

(** ** Values used in the examples *)

Module examples.
Import reflect.

Definition tInt : rtype := Basic Int.
Definition tInt32 : rtype := Basic Int32.
Definition tInt64 : rtype := Basic Int64.
Definition tString : rtype := Basic String.

(** [type Source struct { A int `custom_tag:"X"`; B string }] *)
Definition Source : rtype :=
  Defined "Source"
    (StructOf (FCons "A" "" tInt [("custom_tag", "X")]
              (FCons "B" "" tString [] FNil))).

(** [type Target struct { X int; B string }] *)
Definition Target : rtype :=
  Defined "Target"
    (StructOf (FCons "X" "" tInt [] (FCons "B" "" tString [] FNil))).

(** [type Plain struct { A int; B string }] and a second type of the same
    shape. *)
Definition Plain : rtype :=
  Defined "Plain"
    (StructOf (FCons "A" "" tInt [] (FCons "B" "" tString [] FNil))).

Definition Twin : rtype :=
  Defined "Twin"
    (StructOf (FCons "A" "" tInt [] (FCons "B" "" tString [] FNil))).

(** [{42, "example"}] *)
Definition populated : data := DStruct [DInt 42; DString "example"].

(** [type Hidden struct { a int }] *)
Definition Hidden : rtype :=
  Defined "Hidden" (StructOf (FCons "a" "main" tInt [] FNil)).

(** [type Outer struct { In Plain `t:"In"` }] and
    [type Flat struct { In int }] *)
Definition Outer : rtype :=
  Defined "Outer" (StructOf (FCons "In" "" Plain [("t", "In")] FNil)).

Definition Flat : rtype :=
  Defined "Flat" (StructOf (FCons "In" "" tInt [] FNil)).

(** [[]int{1, 2, 3}] with capacity 4. *)
Definition ints : Value :=
  ValueOf (SliceOf tInt) (DSlice [DInt 1; DInt 2; DInt 3] 4 false) flag0.

Definition five : Value := ValueOf tInt (DInt 5) flag0.


Definition seven32 : Value := ValueOf tInt32 (DInt 7) flag0.


(** [type Ints []int] *)
Definition Ints : rtype := Defined "Ints" (SliceOf tInt).

(** [[][]int{{}, {1}}] *)
Definition nested : Value :=
  ValueOf (SliceOf (SliceOf tInt))
          (DSlice [DSlice [] 0 false; DSlice [DInt 1] 1 false] 2 false) flag0.




(** [map[string]int{"a": 1}] *)
Definition ages : Value :=
  ValueOf (MapOf tString tInt) (DMap [(DString "a", DInt 1)] false) flag0.

(** [type Pair struct { A int; B int }] and
    [type Mixed struct { A int; B string }] *)
Definition Pair : rtype :=
  Defined "Pair" (StructOf (FCons "A" "" tInt [] (FCons "B" "" tInt [] FNil))).

Definition Mixed : rtype :=
  Defined "Mixed"
    (StructOf (FCons "A" "" tInt [] (FCons "B" "" tString [] FNil))).

(** [type Tagged struct { A int `t:"A"`; B int `t:"B"`; C int `t:"C"` }]
    and [type Wanted struct { A int; B string; C int }] *)
Definition Tagged : rtype :=
  Defined "Tagged"
    (StructOf (FCons "A" "" tInt [("t", "A")]
              (FCons "B" "" tInt [("t", "B")]
              (FCons "C" "" tInt [("t", "C")] FNil)))).

Definition Wanted : rtype :=
  Defined "Wanted"
    (StructOf (FCons "A" "" tInt []
              (FCons "B" "" tString []
              (FCons "C" "" tInt [] FNil)))).

End examples.

(** ** Properties *)

Import struct_converter.

(** *** Facts about the reflection layer *)

Lemma rtype_eqb_refl (t : rtype) : rtype_eqb t t = true.
Proof. unfold rtype_eqb. destruct (rtype_eq_dec t t); congruence. Qed.

Lemma rtype_eqb_eq (a b : rtype) : rtype_eqb a b = true <-> a = b.
Proof.
  unfold rtype_eqb. destruct (rtype_eq_dec a b); split; congruence.
Qed.

Lemma Kind_eqb_eq (a b : Kind) : Kind_eqb a b = true <-> a = b.
Proof.
  unfold Kind_eqb. destruct (Kind_eq_dec a b); split; congruence.
Qed.

Lemma Kind_eqb_neq (a b : Kind) : Kind_eqb a b = false <-> a <> b.
Proof.
  unfold Kind_eqb. destruct (Kind_eq_dec a b); split; congruence.
Qed.

Lemma Type_AssignableTo_refl (t : rtype) : Type_AssignableTo t t = true.
Proof.
  unfold Type_AssignableTo, directlyAssignable. now rewrite rtype_eqb_refl.
Qed.


(** [Tag.Get] with the empty key finds nothing, whatever the tag. *)
Lemma Tag_Lookup_empty_key (tag : StructTag) : Tag_Lookup tag "" = None.
Proof.
  induction tag as [|[name value] rest IH]; simpl; auto.
  destruct name; simpl; auto.
Qed.

Lemma Tag_Get_empty_key (tag : StructTag) : Tag_Get tag "" = "".
Proof. unfold Tag_Get. now rewrite Tag_Lookup_empty_key. Qed.

(** *** The dispatcher equation

    [convertValue] satisfies the equation its Go text reads as. *)
Lemma convertValue_unfold (source : Value) (targetType : rtype) :
  convertValue source targetType =
  match Value_Kind source with
  | Struct => convertStruct source targetType
  | Slice => convertSlice source targetType
  | Map => convertMap source targetType
  | _ => convertDefault source targetType
  end.
Proof.
  destruct source as [|st d fl]; [reflexivity|].
  destruct d; reflexivity.
Qed.

#[local] Arguments convertValue : simpl never.
#[local] Arguments convertMapIndex : simpl never.

(** *** The entry point and field tags *)

Lemma Value_CanInterface_fieldValue (fl : flag) (f : StructField) (d : data) :
  Value_CanInterface (fieldValue fl f d)
  = Ok (negb (flagRO fl) && IsExported f).
Proof.
  unfold fieldValue, field_flag. simpl.
  now rewrite negb_orb, negb_involutive.
Qed.

(** A source field without a value under [tagName] is passed over: line 99
    of [converter.go] continues before any target field is looked up. *)
Lemma ConvertStructs_field_untagged (tagName : string) (f : StructField)
    (fl : flag) (d : data) (targetVal : Value) :
  Tag_Get (Tag f) tagName = "" ->
  ConvertStructs_field tagName f (fieldValue fl f d) targetVal = Ok targetVal.
Proof.
  intros Hget. unfold ConvertStructs_field.
  rewrite Value_CanInterface_fieldValue, Hget. simpl.
  now rewrite orb_true_r.
Qed.

Lemma ConvertStructs_loop_untagged (tagName : string) (fs : list StructField) :
  Forall (fun f => Tag_Get (Tag f) tagName = "") fs ->
  forall (ds : list data) (targetVal : Value),
    ConvertStructs_loop tagName fs ds targetVal = (targetVal, Ok tt).
Proof.
  induction 1 as [|f fs Hf _ IH]; intros ds targetVal.
  - destruct ds; reflexivity.
  - destruct ds as [|d ds]; [reflexivity|]. simpl.
    rewrite ConvertStructs_field_untagged by assumption. apply IH.
Qed.

(** C1.  With the empty [tagName] the call assigns nothing: for every source
    and target it returns with the target exactly as it was handed in, nil
    when both are structs.  No source field is matched by name. *)
Theorem ConvertStructs_empty_tagName_assigns_nothing
    (Source Target : rtype) (source target : data) :
  ConvertStructs Source Target source target ""
  = (ValueOf Target target flagAddressable,
     if negb (Kind_eqb (Type_Kind Source) Struct)
        || negb (Kind_eqb (Type_Kind Target) Struct)
     then Err "source or target is not a struct"
     else Ok tt).
Proof.
  unfold ConvertStructs. simpl.
  destruct (negb (Kind_eqb (Type_Kind Source) Struct)
            || negb (Kind_eqb (Type_Kind Target) Struct)); [reflexivity|].
  apply ConvertStructs_loop_untagged.
  apply Forall_forall. intros f _. apply Tag_Get_empty_key.
Qed.

(** The call of the package documentation, on two types that share the
    field names: the populated source leaves the zero target untouched. *)
Example ConvertStructs_empty_tagName_example :
  ConvertStructs examples.Plain examples.Twin examples.populated
                 (Zero_data examples.Twin) ""
  = (ValueOf examples.Twin (DStruct [DInt 0; DString ""]) flagAddressable,
     Ok tt).
Proof. reflexivity. Qed.

(** C2.  Two record types of identical shape, a populated source, names
    only: the call succeeds, and the target still holds its zero fields, not
    the fields of the source. *)
Theorem ConvertStructs_identical_shape_not_copied :
  Type_Fields examples.Plain = Type_Fields examples.Twin
  /\ ConvertStructs examples.Plain examples.Twin examples.populated
                    (Zero_data examples.Twin) ""
     = (ValueOf examples.Twin (DStruct [DInt 0; DString ""]) flagAddressable,
        Ok tt)
  /\ DStruct [DInt 0; DString ""] <> examples.populated.
Proof.
  split; [reflexivity|]. split; [reflexivity|]. discriminate.
Qed.

(** C3.  With [tagName = "custom_tag"], field [A] (tagged [X]) reaches
    target field [X], while field [B], which carries no such tag and has a
    settable namesake in the target, is not assigned. *)
Theorem ConvertStructs_untagged_field_not_matched_by_name :
  Tag_Get [] "custom_tag" = ""
  /\ Type_FieldByName examples.Target "B" = Some 1
  /\ ConvertStructs examples.Source examples.Target examples.populated
                    (Zero_data examples.Target) "custom_tag"
     = (ValueOf examples.Target (DStruct [DInt 42; DString ""])
                flagAddressable,
        Ok tt).
Proof. repeat split. Qed.

(** *** Absent sources *)


Lemma convertMapIndex_nil
    (conv : Value -> rtype -> result Value) sk se fl k elemType :
  convertMapIndex conv sk se fl k elemType [] = conv ZeroValue elemType.
Proof. reflexivity. Qed.

Lemma convertMapIndex_cons
    (conv : Value -> rtype -> result Value) sk se fl k elemType k' v' rest :
  convertMapIndex conv sk se fl k elemType ((k', v') :: rest)
  = if key_equal sk k' k
    then conv (ValueOf se v' (mkFlag (flagRO fl) false)) elemType
    else convertMapIndex conv sk se fl k elemType rest.
Proof. reflexivity. Qed.

(** [MapIndex] neither fails nor panics on a key that [MapKeys] gave. *)
Lemma Value_MapIndex_of_key (st sk se : rtype) (fl : flag)
    (all : list (data * data)) (isnil : bool) (k : data) :
  Type_Kind st = Map -> Type_Key st = Ok sk -> Type_Elem st = Ok se ->
  Value_MapIndex (ValueOf st (DMap all isnil) fl)
                 (ValueOf sk k (mkFlag (flagRO fl) false))
  = Ok (match map_find sk all k with
        | Some x => ValueOf se x (mkFlag (flagRO fl) false)
        | None => ZeroValue
        end).
Proof.
  intros HK Hsk Hse. unfold Value_MapIndex.
  rewrite (proj2 (Kind_eqb_eq _ _) HK), Hsk, Hse, Type_AssignableTo_refl.
  simpl. rewrite orb_diag. now destruct (map_find sk all k).
Qed.

(** [convertMapIndex] is the call [convertValue(source.MapIndex(key),
    elemType)] of [convertMap], for a key as [MapKeys] gives it. *)
Lemma convertMapIndex_MapIndex
    (conv : Value -> rtype -> result Value) (st sk se : rtype) (fl : flag)
    (all : list (data * data)) (isnil : bool) (k : data) (elemType : rtype) :
  Type_Kind st = Map -> Type_Key st = Ok sk -> Type_Elem st = Ok se ->
  convertMapIndex conv sk se fl k elemType all
  = (sourceValue <-
       Value_MapIndex (ValueOf st (DMap all isnil) fl)
                      (ValueOf sk k (mkFlag (flagRO fl) false)) ;;
     conv sourceValue elemType).
Proof.
  intros HK Hsk Hse. unfold Value_MapIndex.
  rewrite (proj2 (Kind_eqb_eq _ _) HK), Hsk, Hse, Type_AssignableTo_refl.
  simpl. rewrite orb_diag.
  induction all as [|[k' v'] rest IH]; [reflexivity|].
  rewrite convertMapIndex_cons. cbn [map_find].
  destruct (key_equal sk k' k); [reflexivity|exact IH].
Qed.

Lemma convertMap_loop_app conv T sk se sfl all pre :
  forall post target,
    convertMap_loop conv T sk se sfl all (pre ++ post) target
    = (target1 <- convertMap_loop conv T sk se sfl all pre target ;;
       convertMap_loop conv T sk se sfl all post target1).
Proof.
  induction pre as [|[k v] pre IH]; intros post target; simpl; [reflexivity|].
  destruct (Type_Key T); try reflexivity.
  destruct (conv _ a); try reflexivity.
  destruct (Type_Elem T); try reflexivity.
  destruct (convertMapIndex conv sk se sfl k a1 all); try reflexivity.
  destruct (Value_SetMapIndex target a0 a2); try reflexivity.
  apply IH.
Qed.



(** *** Record sources against targets that are not records *)

Lemma Value_FieldByName_not_struct (v : Value) (name : string) :
  Value_Kind v <> Struct ->
  Value_FieldByName v name
  = Panic (OnWrongKind "Value.FieldByName").
Proof.
  intros H. unfold Value_FieldByName.
  destruct (Value_Kind v), v; try reflexivity; congruence.
Qed.

Lemma convertStruct_loop_not_struct
    (conv : Value -> rtype -> result Value) (fl : flag) (target : Value) :
  Value_Kind target <> Struct ->
  forall (ds : list data) (fs : list StructField),
    convertStruct_loop conv fl fs ds target = Ok target
    \/ convertStruct_loop conv fl fs ds target
       = Panic (OnWrongKind "Value.FieldByName").
Proof.
  intros Hk. induction ds as [|d ds IH]; intros fs; [now left|].
  destruct fs as [|f fs]; [now left|]. simpl.
  destruct (negb (negb (flagRO fl || negb (IsExported f)))); [apply IH|].
  rewrite Value_FieldByName_not_struct by assumption. now right.
Qed.

(** For a record source and a target type of any other kind,
    [convertValue] never returns an error: it either panics in
    [FieldByName] or succeeds with the zero value of the target type. *)
Lemma convertValue_struct_to_non_struct (source : Value) (targetType : rtype) :
  Value_Kind source = Struct ->
  Type_Kind targetType <> Struct ->
  convertValue source targetType
  = Ok (ValueOf targetType (Zero_data targetType) flagAddressable)
  \/ convertValue source targetType
     = Panic (OnWrongKind "Value.FieldByName").
Proof.
  intros Hs Ht. rewrite convertValue_unfold, Hs.
  unfold convertStruct, convertStructWith. simpl.
  unfold Value_NumField. rewrite Hs.
  destruct source as [|st d fl]; [discriminate|].
  destruct d; try now left.
  apply convertStruct_loop_not_struct. exact Ht.
Qed.

(** C9.  A record with an exported field converted to [int] panics, also
    when it is met as a field by [ConvertStructs]; a record without exported
    fields converted to [int] succeeds with [0].  None of them returns an
    error. *)
Theorem convertValue_struct_to_scalar_no_error :
  Type_AssignableTo examples.Plain examples.tInt = false
  /\ convertValue (ValueOf examples.Plain examples.populated flag0)
                  examples.tInt
     = Panic (OnWrongKind "Value.FieldByName")
  /\ ConvertStructs examples.Outer examples.Flat
                    (DStruct [examples.populated])
                    (Zero_data examples.Flat) "t"
     = (ValueOf examples.Flat (DStruct [DInt 0]) flagAddressable,
        Panic (OnWrongKind "Value.FieldByName"))
  /\ convertValue (ValueOf examples.Hidden (DStruct [DInt 1]) flag0)
                  examples.tInt
     = Ok (ValueOf examples.tInt (DInt 0) flagAddressable).
Proof. repeat split. Qed.

(** *** Induction on data, through the containers *)

Lemma data_nested_ind (P : data -> Prop) :
  (forall b, P (DBool b)) ->
  (forall z, P (DInt z)) ->
  (forall bits, P (DFloat bits)) ->
  (forall re im, P (DComplex re im)) ->
  (forall s, P (DString s)) ->
  (forall p, (forall a d, p = Some (a, d) -> P d) -> P (DPtr p)) ->
  (forall es, Forall P es -> P (DArray es)) ->
  (forall es cap isnil, Forall P es -> P (DSlice es cap isnil)) ->
  (forall es isnil,
      Forall (fun kv => P (fst kv) /\ P (snd kv)) es -> P (DMap es isnil)) ->
  (forall ds, Forall P ds -> P (DStruct ds)) ->
  forall d, P d.
Proof.
  intros HB HI HF HC HS HP HA HSl HM HSt.
  fix IH 1. intros d. destruct d as [b|z|bits|re im|s|p|es|es cap isnil|es isnil|ds].
  - apply HB.
  - apply HI.
  - apply HF.
  - apply HC.
  - apply HS.
  - apply HP. intros a d Hd. destruct p as [[a' d']|]; [|discriminate].
    injection Hd as _ <-. apply IH.
  - apply HA. induction es as [|e es IHes]; constructor; [apply IH|exact IHes].
  - apply HSl. induction es as [|e es IHes]; constructor; [apply IH|exact IHes].
  - apply HM. induction es as [|[k v] es IHes]; constructor;
      [split; apply IH|exact IHes].
  - apply HSt. induction ds as [|e es IHes]; constructor; [apply IH|exact IHes].
Qed.

(** *** Results fit the target type *)

Create HintDb no_mismatch.

Ltac break_match :=
  match goal with
  | |- context [match ?x with _ => _ end] => destruct x eqn:?; cbv beta iota
  end.

(** A panic passed on from a call that is known not to reject a type. *)
Ltac passed_on :=
  match goal with
  | E : ?e = Panic ?p |- type_mismatch (Panic ?p) = false =>
      let H := fresh in
      assert (H : type_mismatch e = false) by auto with no_mismatch;
      rewrite E in H; exact H
  end.

Lemma Type_Elem_no_mismatch t : type_mismatch (Type_Elem t) = false.
Proof. unfold Type_Elem. now repeat break_match. Qed.

Lemma Type_Key_no_mismatch t : type_mismatch (Type_Key t) = false.
Proof. unfold Type_Key. now repeat break_match. Qed.

Lemma Value_Type_no_mismatch v : type_mismatch (Value_Type v) = false.
Proof. now destruct v. Qed.

Lemma Value_CanInterface_no_mismatch v : type_mismatch (Value_CanInterface v) = false.
Proof. now destruct v. Qed.

Lemma Value_Elem_no_mismatch v : type_mismatch (Value_Elem v) = false.
Proof. unfold Value_Elem. now repeat break_match. Qed.

Lemma Value_NumField_no_mismatch v : type_mismatch (Value_NumField v) = false.
Proof. unfold Value_NumField. now repeat break_match. Qed.

Lemma Value_Field_no_mismatch v i : type_mismatch (Value_Field v i) = false.
Proof. unfold Value_Field. now repeat break_match. Qed.

#[local] Hint Resolve Type_Elem_no_mismatch Type_Key_no_mismatch
  Value_Type_no_mismatch Value_CanInterface_no_mismatch Value_Elem_no_mismatch
  Value_NumField_no_mismatch Value_Field_no_mismatch : no_mismatch.

Lemma Value_FieldByName_no_mismatch v name :
  type_mismatch (Value_FieldByName v name) = false.
Proof.
  unfold Value_FieldByName. repeat break_match; try reflexivity; passed_on.
Qed.

Lemma Value_Index_no_mismatch v i : type_mismatch (Value_Index v i) = false.
Proof.
  unfold Value_Index. repeat break_match; try reflexivity; passed_on.
Qed.

Lemma Value_Len_no_mismatch v : type_mismatch (Value_Len v) = false.
Proof. unfold Value_Len. now repeat break_match. Qed.

Lemma Value_Cap_no_mismatch v : type_mismatch (Value_Cap v) = false.
Proof. unfold Value_Cap. now repeat break_match. Qed.

Lemma MakeSlice_no_mismatch t len cap : type_mismatch (MakeSlice t len cap) = false.
Proof.
  unfold MakeSlice. repeat break_match; try reflexivity; passed_on.
Qed.

Lemma MakeMapWithSize_no_mismatch t n : type_mismatch (MakeMapWithSize t n) = false.
Proof. unfold MakeMapWithSize. now repeat break_match. Qed.

#[local] Hint Resolve Value_FieldByName_no_mismatch Value_Index_no_mismatch
  Value_Len_no_mismatch Value_Cap_no_mismatch MakeSlice_no_mismatch
  MakeMapWithSize_no_mismatch : no_mismatch.

(** Writing through a handle keeps the type and the flags of the container. *)
Lemma store_Type c i x : Value_Type (store c i x) = Value_Type c.
Proof. destruct c as [|t d fl]; [reflexivity|]. now destruct d. Qed.

Lemma store_flagRO c i x : Value_flagRO (store c i x) = Value_flagRO c.
Proof. destruct c as [|t d fl]; [reflexivity|]. now destruct d. Qed.

Lemma Value_Set_Ok c h x c' :
  Value_Set c h x = Ok c' -> c' = store c (handle_index h) (Value_data x).
Proof.
  unfold Value_Set. repeat break_match; try discriminate.
  now intros [= <-].
Qed.

(** [Set] accepts every value that fits the type of the slot. *)
Lemma Value_Set_fits c h x T :
  Value_Type (handle_value h) = Ok T ->
  fits x T = true ->
  type_mismatch (Value_Set c h x) = false.
Proof.
  unfold Value_Set, fits. intros HT Hfit.
  destruct (handle_value h) as [|T' hd hfl]; [discriminate|].
  injection HT as ->.
  destruct x as [|V xd xfl]; [discriminate|]. rewrite Hfit.
  now repeat break_match.
Qed.

Lemma Value_SetMapIndex_Ok m k e m' :
  Value_SetMapIndex m k e = Ok m' ->
  Value_Type m' = Value_Type m /\ Value_flagRO m' = Value_flagRO m.
Proof.
  unfold Value_SetMapIndex. repeat break_match; try discriminate.
  all: intros [= <-]; simpl; auto.
Qed.

Lemma Value_SetMapIndex_fits m k e T kt et :
  Value_Type m = Ok T -> Type_Key T = Ok kt -> Type_Elem T = Ok et ->
  fits k kt = true -> fits e et = true ->
  type_mismatch (Value_SetMapIndex m k e) = false.
Proof.
  unfold Value_SetMapIndex, fits. intros HT Hk He Hfk Hfe.
  destruct m as [|t d fl]; [discriminate|]. injection HT as ->.
  destruct d; try reflexivity.
  destruct k as [|K kd kfl]; [discriminate|].
  destruct e as [|E ed efl]; [discriminate|].
  rewrite Hk, He, Hfk, Hfe. simpl. now repeat break_match.
Qed.

Lemma convertStruct_loop_typed conv fl ds :
  Forall (well_typed_on conv) ds ->
  forall fs target,
    (forall v, convertStruct_loop conv fl fs ds target = Ok v ->
               Value_Type v = Value_Type target
               /\ Value_flagRO v = Value_flagRO target)
    /\ type_mismatch (convertStruct_loop conv fl fs ds target) = false.
Proof.
  induction 1 as [|d ds Hd _ IH]; intros fs target.
  - simpl. destruct fs; split; try reflexivity; now intros v [= <-].
  - destruct fs as [|f fs]; [split; try reflexivity; now intros v [= <-]|].
    simpl.
    destruct (negb (negb (flagRO fl || negb (IsExported f)))); [apply IH|].
    destruct (Value_FieldByName target (Name f)) as [h|msg|p] eqn:Eh;
      [|split; [discriminate|reflexivity] |split; [discriminate|passed_on]].
    destruct (Value_IsValid (handle_value h) && Value_CanSet (handle_value h));
      [|apply IH].
    destruct (Value_Type (handle_value h)) as [T'|msg|p] eqn:ET;
      [|split; [discriminate|reflexivity] |split; [discriminate|passed_on]].
    destruct (Hd (Typ f) (field_flag fl f) T') as [Hok Hmis].
    unfold fieldValue.
    destruct (conv (ValueOf (Typ f) d (field_flag fl f)) T') as [cv|msg|p];
      [|split; [discriminate|reflexivity] |split; [discriminate|exact Hmis]].
    destruct (Hok cv eq_refl) as [Hfit _].
    destruct (Value_Set target h cv) as [target'|msg|p] eqn:ES.
    + apply Value_Set_Ok in ES. subst target'.
      destruct (IH fs (store target (handle_index h) (Value_data cv)))
        as [IH1 IH2].
      split; [|exact IH2]. intros v Hv. destruct (IH1 v Hv) as [H1 H2].
      now rewrite H1, H2, store_Type, store_flagRO.
    + split; [discriminate|reflexivity].
    + split; [discriminate|].
      pose proof (@Value_Set_fits target h cv T' ET Hfit) as H.
      now rewrite ES in H.
Qed.

Lemma convertStructWith_typed conv source T :
  (forall ds, Value_data source = DStruct ds -> Forall (well_typed_on conv) ds) ->
  (forall v, convertStructWith conv source T = Ok v ->
             Value_Type v = Ok T /\ Value_flagRO v = false)
  /\ type_mismatch (convertStructWith conv source T) = false.
Proof.
  intros Hds. unfold convertStructWith. simpl.
  destruct (Value_NumField source) as [n|msg|p] eqn:EN;
    [|split; [discriminate|reflexivity] |split; [discriminate|passed_on]].
  destruct source as [|st d fl];
    [split; [now intros v [= <-]|reflexivity]|].
  destruct d; try (split; [now intros v [= <-]|reflexivity]).
  destruct (@convertStruct_loop_typed conv fl _ (Hds _ eq_refl) (Type_Fields st)
              (ValueOf T (Zero_data T) (mkFlag false true))) as [H1 H2].
  split; [|exact H2]. intros v Hv. apply H1 in Hv. exact Hv.
Qed.

Lemma Value_Index_Type v i h :
  Value_Index v i = Ok h ->
  exists T e, Value_Type v = Ok T /\ Type_Elem T = Ok e
              /\ Value_Type (handle_value h) = Ok e.
Proof.
  unfold Value_Index. destruct v as [|t d fl]; [discriminate|].
  destruct (Type_Kind t); try discriminate;
    (destruct (Type_Elem t) as [e|msg|p] eqn:Ee; try discriminate;
     destruct (nth_error (seq_data d) i); try discriminate;
     intros [= <-]; exists t, e; simpl; auto).
Qed.

Lemma convertSlice_loop_typed conv te se sfl T es :
  Forall (well_typed_on conv) es ->
  Type_Elem T = Ok te ->
  forall i target,
    Value_Type target = Ok T ->
    (forall v, convertSlice_loop conv te se sfl es i target = Ok v ->
               Value_Type v = Ok T
               /\ Value_flagRO v = Value_flagRO target)
    /\ type_mismatch (convertSlice_loop conv te se sfl es i target) = false.
Proof.
  intros Hes HT. induction Hes as [|e es He _ IH]; intros i target Htgt.
  - simpl. split; [|reflexivity]. now intros v [= <-].
  - simpl. destruct (He se sfl te) as [Hok Hmis].
    destruct (conv (ValueOf se e sfl) te) as [cv|msg|p];
      [|split; [discriminate|reflexivity] |split; [discriminate|exact Hmis]].
    destruct (Hok cv eq_refl) as [Hfit _].
    destruct (Value_Index target i) as [slot|msg|p] eqn:Ei;
      [|split; [discriminate|reflexivity] |split; [discriminate|passed_on]].
    destruct (Value_Index_Type _ _ Ei) as (T' & e' & HT' & He' & Hslot).
    rewrite Htgt in HT'. injection HT' as <-.
    rewrite HT in He'. injection He' as <-.
    destruct (Value_Set target slot cv) as [target'|msg|p] eqn:ES.
    + apply Value_Set_Ok in ES. subst target'.
      destruct (IH (S i) (store target (handle_index slot) (Value_data cv)))
        as [IH1 IH2]; [now rewrite store_Type|].
      split; [|exact IH2]. intros v Hv. destruct (IH1 v Hv) as [H1 H2].
      now rewrite H1, H2, store_flagRO.
    + split; [discriminate|reflexivity].
    + split; [discriminate|].
      pose proof (@Value_Set_fits target slot cv te Hslot Hfit) as H.
      now rewrite ES in H.
Qed.

Lemma MakeSlice_Ok t len cap v :
  MakeSlice t len cap = Ok v ->
  exists e, Type_Elem t = Ok e
            /\ v = ValueOf t (DSlice (repeat (Zero_data e) len) cap false) flag0.
Proof.
  unfold MakeSlice.
  destruct (negb (Kind_eqb (Type_Kind t) Slice)); [discriminate|].
  destruct (Nat.ltb cap len); [discriminate|].
  destruct (Type_Elem t) as [e|msg|p]; try discriminate.
  intros [= <-]. now exists e.
Qed.

Lemma convertSliceWith_typed conv source T :
  (forall d, In d (seq_data (Value_data source)) -> well_typed_on conv d) ->
  (forall v, convertSliceWith conv source T = Ok v ->
             Value_Type v = Ok T /\ Value_flagRO v = false)
  /\ type_mismatch (convertSliceWith conv source T) = false.
Proof.
  intros Hes. unfold convertSliceWith.
  destruct (negb (Kind_eqb (Type_Kind T) Slice));
    [split; [discriminate|reflexivity]|].
  destruct (Type_Elem T) as [te|msg|p] eqn:Ete;
    [|split; [discriminate|reflexivity] |split; [discriminate|passed_on]].
  destruct (Value_Len source) as [len|msg|p] eqn:El;
    [|split; [discriminate|reflexivity] |split; [discriminate|passed_on]].
  destruct (Value_Cap source) as [cap|msg|p] eqn:Ec;
    [|split; [discriminate|reflexivity] |split; [discriminate|passed_on]].
  destruct (MakeSlice T len cap) as [targetSlice|msg|p] eqn:Em;
    [|split; [discriminate|reflexivity] |split; [discriminate|passed_on]].
  apply MakeSlice_Ok in Em. destruct Em as (e & _ & ->).
  destruct source as [|st d fl]; [discriminate El|].
  destruct d;
    try (destruct (Nat.eqb len 0);
         (split; [first [discriminate|now intros v [= <-]]|reflexivity]));
    (destruct (Type_Elem st) as [se|msg|p] eqn:Ese;
     [|split; [discriminate|reflexivity] |split; [discriminate|passed_on]];
     match goal with
     | |- context [convertSlice_loop conv te se ?sfl ?es 0 ?tgt] =>
         destruct (@convertSlice_loop_typed conv te se sfl T es) with
           (i := 0) (target := tgt) as [H1 H2];
         [apply Forall_forall; intros x Hx; apply Hes; exact Hx
         |exact Ete|reflexivity|]
     end;
     split; [|exact H2]; intros v Hv; apply H1 in Hv; exact Hv).
Qed.

Lemma convertMapIndex_typed conv sk se sfl k et all :
  Forall (well_typed_entry conv) all ->
  (forall T ro, well_typed (conv ZeroValue T) ro T) ->
  well_typed (convertMapIndex conv sk se sfl k et all) (flagRO sfl) et.
Proof.
  intros Hall Hz. induction Hall as [|[k' x] all [_ Hx] _ IH].
  - rewrite convertMapIndex_nil. apply Hz.
  - rewrite convertMapIndex_cons. destruct (key_equal sk k' k); [|exact IH].
    apply (Hx se (mkFlag (flagRO sfl) false) et).
Qed.

Lemma convertMap_loop_typed conv T sk se sfl all es :
  Forall (well_typed_entry conv) all ->
  (forall T ro, well_typed (conv ZeroValue T) ro T) ->
  Forall (well_typed_entry conv) es ->
  forall target,
    Value_Type target = Ok T ->
    (forall v, convertMap_loop conv T sk se sfl all es target = Ok v ->
               Value_Type v = Ok T
               /\ Value_flagRO v = Value_flagRO target)
    /\ type_mismatch (convertMap_loop conv T sk se sfl all es target) = false.
Proof.
  intros Hall Hz.
  induction 1 as [|[k x] es [Hk _] _ IH]; intros target Htgt.
  - simpl. split; [|reflexivity]. now intros v [= <-].
  - simpl in Hk. simpl.
    destruct (Type_Key T) as [kt|msg|p] eqn:Ekt;
      [|split; [discriminate|reflexivity] |split; [discriminate|passed_on]].
    destruct (Hk sk (mkFlag (flagRO sfl) false) kt) as [Hokk Hmisk].
    destruct (conv (ValueOf sk k (mkFlag (flagRO sfl) false)) kt) as [ck|msg|p];
      [|split; [discriminate|reflexivity] |split; [discriminate|exact Hmisk]].
    destruct (Hokk ck eq_refl) as [Hfitk _].
    destruct (Type_Elem T) as [et|msg|p] eqn:Eet;
      [|split; [discriminate|reflexivity] |split; [discriminate|passed_on]].
    destruct (@convertMapIndex_typed conv sk se sfl k et all Hall Hz)
      as [Hokx Hmisx].
    destruct (convertMapIndex conv sk se sfl k et all) as [cx|msg|p];
      [|split; [discriminate|reflexivity] |split; [discriminate|exact Hmisx]].
    destruct (Hokx cx eq_refl) as [Hfitx _].
    destruct (Value_SetMapIndex target ck cx) as [target'|msg|p] eqn:ES.
    + apply Value_SetMapIndex_Ok in ES. destruct ES as [ES1 ES2].
      destruct (IH target') as [IH1 IH2]; [congruence|].
      split; [|exact IH2]. intros v Hv. destruct (IH1 v Hv) as [H1 H2].
      split; congruence.
    + split; [discriminate|reflexivity].
    + split; [discriminate|].
      pose proof (@Value_SetMapIndex_fits target ck cx T kt et
                    Htgt Ekt Eet Hfitk Hfitx) as H.
      now rewrite ES in H.
Qed.

Lemma convertMapWith_typed conv source T :
  Forall (well_typed_entry conv) (map_data (Value_data source)) ->
  (forall T ro, well_typed (conv ZeroValue T) ro T) ->
  (forall v, convertMapWith conv source T = Ok v ->
             Value_Type v = Ok T /\ Value_flagRO v = false)
  /\ type_mismatch (convertMapWith conv source T) = false.
Proof.
  intros Hes Hz. unfold convertMapWith.
  destruct (negb (Kind_eqb (Type_Kind T) Map)) eqn:EK;
    [split; [discriminate|reflexivity]|].
  destruct (Value_Len source) as [len|msg|p] eqn:El;
    [|split; [discriminate|reflexivity] |split; [discriminate|passed_on]].
  unfold MakeMapWithSize. rewrite EK.
  destruct source as [|st d fl]; [split; [discriminate|reflexivity]|].
  destruct d; try (split; [discriminate|reflexivity]).
  destruct (Kind_eqb (Type_Kind st) Map); [|split; [discriminate|reflexivity]].
  destruct (Type_Key st) as [sk|msg|p] eqn:Esk;
    [|split; [discriminate|reflexivity] |split; [discriminate|passed_on]].
  destruct (Type_Elem st) as [se|msg|p] eqn:Ese;
    [|split; [discriminate|reflexivity] |split; [discriminate|passed_on]].
  destruct (@convertMap_loop_typed conv T sk se fl entries entries Hes Hz Hes
              (ValueOf T (DMap [] false) flag0) eq_refl) as [H1 H2].
  split; [|exact H2]. intros v Hv. apply H1 in Hv. exact Hv.
Qed.

Lemma convertValue_ZeroValue_typed (T : rtype) (ro : bool) :
  well_typed (convertValue ZeroValue T) ro T.
Proof. split; [discriminate|reflexivity]. Qed.

Lemma Value_Type_fits v T : Value_Type v = Ok T -> fits v T = true.
Proof.
  destruct v as [|V d fl]; [discriminate|]. intros [= ->].
  apply Type_AssignableTo_refl.
Qed.

Lemma convertDefault_typed source T :
  well_typed (convertDefault source T) (Value_flagRO source) T.
Proof.
  unfold convertDefault. destruct source as [|st d fl];
    [split; [discriminate|reflexivity]|]. simpl.
  destruct (Type_AssignableTo st T) eqn:EA;
    [|split; [discriminate|reflexivity]].
  split; [|reflexivity]. intros v [= <-]. simpl. auto.
Qed.

Lemma convertValue_typed_step st d fl T :
  (forall ds, d = DStruct ds -> Forall (well_typed_on convertValue) ds) ->
  (forall x, In x (seq_data d) -> well_typed_on convertValue x) ->
  Forall (well_typed_entry convertValue) (map_data d) ->
  well_typed (convertValue (ValueOf st d fl) T) (flagRO fl) T.
Proof.
  intros HS HL HM. rewrite convertValue_unfold. simpl.
  destruct (Type_Kind st);
    try apply (convertDefault_typed (ValueOf st d fl) T).
  - destruct (@convertMapWith_typed convertValue (ValueOf st d fl) T HM
                convertValue_ZeroValue_typed) as [H1 H2].
    split; [|exact H2]. intros v Hv. destruct (H1 v Hv) as [Ht Hro].
    split; [now apply Value_Type_fits|auto].
  - destruct (@convertSliceWith_typed convertValue (ValueOf st d fl) T HL)
      as [H1 H2].
    split; [|exact H2]. intros v Hv. destruct (H1 v Hv) as [Ht Hro].
    split; [now apply Value_Type_fits|auto].
  - destruct (@convertStructWith_typed convertValue (ValueOf st d fl) T HS)
      as [H1 H2].
    split; [|exact H2]. intros v Hv. destruct (H1 v Hv) as [Ht Hro].
    split; [now apply Value_Type_fits|auto].
Qed.

Lemma convertValue_well_typed_on (d : data) : well_typed_on convertValue d.
Proof.
  induction d using data_nested_ind; intros st fl T;
    apply convertValue_typed_step; simpl;
    try discriminate; try (intros ? [= <-]); try (intros ? []);
    try (constructor; fail).
  - intros x Hx. eapply Forall_forall in H; eauto.
  - intros x Hx. eapply Forall_forall in H; eauto.
  - exact H.
  - exact H.
Qed.

(** *** Results fit the target (C10) *)

Lemma convertValue_well_typed (source : Value) (T : rtype) :
  well_typed (convertValue source T) (Value_flagRO source) T.
Proof.
  destruct source as [|st d fl].
  - split; [discriminate|reflexivity].
  - apply convertValue_well_typed_on.
Qed.

(** C10.  A value returned by [convertValue] has a type assignable to the
    target type; one returned by [convertStruct], [convertSlice] or
    [convertMap] has exactly the target type.  Hence no assignment of a
    converted value is rejected for its type: neither the caller's [Set] into
    a slot of the target type or [SetMapIndex] into a map with that element
    type, nor any assignment made inside the conversion. *)
Theorem converted_value_fits_target (source : Value) (T : rtype) (v : Value) :
  (convertValue source T = Ok v -> fits v T = true)
  /\ (convertStruct source T = Ok v -> Value_Type v = Ok T)
  /\ (convertSlice source T = Ok v -> Value_Type v = Ok T)
  /\ (convertMap source T = Ok v -> Value_Type v = Ok T)
  /\ (convertValue source T = Ok v ->
      forall (container : Value) (slot : Handle),
        Value_Type (handle_value slot) = Ok T ->
        type_mismatch (Value_Set container slot v) = false)
  /\ (convertValue source T = Ok v ->
      forall (m key : Value) (M K : rtype),
        Value_Type m = Ok M -> Type_Key M = Ok K -> Type_Elem M = Ok T ->
        fits key K = true ->
        type_mismatch (Value_SetMapIndex m key v) = false)
  /\ type_mismatch (convertValue source T) = false.
Proof.
  destruct (convertValue_well_typed source T) as [Hok Hmis].
  assert (Hon : forall d, well_typed_on convertValue d)
    by exact convertValue_well_typed_on.
  repeat split.
  - intros H. now apply Hok.
  - intros H. eapply convertStructWith_typed; [|exact H].
    intros ds _. apply Forall_forall. intros d _. apply Hon.
  - intros H. eapply convertSliceWith_typed; [|exact H].
    intros d _. apply Hon.
  - intros H. eapply convertMapWith_typed;
      [|exact convertValue_ZeroValue_typed|exact H].
    apply Forall_forall. intros [k x] _. split; apply Hon.
  - intros H container slot Hslot.
    apply Value_Set_fits with (T := T); [exact Hslot|now apply Hok].
  - intros H m key M K HM HK HE Hkey.
    apply Value_SetMapIndex_fits with (T := M) (kt := K) (et := T); auto.
    now apply Hok.
  - exact Hmis.
Qed.

(** The conversion of [[]int{1, 2, 3}] to [Ints]: the result has type
    [Ints]. *)
Lemma converted_value_fits_target_witness :
  fits (ValueOf examples.Ints (DSlice [DInt 1; DInt 2; DInt 3] 4 false) flag0)
       examples.Ints = true
  /\ Value_Type
       (ValueOf examples.Ints (DSlice [DInt 1; DInt 2; DInt 3] 4 false) flag0)
     = Ok examples.Ints.
Proof.
  destruct (converted_value_fits_target examples.ints examples.Ints
              (ValueOf examples.Ints
                       (DSlice [DInt 1; DInt 2; DInt 3] 4 false) flag0))
    as (H1 & _ & H3 & _).
  split; [apply H1|apply H3]; reflexivity.
Defined.

(** *** The default branch (C4, C6) *)

Lemma convertValue_default (V : rtype) (d : data) (fl : flag) (T : rtype) :
  Type_Kind V <> Struct -> Type_Kind V <> Slice -> Type_Kind V <> Map ->
  convertValue (ValueOf V d fl) T
  = if Type_AssignableTo V T then Ok (ValueOf V d fl)
    else Err "incompatible types or unsupported conversion".
Proof.
  intros H1 H2 H3. rewrite convertValue_unfold. simpl.
  destruct (Type_Kind V); try reflexivity; congruence.
Qed.






(** C6, as stated, fails: [int32] converts to [int64] at run time, yet
    [convertValue] refuses the pair instead of coercing the value. *)
Lemma convertValue_coerces_nothing :
  Value_Kind examples.seven32 = Scalar Int32
  /\ Type_AssignableTo examples.tInt32 examples.tInt64 = false
  /\ Type_ConvertibleTo_numeric examples.tInt32 examples.tInt64 = true
  /\ convertValue examples.seven32 examples.tInt64
     = Err "incompatible types or unsupported conversion".
Proof. repeat split. Qed.

(** C6, amended.  A source that is no record, slice or map is returned
    as it is when its type is assignable to the target type; otherwise the
    conversion fails with ["incompatible types or unsupported conversion"].
    No coercion is attempted. *)
Theorem convertValue_scalar_assign_or_fail
    (V : rtype) (d : data) (fl : flag) (T : rtype) :
  is_container (Type_Kind V) = false ->
  convertValue (ValueOf V d fl) T
  = if Type_AssignableTo V T then Ok (ValueOf V d fl)
    else Err "incompatible types or unsupported conversion".
Proof.
  intros HV. apply convertValue_default; intros E; now rewrite E in HV.
Qed.

Lemma convertValue_scalar_assign_or_fail_witness :
  convertValue examples.seven32 examples.tInt32 = Ok examples.seven32
  /\ convertValue examples.seven32 examples.tInt64
     = Err "incompatible types or unsupported conversion".
Proof.
  split.
  - apply (@convertValue_scalar_assign_or_fail
             examples.tInt32 (DInt 7) flag0 examples.tInt32).
    reflexivity.
  - apply (@convertValue_scalar_assign_or_fail
             examples.tInt32 (DInt 7) flag0 examples.tInt64).
    reflexivity.
Defined.

(** *** [mapM] *)

Section mapM_facts.
Context {A B : Type} (f : A -> result B).

Lemma mapM_Ok_nth (l : list A) (bs : list B) :
  mapM f l = Ok bs ->
  length bs = length l
  /\ forall i a, nth_error l i = Some a ->
                 exists b, f a = Ok b /\ nth_error bs i = Some b.
Proof.
  revert bs. induction l as [|a l IH]; simpl; intros bs.
  - intros [= <-]. split; [reflexivity|]. intros [|i] a; discriminate.
  - destruct (f a) as [b|msg|p] eqn:Ea; try discriminate.
    destruct (mapM f l) as [bs'|msg|p]; try discriminate.
    intros [= <-]. destruct (IH bs' eq_refl) as [Hlen Hnth].
    split; [simpl; congruence|].
    intros [|i] a'; simpl.
    + intros [= <-]. now exists b.
    + apply Hnth.
Qed.

Lemma mapM_all_ok (l : list A) :
  (forall a, In a l -> is_ok (f a) = true) -> is_ok (mapM f l) = true.
Proof.
  induction l as [|a l IH]; simpl; intros H; [reflexivity|].
  pose proof (H a (or_introl eq_refl)) as Ha.
  destruct (f a); try discriminate.
  assert (Hl : is_ok (mapM f l) = true) by (apply IH; auto).
  now destruct (mapM f l).
Qed.

Lemma mapM_some_fail (l : list A) (a : A) :
  In a l -> is_ok (f a) = false -> is_ok (mapM f l) = false.
Proof.
  induction l as [|x l IH]; simpl; [contradiction|].
  intros [->|Hin] Ha.
  - now destruct (f a).
  - destruct (f x); try reflexivity.
    specialize (IH Hin Ha). now destruct (mapM f l).
Qed.

Lemma mapM_first_failure (pre post : list A) (a : A) (msg : string) :
  (forall x, In x pre -> is_ok (f x) = true) ->
  f a = Err msg ->
  mapM f (pre ++ a :: post) = Err msg.
Proof.
  induction pre as [|x pre IH]; simpl; intros Hpre Ha.
  - now rewrite Ha.
  - pose proof (Hpre x (or_introl eq_refl)) as Hx.
    destruct (f x); try discriminate.
    rewrite IH; auto.
Qed.

Lemma mapM_first_panic (pre post : list A) (a : A) (p : panic) :
  (forall x, In x pre -> is_ok (f x) = true) ->
  f a = Panic p ->
  mapM f (pre ++ a :: post) = Panic p.
Proof.
  induction pre as [|x pre IH]; simpl; intros Hpre Ha.
  - now rewrite Ha.
  - pose proof (Hpre x (or_introl eq_refl)) as Hx.
    destruct (f x); try discriminate.
    rewrite IH; auto.
Qed.

End mapM_facts.

(** *** The sequence strategy in closed form *)

Lemma set_nth_app (done todo : list data) (t x : data) :
  set_nth (done ++ t :: todo) (length done) x = done ++ x :: todo.
Proof. induction done as [|y done IH]; simpl; [reflexivity|]. now rewrite IH. Qed.

Lemma Type_Kind_Slice_Elem (t : rtype) :
  Type_Kind t = Slice -> exists e, underlying t = SliceOf e /\ Type_Elem t = Ok e.
Proof.
  unfold Type_Elem. induction t; simpl; try discriminate; auto.
  intros _. eauto.
Qed.

Lemma convertSlice_loop_closed
    (conv : Value -> rtype -> result Value) (te se : rtype) (sfl : flag)
    (T : rtype) (cap : nat) (tfl : flag) :
  Type_Kind T = Slice ->
  Type_Elem T = Ok te ->
  flagRO tfl = false ->
  forall (es done todo : list data),
    length todo = length es ->
    (forall e r, In e es -> conv (ValueOf se e sfl) te = Ok r ->
                 fits r te = true /\ Value_flagRO r = false) ->
    convertSlice_loop conv te se sfl es (length done)
                      (ValueOf T (DSlice (done ++ todo) cap false) tfl)
    = (cs <- mapM (fun e => conv (ValueOf se e sfl) te) es ;;
       Ok (ValueOf T (DSlice (done ++ map Value_data cs) cap false) tfl)).
Proof.
  intros HK HE HRO. induction es as [|e es IH]; intros done todo Hlen Hconv.
  - destruct todo; [|discriminate]. reflexivity.
  - destruct todo as [|t todo]; [discriminate|]. simpl.
    destruct (conv (ValueOf se e sfl) te) as [cv|msg|p] eqn:Ec; try reflexivity.
    destruct (Hconv e cv (or_introl eq_refl) Ec) as [Hfit Hro].
    unfold Value_Index. rewrite HK, HE. simpl.
    assert (Hnth : nth_error (done ++ t :: todo) (length done) = Some t).
    { rewrite nth_error_app2, Nat.sub_diag; [reflexivity|lia]. }
    rewrite Hnth. unfold Value_Set. simpl. rewrite HRO. simpl.
    destruct cv as [|V cd cfl]; [discriminate|]. simpl in Hfit, Hro.
    rewrite Hro, Hfit. simpl. rewrite set_nth_app.
    replace (done ++ cd :: todo) with ((done ++ [cd]) ++ todo)
      by now rewrite <- app_assoc.
    replace (S (length done)) with (length (done ++ [cd]))
      by (rewrite length_app; simpl; lia).
    rewrite IH; [|simpl in Hlen; lia|intros; eapply Hconv; eauto; now right].
    destruct (mapM (fun e0 => conv (ValueOf se e0 sfl) te) es);
      try reflexivity.
    simpl. now rewrite <- app_assoc.
Qed.

Lemma Type_Kind_Array_Elem (t : rtype) :
  Type_Kind t = Array -> exists e, Type_Elem t = Ok e.
Proof.
  unfold Type_Elem. induction t; simpl; try discriminate; auto.
  intros _. eauto.
Qed.

Lemma convertSlice_closed (st : rtype) (d : data) (es : list data)
    (cap : nat) (fl : flag) (T : rtype) :
  sequence st d es cap ->
  flagRO fl = false ->
  Type_Kind T = Slice ->
  exists se te,
    Type_Elem st = Ok se /\ Type_Elem T = Ok te
    /\ convertSlice (ValueOf st d fl) T
       = (cs <- mapM (fun e => convertValue
                                 (ValueOf se e (elem_flag (Type_Kind st) fl))
                                 te) es ;;
          Ok (ValueOf T (DSlice (map Value_data cs) cap false) flag0)).
Proof.
  intros Hseq Hro HT.
  destruct (Type_Kind_Slice_Elem _ HT) as (te & _ & Hte).
  assert (Hloop : forall se sfl,
             flagRO sfl = false ->
             convertSlice_loop convertValue te se sfl es 0
               (ValueOf T (DSlice (repeat (Zero_data te) (length es)) cap false)
                        flag0)
             = (cs <- mapM (fun e => convertValue (ValueOf se e sfl) te) es ;;
                Ok (ValueOf T (DSlice (map Value_data cs) cap false) flag0))).
  { intros se sfl Hsfl.
    apply (@convertSlice_loop_closed convertValue te se sfl T cap
             flag0 HT Hte eq_refl es [] (repeat (Zero_data te) (length es))).
    - apply repeat_length.
    - intros e r _ Hr.
      destruct (convertValue_well_typed_on e se sfl te) as [Hok _].
      destruct (Hok r Hr) as [Hfit Hro']. split; [exact Hfit|]. now apply Hro'. }
  destruct Hseq as [(Hst & isnil & -> & Hcap)|(Hst & -> & ->)].
  - destruct (Type_Kind_Slice_Elem _ Hst) as (se & _ & Hse).
    exists se, te. split; [exact Hse|]. split; [exact Hte|].
    unfold convertSlice, convertSliceWith.
    rewrite HT. simpl. rewrite Hte. simpl. rewrite Hst.
    unfold MakeSlice. rewrite HT, Hte. simpl.
    replace (Nat.ltb cap (length es)) with false
      by (symmetry; apply Nat.ltb_ge; exact Hcap).
    rewrite Hse. apply Hloop. exact Hro.
  - destruct (Type_Kind_Array_Elem _ Hst) as (se & Hse).
    exists se, te. split; [exact Hse|]. split; [exact Hte|].
    unfold convertSlice, convertSliceWith.
    rewrite HT. simpl. rewrite Hte. simpl. rewrite Hst.
    unfold MakeSlice. rewrite HT, Hte. simpl.
    rewrite Nat.ltb_irrefl.
    rewrite Hse. apply Hloop. exact Hro.
Qed.

(** The same for every source, readable or not: [Set] refuses a converted
    element that is read-only. *)
Lemma convertSlice_loop_checked
    (conv : Value -> rtype -> result Value) (te se : rtype) (sfl : flag)
    (T : rtype) (cap : nat) (tfl : flag) :
  Type_Kind T = Slice ->
  Type_Elem T = Ok te ->
  flagRO tfl = false ->
  forall (es done todo : list data),
    length todo = length es ->
    (forall e r, In e es -> conv (ValueOf se e sfl) te = Ok r ->
                 fits r te = true) ->
    convertSlice_loop conv te se sfl es (length done)
                      (ValueOf T (DSlice (done ++ todo) cap false) tfl)
    = (cs <- mapM (fun e => settable_result (conv (ValueOf se e sfl) te)) es ;;
       Ok (ValueOf T (DSlice (done ++ map Value_data cs) cap false) tfl)).
Proof.
  intros HK HE HRO. induction es as [|e es IH]; intros done todo Hlen Hconv.
  - destruct todo; [|discriminate]. reflexivity.
  - destruct todo as [|t todo]; [discriminate|]. simpl.
    unfold settable_result at 1.
    destruct (conv (ValueOf se e sfl) te) as [cv|msg|p] eqn:Ec; try reflexivity.
    pose proof (Hconv e cv (or_introl eq_refl) Ec) as Hfit.
    unfold Value_Index. rewrite HK, HE. simpl.
    assert (Hnth : nth_error (done ++ t :: todo) (length done) = Some t).
    { rewrite nth_error_app2, Nat.sub_diag; [reflexivity|lia]. }
    rewrite Hnth. unfold Value_Set. simpl. rewrite HRO. simpl.
    destruct cv as [|V cd cfl]; [discriminate|]. simpl in Hfit. simpl.
    destruct (flagRO cfl); [reflexivity|].
    rewrite Hfit. simpl. rewrite set_nth_app.
    replace (done ++ cd :: todo) with ((done ++ [cd]) ++ todo)
      by now rewrite <- app_assoc.
    replace (S (length done)) with (length (done ++ [cd]))
      by (rewrite length_app; simpl; lia).
    rewrite IH; [|simpl in Hlen; lia|intros; eapply Hconv; eauto; now right].
    destruct (mapM (fun e0 => settable_result (conv (ValueOf se e0 sfl) te)) es);
      try reflexivity.
    simpl. now rewrite <- app_assoc.
Qed.

Lemma convertSlice_checked (st : rtype) (d : data) (es : list data)
    (cap : nat) (fl : flag) (T : rtype) :
  sequence st d es cap ->
  Type_Kind T = Slice ->
  exists se te,
    Type_Elem st = Ok se /\ Type_Elem T = Ok te
    /\ convertSlice (ValueOf st d fl) T
       = (cs <- mapM (fun e => settable_result
                                 (convertValue
                                    (ValueOf se e (elem_flag (Type_Kind st) fl))
                                    te)) es ;;
          Ok (ValueOf T (DSlice (map Value_data cs) cap false) flag0)).
Proof.
  intros Hseq HT.
  destruct (Type_Kind_Slice_Elem _ HT) as (te & _ & Hte).
  assert (Hloop : forall se sfl,
             convertSlice_loop convertValue te se sfl es 0
               (ValueOf T (DSlice (repeat (Zero_data te) (length es)) cap false)
                        flag0)
             = (cs <- mapM (fun e => settable_result
                                       (convertValue (ValueOf se e sfl) te))
                           es ;;
                Ok (ValueOf T (DSlice (map Value_data cs) cap false) flag0))).
  { intros se sfl.
    apply (@convertSlice_loop_checked convertValue te se sfl T cap
             flag0 HT Hte eq_refl es [] (repeat (Zero_data te) (length es))).
    - apply repeat_length.
    - intros e r _ Hr.
      destruct (convertValue_well_typed_on e se sfl te) as [Hok _].
      now destruct (Hok r Hr). }
  destruct Hseq as [(Hst & isnil & -> & Hcap)|(Hst & -> & ->)].
  - destruct (Type_Kind_Slice_Elem _ Hst) as (se & _ & Hse).
    exists se, te. split; [exact Hse|]. split; [exact Hte|].
    unfold convertSlice, convertSliceWith.
    rewrite HT. simpl. rewrite Hte. simpl. rewrite Hst.
    unfold MakeSlice. rewrite HT, Hte. simpl.
    replace (Nat.ltb cap (length es)) with false
      by (symmetry; apply Nat.ltb_ge; exact Hcap).
    rewrite Hse. apply Hloop.
  - destruct (Type_Kind_Array_Elem _ Hst) as (se & Hse).
    exists se, te. split; [exact Hse|]. split; [exact Hte|].
    unfold convertSlice, convertSliceWith.
    rewrite HT. simpl. rewrite Hte. simpl. rewrite Hst.
    unfold MakeSlice. rewrite HT, Hte. simpl.
    rewrite Nat.ltb_irrefl.
    rewrite Hse. apply Hloop.
Qed.

Lemma settable_result_Ok (r : result Value) (c : Value) :
  settable_result r = Ok c -> r = Ok c.
Proof.
  unfold settable_result. destruct r as [cv|msg|p]; try discriminate.
  destruct (Value_flagRO cv); [discriminate|]. now intros [= <-].
Qed.

Lemma settable_result_fails (r : result Value) :
  is_ok r = false -> is_ok (settable_result r) = false.
Proof. now destruct r. Qed.

Lemma convertSlice_not_slice_target (source : Value) (T : rtype) :
  Type_Kind T <> Slice ->
  convertSlice source T = Err "target type is not a slice".
Proof.
  intros HT. unfold convertSlice, convertSliceWith.
  apply Kind_eqb_neq in HT. now rewrite HT.
Qed.

(** C7, as stated, fails: [[]int{1}] read through an unexported field is a
    source sequence whose one element converts to [int], and the target
    type [[]int] is a slice type; [convertSlice] produces no sequence, it
    panics when it stores the converted element. *)
Lemma convertSlice_unexported_source_panics :
  let source :=
    ValueOf (SliceOf examples.tInt) (DSlice [DInt 1] 1 false)
            (mkFlag true false) in
  Value_Index source 0
  = Ok (mkHandle (ValueOf examples.tInt (DInt 1) (mkFlag true true)) 0)
  /\ convertValue (ValueOf examples.tInt (DInt 1) (mkFlag true true))
                  examples.tInt
     = Ok (ValueOf examples.tInt (DInt 1) (mkFlag true true))
  /\ convertSlice source (SliceOf examples.tInt)
     = Panic (UnexportedField "Value.Set").
Proof. repeat split. Qed.

(** C7, amended.  [convertSlice] fails at once with ["target type is not a
    slice"] when the target type is not a slice type.  Otherwise, for
    every source sequence: a result holds, under the target type and at
    the source's capacity, exactly one element per source element, the
    element at every index being the conversion of the source element at
    that index; the conversion fails when any element fails; it succeeds
    when every element converts and the source may be read through
    reflection (it was not obtained through an unexported field); and
    it panics in [Set] at the first element whose conversion gives a
    read-only value, which no element of a source that may be read
    gives. *)
Theorem convertSlice_elementwise
    (st : rtype) (d : data) (fl : flag) (es : list data) (cap : nat)
    (T : rtype) :
  let source := ValueOf st d fl in
  (Type_Kind T <> Slice ->
   convertSlice source T = Err "target type is not a slice")
  /\ (Type_Kind T = Slice ->
      sequence st d es cap ->
      exists se te,
        Type_Elem st = Ok se /\ Type_Elem T = Ok te
        /\ let conv e :=
             convertValue (ValueOf se e (elem_flag (Type_Kind st) fl)) te in
           (forall v, convertSlice source T = Ok v ->
              exists ds,
                v = ValueOf T (DSlice ds cap false) flag0
                /\ length ds = length es
                /\ forall i e, nth_error es i = Some e ->
                     exists c, conv e = Ok c
                               /\ nth_error ds i = Some (Value_data c))
           /\ (flagRO fl = false ->
               (forall e, In e es -> is_ok (conv e) = true) ->
               is_ok (convertSlice source T) = true)
           /\ (forall e, In e es -> is_ok (conv e) = false ->
               is_ok (convertSlice source T) = false)
           /\ (forall pre e post c,
                 es = pre ++ e :: post ->
                 (forall x, In x pre ->
                    exists c', conv x = Ok c' /\ Value_flagRO c' = false) ->
                 conv e = Ok c -> Value_flagRO c = true ->
                 convertSlice source T = Panic (UnexportedField "Value.Set"))
           /\ (flagRO fl = false ->
               forall e c, conv e = Ok c -> Value_flagRO c = false)).
Proof.
  intros source. split; [apply convertSlice_not_slice_target|].
  intros HT Hseq.
  destruct (@convertSlice_checked st d es cap fl T Hseq HT)
    as (se & te & Hse & Hte & Heq).
  exists se, te. split; [exact Hse|]. split; [exact Hte|].
  intros conv. subst source. rewrite Heq.
  change (fun e => settable_result
                     (convertValue
                        (ValueOf se e (elem_flag (Type_Kind st) fl)) te))
    with (fun e => settable_result (conv e)).
  split; [|split; [|split; [|split]]].
  - intros v Hv.
    destruct (mapM (fun e => settable_result (conv e)) es) as [cs|msg|p] eqn:Em;
      try discriminate.
    injection Hv as <-. apply mapM_Ok_nth in Em. destruct Em as [Hlen Hnth].
    exists (map Value_data cs). split; [reflexivity|].
    split; [now rewrite length_map|].
    intros i e Hi. destruct (Hnth i e Hi) as (c & Hc & Hci).
    exists c. split; [now apply settable_result_Ok|].
    now rewrite nth_error_map, Hci.
  - intros Hro Hall.
    assert (H : is_ok (mapM (fun e => settable_result (conv e)) es) = true).
    { apply mapM_all_ok. intros e He. specialize (Hall e He).
      unfold settable_result.
      destruct (conv e) as [c|msg|p] eqn:Ec; try discriminate.
      destruct (convertValue_well_typed_on e se
                  (elem_flag (Type_Kind st) fl) te) as [Hok _].
      destruct (Hok c Ec) as [_ Hc]. rewrite Hc; [reflexivity|].
      now destruct (Type_Kind st). }
    now destruct (mapM (fun e => settable_result (conv e)) es).
  - intros e Hin He.
    pose proof (mapM_some_fail (fun e => settable_result (conv e)) es e Hin
                  (settable_result_fails _ He)) as H.
    now destruct (mapM (fun e => settable_result (conv e)) es).
  - intros pre e post c -> Hpre Hc Hro.
    rewrite (@mapM_first_panic _ _ (fun e => settable_result (conv e))
               pre post e (UnexportedField "Value.Set")); [reflexivity| |].
    + intros x Hx. destruct (Hpre x Hx) as (c' & Hc' & Hro').
      unfold settable_result. now rewrite Hc', Hro'.
    + unfold settable_result. now rewrite Hc, Hro.
  - intros Hro e c Hc.
    destruct (convertValue_well_typed_on e se
                (elem_flag (Type_Kind st) fl) te) as [Hok _].
    destruct (Hok c Hc) as [_ H]. apply H. now destruct (Type_Kind st).
Qed.

(** [[]int{1, 2, 3}] against the target types [int] and [Ints]. *)
Lemma convertSlice_elementwise_witness :
  convertSlice examples.ints examples.tInt = Err "target type is not a slice"
  /\ is_ok (convertSlice examples.ints examples.Ints) = true.
Proof.
  split.
  - apply (@convertSlice_elementwise (SliceOf examples.tInt)
             (DSlice [DInt 1; DInt 2; DInt 3] 4 false) flag0
             [DInt 1; DInt 2; DInt 3] 4 examples.tInt).
    discriminate.
  - destruct (@convertSlice_elementwise (SliceOf examples.tInt)
                (DSlice [DInt 1; DInt 2; DInt 3] 4 false) flag0
                [DInt 1; DInt 2; DInt 3] 4 examples.Ints)
      as [_ H].
    destruct H as (se & te & Hse & Hte & _ & Hall & _).
    + reflexivity.
    + left. split; [reflexivity|]. exists false. split; [reflexivity|].
      simpl. lia.
    + injection Hse as <-. injection Hte as <-.
      apply Hall; [reflexivity|].
      intros e [<-|[<-|[<-|[]]]]; reflexivity.
Defined.

(** *** Failures propagate *)

Lemma convertStruct_loop_app conv fl ds1 :
  forall fs1 fs2 ds2 target,
    length ds1 = length fs1 ->
    convertStruct_loop conv fl (fs1 ++ fs2) (ds1 ++ ds2) target
    = (target1 <- convertStruct_loop conv fl fs1 ds1 target ;;
       convertStruct_loop conv fl fs2 ds2 target1).
Proof.
  induction ds1 as [|d ds1 IH]; intros [|f fs1] fs2 ds2 target Hlen;
    try discriminate.
  - simpl. now destruct ds2.
  - simpl.
    destruct (negb (negb (flagRO fl || negb (IsExported f))));
      [apply IH; simpl in Hlen; lia|].
    destruct (Value_FieldByName target (Name f)) as [h|msg|p]; try reflexivity.
    destruct (Value_IsValid (handle_value h) && Value_CanSet (handle_value h));
      [|apply IH; simpl in Hlen; lia].
    destruct (Value_Type (handle_value h)); try reflexivity.
    destruct (conv (fieldValue fl f d) a); try reflexivity.
    destruct (Value_Set target h a0); try reflexivity.
    apply IH. simpl in Hlen. lia.
Qed.

Lemma convertSlice_loop_app conv te se sfl pre :
  forall post i target,
    convertSlice_loop conv te se sfl (pre ++ post) i target
    = (target1 <- convertSlice_loop conv te se sfl pre i target ;;
       convertSlice_loop conv te se sfl post (i + length pre) target1).
Proof.
  induction pre as [|e pre IH]; intros post i target; simpl.
  - now rewrite Nat.add_0_r.
  - destruct (conv (ValueOf se e sfl) te); try reflexivity.
    destruct (Value_Index target i); try reflexivity.
    destruct (Value_Set target a0 a); try reflexivity.
    rewrite IH. now replace (S i + length pre) with (i + S (length pre)) by lia.
Qed.

Lemma ConvertStructs_loop_app tagName ds1 :
  forall fs1 fs2 ds2 targetVal,
    length ds1 = length fs1 ->
    ConvertStructs_loop tagName (fs1 ++ fs2) (ds1 ++ ds2) targetVal
    = match ConvertStructs_loop tagName fs1 ds1 targetVal with
      | (targetVal1, Ok _) => ConvertStructs_loop tagName fs2 ds2 targetVal1
      | failed => failed
      end.
Proof.
  induction ds1 as [|d ds1 IH]; intros [|f fs1] fs2 ds2 targetVal Hlen;
    try discriminate.
  - simpl. now destruct ds2.
  - simpl.
    destruct (ConvertStructs_field tagName f (fieldValue flag0 f d) targetVal);
      try reflexivity.
    apply IH. simpl in Hlen. lia.
Qed.

(** The reflection layer panics, it never returns an error. *)
Lemma Value_Field_not_Err v i msg : Value_Field v i <> Err msg.
Proof.
  unfold Value_Field.
  destruct (Value_Kind v), v; try discriminate.
  destruct (nth_error (Type_Fields typ) i); try discriminate.
  destruct (nth_error (struct_data dat) i); discriminate.
Qed.

Lemma Value_FieldByName_not_Err v name msg :
  Value_FieldByName v name <> Err msg.
Proof.
  unfold Value_FieldByName.
  destruct (Value_Kind v), v; try discriminate.
  destruct (Type_FieldByName typ name); try discriminate.
  destruct (Value_Field (ValueOf typ dat fl) n) eqn:E; try discriminate.
  now apply Value_Field_not_Err in E.
Qed.

Lemma Value_Set_not_Err c h x msg : Value_Set c h x <> Err msg.
Proof. unfold Value_Set. repeat (break_match; try discriminate). Qed.

Lemma Value_Type_not_Err v msg : Value_Type v <> Err msg.
Proof. now destruct v. Qed.

Lemma resolveTargetField_not_Err tagName f targetVal msg :
  resolveTargetField tagName f targetVal <> Err msg.
Proof.
  unfold resolveTargetField. intros H.
  repeat match type of H with
         | context [if ?c then _ else _] => destruct c
         | (_ <- ?e ;; _) = _ => destruct e eqn:?
         end;
    try discriminate;
    repeat match goal with
           | E : (if ?c then _ else _) = Err _ |- _ => destruct c
           | E : Value_FieldByName _ _ = Err _ |- _ =>
               now apply Value_FieldByName_not_Err in E
           | E : Ok _ = Err _ |- _ => discriminate E
           end.
Qed.

(** An iteration of [ConvertStructs] returns an error only when its call
    of [convertValue] does, and then the same one. *)
Lemma ConvertStructs_field_Err tagName f sourceField targetVal msg :
  ConvertStructs_field tagName f sourceField targetVal = Err msg ->
  exists targetFieldType, convertValue sourceField targetFieldType = Err msg.
Proof.
  unfold ConvertStructs_field.
  destruct (Value_CanInterface sourceField) as [ci|m|p] eqn:Eci;
    [|now destruct sourceField|discriminate].
  destruct (negb ci || String.eqb (Tag_Get (Tag f) tagName) "");
    [discriminate|].
  destruct (resolveTargetField tagName f targetVal) as [[h|]|m|p] eqn:Er;
    try discriminate.
  - destruct (negb (Value_IsValid (handle_value h))
              || negb (Value_CanSet (handle_value h))); [discriminate|].
    destruct (Value_Type (handle_value h)) as [T|m|p] eqn:ET;
      [|now apply Value_Type_not_Err in ET|discriminate].
    destruct (convertValue sourceField T) as [cv|m|p] eqn:Ec;
      [|intros [= <-]; eauto|discriminate].
    intros H. now apply Value_Set_not_Err in H.
  - now apply resolveTargetField_not_Err in Er.
Qed.

(** A failing field conversion is returned by [convertStruct]. *)
Lemma convertStruct_field_failure
    (st : rtype) (fl : flag) (fs1 fs2 : list StructField) (f : StructField)
    (ds1 ds2 : list data) (d : data) (T : rtype)
    (target1 : Value) (h : Handle) (Tf : rtype) (msg : string) :
  Type_Kind st = Struct ->
  Type_Fields st = fs1 ++ f :: fs2 ->
  length ds1 = length fs1 ->
  convertStruct_loop convertValue fl fs1 ds1
                     (ValueOf T (Zero_data T) flagAddressable) = Ok target1 ->
  Value_CanInterface (fieldValue fl f d) = Ok true ->
  Value_FieldByName target1 (Name f) = Ok h ->
  Value_IsValid (handle_value h) && Value_CanSet (handle_value h) = true ->
  Value_Type (handle_value h) = Ok Tf ->
  convertValue (fieldValue fl f d) Tf = Err msg ->
  convertStruct (ValueOf st (DStruct (ds1 ++ d :: ds2)) fl) T = Err msg.
Proof.
  intros Hk Hfs Hlen Hpre Hci Hh Hset HT Hconv.
  unfold convertStruct, convertStructWith.
  change (Value_Elem (New T))
    with (Ok (ValueOf T (Zero_data T) flagAddressable)).
  unfold Value_NumField, Value_Kind. rewrite Hk, Hfs.
  rewrite convertStruct_loop_app by exact Hlen.
  rewrite Hpre.
  change (convertStruct_loop convertValue fl (f :: fs2) (d :: ds2) target1)
    with (canInterface <- Value_CanInterface (fieldValue fl f d) ;;
          if negb canInterface
          then convertStruct_loop convertValue fl fs2 ds2 target1
          else
            targetField <- Value_FieldByName target1 (Name f) ;;
            if Value_IsValid (handle_value targetField)
               && Value_CanSet (handle_value targetField)
            then
              targetFieldType <- Value_Type (handle_value targetField) ;;
              convertedValue <-
                convertValue (fieldValue fl f d) targetFieldType ;;
              target' <- Value_Set target1 targetField convertedValue ;;
              convertStruct_loop convertValue fl fs2 ds2 target'
            else convertStruct_loop convertValue fl fs2 ds2 target1).
  rewrite Hci. cbv beta iota. change (negb true) with false. cbv iota.
  rewrite Hh. cbv beta iota. rewrite Hset, HT, Hconv. reflexivity.
Qed.

(** A failing key or element conversion is returned by [convertMap]. *)
Lemma convertMap_entry_failure
    (st : rtype) (fl : flag) (pre post : list (data * data)) (k v : data)
    (isnil : bool) (T sk se kt et : rtype) (targetMap1 : Value)
    (msg : string) :
  Type_Kind st = Map -> Type_Key st = Ok sk -> Type_Elem st = Ok se ->
  Type_Kind T = Map -> Type_Key T = Ok kt -> Type_Elem T = Ok et ->
  let source := ValueOf st (DMap (pre ++ (k, v) :: post) isnil) fl in
  let key := ValueOf sk k (mkFlag (flagRO fl) false) in
  convertMap_loop convertValue T sk se fl (pre ++ (k, v) :: post) pre
                  (ValueOf T (DMap [] false) flag0)
  = Ok targetMap1 ->
  convertValue key kt = Err msg
  \/ (is_ok (convertValue key kt) = true
      /\ exists sourceValue,
           Value_MapIndex source key = Ok sourceValue
           /\ convertValue sourceValue et = Err msg) ->
  convertMap source T = Err msg.
Proof.
  intros Hst Hsk Hse HT Hkt Het source key Hpre Hfail.
  unfold convertMap, convertMapWith, source.
  rewrite HT. simpl. rewrite Hst. simpl.
  unfold MakeMapWithSize. rewrite HT. simpl. rewrite Hsk, Hse.
  rewrite convertMap_loop_app, Hpre. simpl. rewrite Hkt, Het.
  fold key.
  destruct Hfail as [Hkey|[Hkey (sv & Hidx & Hval)]].
  - now rewrite Hkey.
  - destruct (convertValue key kt); try discriminate.
    rewrite (@convertMapIndex_MapIndex convertValue st sk se fl
               (pre ++ (k, v) :: post) isnil k et Hst Hsk Hse).
    fold source key. now rewrite Hidx, Hval.
Qed.

(** A failing element conversion is returned by [convertSlice]. *)
Lemma convertSlice_element_failure
    (st : rtype) (d : data) (fl : flag) (pre post : list data) (e : data)
    (cap : nat) (T se te : rtype) (target1 : Value) (msg : string) :
  Type_Elem st = Ok se ->
  Type_Kind T = Slice -> Type_Elem T = Ok te ->
  sequence st d (pre ++ e :: post) cap ->
  let sfl := elem_flag (Type_Kind st) fl in
  convertSlice_loop convertValue te se sfl pre 0
    (ValueOf T (DSlice (repeat (Zero_data te) (length (pre ++ e :: post)))
                       cap false) flag0)
  = Ok target1 ->
  convertValue (ValueOf se e sfl) te = Err msg ->
  convertSlice (ValueOf st d fl) T = Err msg.
Proof.
  intros Hse HT Hte Hseq sfl Hpre He.
  unfold convertSlice, convertSliceWith.
  rewrite HT. simpl. rewrite Hte. simpl.
  unfold MakeSlice. rewrite HT, Hte. simpl.
  destruct Hseq as [(Hst & isnil & -> & Hcap)|(Hst & -> & ->)];
    rewrite Hst; simpl.
  - replace (Nat.ltb cap (length (pre ++ e :: post))) with false
      by (symmetry; apply Nat.ltb_ge; exact Hcap).
    rewrite Hse. unfold sfl in Hpre, He. rewrite Hst in Hpre, He.
    simpl in Hpre, He.
    rewrite convertSlice_loop_app, Hpre. simpl. now rewrite He.
  - rewrite Nat.ltb_irrefl.
    rewrite Hse. unfold sfl in Hpre, He. rewrite Hst in Hpre, He.
    simpl in Hpre, He.
    rewrite convertSlice_loop_app, Hpre. simpl. now rewrite He.
Qed.

(** A failing field conversion ends [ConvertStructs] with that error and
    with the target as the fields before it left it. *)
Lemma ConvertStructs_field_failure
    (Source Target : rtype) (fs1 fs2 : list StructField) (f : StructField)
    (ds1 ds2 : list data) (d : data) (target : data) (tagName : string)
    (targetVal1 : Value) (h : Handle) (Tf : rtype) (msg : string) :
  Type_Kind Source = Struct -> Type_Kind Target = Struct ->
  Type_Fields Source = fs1 ++ f :: fs2 ->
  length ds1 = length fs1 ->
  ConvertStructs_loop tagName fs1 ds1 (ValueOf Target target flagAddressable)
  = (targetVal1, Ok tt) ->
  IsExported f = true ->
  Tag_Get (Tag f) tagName <> "" ->
  resolveTargetField tagName f targetVal1 = Ok (Some h) ->
  Value_IsValid (handle_value h) && Value_CanSet (handle_value h) = true ->
  Value_Type (handle_value h) = Ok Tf ->
  convertValue (fieldValue flag0 f d) Tf = Err msg ->
  ConvertStructs Source Target (DStruct (ds1 ++ d :: ds2)) target tagName
  = (targetVal1, Err msg).
Proof.
  intros HS HT Hfs Hlen Hpre Hex Htag Hres Hset HTf Hconv.
  unfold ConvertStructs. simpl. rewrite HS, HT. simpl. rewrite Hfs.
  rewrite ConvertStructs_loop_app by exact Hlen.
  rewrite Hpre. cbn [ConvertStructs_loop].
  unfold ConvertStructs_field.
  rewrite Value_CanInterface_fieldValue, Hex. simpl.
  apply String.eqb_neq in Htag. rewrite Htag, Hres.
  apply andb_true_iff in Hset. destruct Hset as [Hv Hs]. rewrite Hv, Hs. simpl.
  rewrite HTf. unfold fieldValue, field_flag in Hconv. simpl in Hconv.
  unfold fieldValue, field_flag. simpl. rewrite Hex in *. simpl in *.
  now rewrite Hconv.
Qed.

(** C8.  The first failing recursive call decides the outcome of its
    caller: when the loop of [convertStruct], [convertSlice] or
    [convertMap] has come through the fields, elements or entries before
    one and its call of [convertValue] on that one (a field, an element,
    a key, or what [MapIndex] gives for a key) returns an error, the
    strategy returns that error, and so does [convertValue] through it;
    [ConvertStructs] returns the error of the first field whose
    conversion fails, with the target as the fields before that one left
    it, whatever the fields after it are.  An iteration of
    [ConvertStructs] returns no error but the one of its [convertValue]
    call. *)
Theorem first_failure_is_returned :
  (forall st fl fs1 f fs2 ds1 d ds2 T target1 h Tf msg,
      Type_Kind st = Struct ->
      Type_Fields st = fs1 ++ f :: fs2 ->
      length ds1 = length fs1 ->
      convertStruct_loop convertValue fl fs1 ds1
                         (ValueOf T (Zero_data T) flagAddressable)
      = Ok target1 ->
      Value_CanInterface (fieldValue fl f d) = Ok true ->
      Value_FieldByName target1 (Name f) = Ok h ->
      Value_IsValid (handle_value h) && Value_CanSet (handle_value h) = true ->
      Value_Type (handle_value h) = Ok Tf ->
      convertValue (fieldValue fl f d) Tf = Err msg ->
      convertStruct (ValueOf st (DStruct (ds1 ++ d :: ds2)) fl) T = Err msg
      /\ convertValue (ValueOf st (DStruct (ds1 ++ d :: ds2)) fl) T = Err msg)
  /\ (forall st d fl pre e post cap T se te target1 msg,
      sequence st d (pre ++ e :: post) cap -> Type_Elem st = Ok se ->
      Type_Kind T = Slice -> Type_Elem T = Ok te ->
      convertSlice_loop convertValue te se (elem_flag (Type_Kind st) fl) pre 0
        (ValueOf T (DSlice (repeat (Zero_data te) (length (pre ++ e :: post)))
                           cap false) flag0)
      = Ok target1 ->
      convertValue (ValueOf se e (elem_flag (Type_Kind st) fl)) te = Err msg ->
      convertSlice (ValueOf st d fl) T = Err msg
      /\ (Type_Kind st = Slice -> convertValue (ValueOf st d fl) T = Err msg))
  /\ (forall st fl pre k v post isnil T sk se kt et targetMap1 msg,
      Type_Kind st = Map -> Type_Key st = Ok sk -> Type_Elem st = Ok se ->
      Type_Kind T = Map -> Type_Key T = Ok kt -> Type_Elem T = Ok et ->
      let source := ValueOf st (DMap (pre ++ (k, v) :: post) isnil) fl in
      let key := ValueOf sk k (mkFlag (flagRO fl) false) in
      convertMap_loop convertValue T sk se fl (pre ++ (k, v) :: post) pre
                      (ValueOf T (DMap [] false) flag0)
      = Ok targetMap1 ->
      convertValue key kt = Err msg
      \/ (is_ok (convertValue key kt) = true
          /\ exists sourceValue,
               Value_MapIndex source key = Ok sourceValue
               /\ convertValue sourceValue et = Err msg) ->
      convertMap source T = Err msg /\ convertValue source T = Err msg)
  /\ (forall Source Target fs1 f fs2 ds1 d ds2 target tagName targetVal1
             h Tf msg,
      Type_Kind Source = Struct -> Type_Kind Target = Struct ->
      Type_Fields Source = fs1 ++ f :: fs2 ->
      length ds1 = length fs1 ->
      ConvertStructs_loop tagName fs1 ds1
                          (ValueOf Target target flagAddressable)
      = (targetVal1, Ok tt) ->
      IsExported f = true ->
      Tag_Get (Tag f) tagName <> "" ->
      resolveTargetField tagName f targetVal1 = Ok (Some h) ->
      Value_IsValid (handle_value h) && Value_CanSet (handle_value h) = true ->
      Value_Type (handle_value h) = Ok Tf ->
      convertValue (fieldValue flag0 f d) Tf = Err msg ->
      ConvertStructs Source Target (DStruct (ds1 ++ d :: ds2)) target tagName
      = (targetVal1, Err msg))
  /\ (forall tagName f sourceField targetVal msg,
      ConvertStructs_field tagName f sourceField targetVal = Err msg ->
      exists targetFieldType,
        convertValue sourceField targetFieldType = Err msg).
Proof.
  split; [|split; [|split; [|split]]].
  - intros. assert (H' : convertStruct
                           (ValueOf st (DStruct (ds1 ++ d :: ds2)) fl) T
                         = Err msg)
      by (eapply convertStruct_field_failure; eauto).
    split; [exact H'|]. rewrite convertValue_unfold. simpl.
    now rewrite H.
  - intros st d fl pre e post cap T se te target1 msg Hseq Hse HT Hte
           Hpre He.
    assert (H' : convertSlice (ValueOf st d fl) T = Err msg)
      by (eapply convertSlice_element_failure; eauto).
    split; [exact H'|]. intros Hst. rewrite convertValue_unfold. simpl.
    now rewrite Hst.
  - intros st fl pre k v post isnil T sk se kt et targetMap1 msg
           Hst Hsk Hse HT Hkt Het source key Hpre Hfail.
    assert (H' : convertMap source T = Err msg)
      by (eapply convertMap_entry_failure; eauto).
    split; [exact H'|]. rewrite convertValue_unfold. unfold source at 1.
    simpl. now rewrite Hst.
  - intros. eapply ConvertStructs_field_failure; eauto.
  - intros. eapply ConvertStructs_field_Err; eauto.
Qed.

(** A field, an element, an entry value and a tagged field that cannot be
    converted: [Pair{1, 2}] to [Mixed], [[][]int{{}, {1}}] to [[][]string],
    [map[string]int{"a": 1}] to [map[string]string], and [Tagged{1, 2, 3}]
    to [Wanted], where [A] is assigned and [C] is not reached. *)
Lemma first_failure_is_returned_witness :
  convertValue (ValueOf examples.Pair (DStruct [DInt 1; DInt 2]) flag0)
               examples.Mixed
  = Err "incompatible types or unsupported conversion"
  /\ convertValue examples.nested (SliceOf (SliceOf examples.tString))
     = Err "incompatible types or unsupported conversion"
  /\ convertValue examples.ages (MapOf examples.tString examples.tString)
     = Err "incompatible types or unsupported conversion"
  /\ ConvertStructs examples.Tagged examples.Wanted
                    (DStruct [DInt 1; DInt 2; DInt 3])
                    (Zero_data examples.Wanted) "t"
     = (ValueOf examples.Wanted (DStruct [DInt 1; DString ""; DInt 0])
                flagAddressable,
        Err "incompatible types or unsupported conversion").
Proof.
  destruct first_failure_is_returned as (HS & HL & HM & HC & _).
  split; [|split; [|split]].
  - refine (proj2 (HS examples.Pair flag0
             [mkStructField "A" "" examples.tInt []]
             (mkStructField "B" "" examples.tInt []) []
             [DInt 1] (DInt 2) [] examples.Mixed
             (ValueOf examples.Mixed (DStruct [DInt 1; DString ""])
                      flagAddressable)
             (mkHandle (ValueOf examples.tString (DString "") flagAddressable)
                       1)
             examples.tString _ _ _ _ _ _ _ _ _ _)); reflexivity.
  - refine (proj2 (HL (SliceOf (SliceOf examples.tInt))
             (DSlice [DSlice [] 0 false; DSlice [DInt 1] 1 false] 2 false)
             flag0
             [DSlice [] 0 false] (DSlice [DInt 1] 1 false) [] 2
             (SliceOf (SliceOf examples.tString))
             (SliceOf examples.tInt) (SliceOf examples.tString)
             (ValueOf (SliceOf (SliceOf examples.tString))
                      (DSlice [DSlice [] 0 false; DSlice [] 0 true] 2 false)
                      flag0) _
             _ _ _ _ _ _) _); try reflexivity.
    left. split; [reflexivity|]. exists false. split; [reflexivity|].
    simpl. lia.
  - refine (proj2 (HM (MapOf examples.tString examples.tInt) flag0
             [] (DString "a") (DInt 1) [] false
             (MapOf examples.tString examples.tString)
             examples.tString examples.tInt examples.tString examples.tString
             (ValueOf (MapOf examples.tString examples.tString)
                      (DMap [] false) flag0) _
             _ _ _ _ _ _ _ _)); try reflexivity.
    right. split; [reflexivity|].
    exists (ValueOf examples.tInt (DInt 1) flag0). split; reflexivity.
  - refine (HC examples.Tagged examples.Wanted
             [mkStructField "A" "" examples.tInt [("t", "A")]]
             (mkStructField "B" "" examples.tInt [("t", "B")])
             [mkStructField "C" "" examples.tInt [("t", "C")]]
             [DInt 1] (DInt 2) [DInt 3] (Zero_data examples.Wanted) "t"
             (ValueOf examples.Wanted (DStruct [DInt 1; DString ""; DInt 0])
                      flagAddressable)
             (mkHandle (ValueOf examples.tString (DString "") flagAddressable)
                       1)
             examples.tString _ _ _ _ _ _ _ _ _ _ _ _); try reflexivity.
    discriminate.
Defined.

(** ** Further properties of the converter *)

(** *** Where errors come from *)

Lemma Type_Elem_not_Err t msg : Type_Elem t <> Err msg.
Proof. unfold Type_Elem. now repeat break_match. Qed.

Lemma Type_Key_not_Err t msg : Type_Key t <> Err msg.
Proof. unfold Type_Key. now repeat break_match. Qed.

Lemma Value_Len_not_Err v msg : Value_Len v <> Err msg.
Proof. unfold Value_Len. now repeat break_match. Qed.

Lemma Value_Cap_not_Err v msg : Value_Cap v <> Err msg.
Proof. unfold Value_Cap. now repeat break_match. Qed.

Lemma Value_NumField_not_Err v msg : Value_NumField v <> Err msg.
Proof. unfold Value_NumField. now repeat break_match. Qed.

Lemma Value_CanInterface_not_Err v msg : Value_CanInterface v <> Err msg.
Proof. now destruct v. Qed.

Lemma MakeSlice_not_Err t len cap msg : MakeSlice t len cap <> Err msg.
Proof.
  unfold MakeSlice. repeat (break_match; try discriminate).
  intros _. eapply Type_Elem_not_Err; eauto.
Qed.

Lemma MakeMapWithSize_not_Err t n msg : MakeMapWithSize t n <> Err msg.
Proof. unfold MakeMapWithSize. now repeat break_match. Qed.

Lemma Value_Index_not_Err v i msg : Value_Index v i <> Err msg.
Proof.
  unfold Value_Index. destruct v as [|t d fl]; [discriminate|].
  destruct (Type_Kind t); try discriminate;
    (destruct (Type_Elem t) eqn:E; try discriminate;
     [destruct (nth_error (seq_data d) i); discriminate
     |now apply Type_Elem_not_Err in E]).
Qed.

Lemma Value_SetMapIndex_not_Err m k e msg : Value_SetMapIndex m k e <> Err msg.
Proof.
  unfold Value_SetMapIndex.
  destruct m as [|t d fl]; [discriminate|]. destruct d; try discriminate.
  destruct (negb (Kind_eqb (Type_Kind t) Map)); [discriminate|].
  destruct (flagRO fl); [discriminate|].
  destruct k as [|K kd kfl]; [discriminate|].
  destruct (flagRO kfl); [discriminate|].
  destruct (Type_Key t) eqn:Ek; try discriminate;
    [|now apply Type_Key_not_Err in Ek].
  destruct (negb (Type_AssignableTo K a)); [discriminate|].
  destruct e as [|E ed efl]; [discriminate|].
  destruct (flagRO efl); [discriminate|].
  destruct (Type_Elem t) eqn:Ee; try discriminate;
    [|now apply Type_Elem_not_Err in Ee].
  destruct (negb (Type_AssignableTo E a0)); [discriminate|].
  destruct isnil; discriminate.
Qed.

(** An error met where only the reflection layer was called. *)
Ltac no_reflect_error :=
  match goal with
  | E : _ = Err _ |- _ =>
      exfalso; revert E;
      first [ apply Type_Elem_not_Err | apply Type_Key_not_Err
            | apply Value_Len_not_Err | apply Value_Cap_not_Err
            | apply Value_NumField_not_Err | apply Value_CanInterface_not_Err
            | apply MakeSlice_not_Err | apply MakeMapWithSize_not_Err
            | apply Value_Index_not_Err | apply Value_SetMapIndex_not_Err
            | apply Value_Set_not_Err | apply Value_Type_not_Err
            | apply Value_FieldByName_not_Err
            | apply resolveTargetField_not_Err ]
  end.

Section error_origin.

Variable conv : Value -> rtype -> result Value.
Variable errs : list string.

Lemma convertStruct_loop_errors fl ds :
  Forall (errors_within conv errs) ds ->
  forall fs target msg,
    convertStruct_loop conv fl fs ds target = Err msg -> In msg errs.
Proof.
  induction 1 as [|d ds Hd _ IH]; intros fs target msg.
  - destruct fs; discriminate.
  - destruct fs as [|f fs]; [discriminate|]. simpl.
    destruct (negb (negb (flagRO fl || negb (IsExported f)))); [apply IH|].
    destruct (Value_FieldByName target (Name f)) as [h|m|p] eqn:Eh;
      [|no_reflect_error|discriminate].
    destruct (Value_IsValid (handle_value h) && Value_CanSet (handle_value h));
      [|apply IH].
    destruct (Value_Type (handle_value h)) as [Tf|m|p] eqn:ET;
      [|no_reflect_error|discriminate].
    destruct (conv (fieldValue fl f d) Tf) as [cv|m|p] eqn:Ec;
      [|intros [= <-]; eapply Hd; exact Ec|discriminate].
    destruct (Value_Set target h cv) as [t'|m|p] eqn:ES;
      [apply IH|no_reflect_error|discriminate].
Qed.

Lemma convertSlice_loop_errors te se sfl es :
  Forall (errors_within conv errs) es ->
  forall i target msg,
    convertSlice_loop conv te se sfl es i target = Err msg -> In msg errs.
Proof.
  induction 1 as [|e es He _ IH]; intros i target msg; [discriminate|]. simpl.
  destruct (conv (ValueOf se e sfl) te) as [cv|m|p] eqn:Ec;
    [|intros [= <-]; eapply He; exact Ec|discriminate].
  destruct (Value_Index target i) as [slot|m|p] eqn:Ei;
    [|no_reflect_error|discriminate].
  destruct (Value_Set target slot cv) as [t'|m|p] eqn:ES;
    [apply IH|no_reflect_error|discriminate].
Qed.

Lemma convertMapIndex_errors sk se sfl k et all msg :
  Forall (errors_within_entry conv errs) all ->
  (forall T m, conv ZeroValue T = Err m -> In m errs) ->
  convertMapIndex conv sk se sfl k et all = Err msg -> In msg errs.
Proof.
  intros Hall Hz. induction Hall as [|[k' v'] all [_ Hv] _ IH].
  - rewrite convertMapIndex_nil. apply Hz.
  - rewrite convertMapIndex_cons. destruct (key_equal sk k' k); [|exact IH].
    apply Hv.
Qed.

Lemma convertMap_loop_errors T sk se sfl all es :
  Forall (errors_within_entry conv errs) all ->
  (forall T m, conv ZeroValue T = Err m -> In m errs) ->
  Forall (errors_within_entry conv errs) es ->
  forall target msg,
    convertMap_loop conv T sk se sfl all es target = Err msg -> In msg errs.
Proof.
  intros Hall Hz.
  induction 1 as [|[k v] es [Hk _] _ IH]; intros target msg; [discriminate|].
  simpl in Hk. simpl.
  destruct (Type_Key T) as [kt|m|p] eqn:Ekt; [|no_reflect_error|discriminate].
  destruct (conv (ValueOf sk k (mkFlag (flagRO sfl) false)) kt)
    as [ck|m|p] eqn:Eck; [|intros [= <-]; eapply Hk; exact Eck|discriminate].
  destruct (Type_Elem T) as [et|m|p] eqn:Eet; [|no_reflect_error|discriminate].
  destruct (convertMapIndex conv sk se sfl k et all)
    as [cv|m|p] eqn:Ecv;
    [|intros [= <-]; eapply convertMapIndex_errors; eauto|discriminate].
  destruct (Value_SetMapIndex target ck cv) as [t'|m|p] eqn:ES;
    [apply IH|no_reflect_error|discriminate].
Qed.

End error_origin.

Section error_origin_strategies.

Variable conv : Value -> rtype -> result Value.
Variable errs : list string.

Lemma convertStructWith_errors st d fl T msg :
  (forall ds, d = DStruct ds -> Forall (errors_within conv errs) ds) ->
  convertStructWith conv (ValueOf st d fl) T = Err msg -> In msg errs.
Proof.
  intros Hds. unfold convertStructWith.
  destruct (Value_Elem (New T)) as [target|m|p] eqn:En; try discriminate.
  destruct (Value_NumField (ValueOf st d fl)) as [n|m|p] eqn:Enf;
    [|no_reflect_error|discriminate].
  destruct d; try discriminate.
  apply convertStruct_loop_errors. now apply Hds.
Qed.

Lemma convertSliceWith_errors st d fl T msg :
  In "target type is not a slice" errs ->
  Forall (errors_within conv errs) (seq_data d) ->
  convertSliceWith conv (ValueOf st d fl) T = Err msg -> In msg errs.
Proof.
  intros Hin Hes. unfold convertSliceWith.
  destruct (negb (Kind_eqb (Type_Kind T) Slice)); [now intros [= <-]|].
  destruct (Type_Elem T) as [te|m|p] eqn:Ete; [|no_reflect_error|discriminate].
  destruct (Value_Len (ValueOf st d fl)) as [len|m|p] eqn:El;
    [|no_reflect_error|discriminate].
  destruct (Value_Cap (ValueOf st d fl)) as [cap|m|p] eqn:Ec;
    [|no_reflect_error|discriminate].
  destruct (MakeSlice T len cap) as [target|m|p] eqn:Em;
    [|no_reflect_error|discriminate].
  destruct d; try (destruct (Nat.eqb len 0); discriminate);
    (destruct (Type_Elem st) as [se|m|p] eqn:Ese;
     [|no_reflect_error|discriminate]);
    now apply convertSlice_loop_errors.
Qed.

Lemma convertMapWith_errors st d fl T msg :
  In "target type is not a map" errs ->
  Forall (errors_within_entry conv errs) (map_data d) ->
  (forall T m, conv ZeroValue T = Err m -> In m errs) ->
  convertMapWith conv (ValueOf st d fl) T = Err msg -> In msg errs.
Proof.
  intros Hin Hes Hz. unfold convertMapWith.
  destruct (negb (Kind_eqb (Type_Kind T) Map)); [now intros [= <-]|].
  destruct (Value_Len (ValueOf st d fl)) as [len|m|p] eqn:El;
    [|no_reflect_error|discriminate].
  destruct (MakeMapWithSize T len) as [target|m|p] eqn:Em;
    [|no_reflect_error|discriminate].
  destruct d; try discriminate.
  destruct (Kind_eqb (Type_Kind st) Map); [|discriminate].
  destruct (Type_Key st) as [sk|m|p] eqn:Esk; [|no_reflect_error|discriminate].
  destruct (Type_Elem st) as [se|m|p] eqn:Ese; [|no_reflect_error|discriminate].
  now apply convertMap_loop_errors.
Qed.

Lemma convertDefault_errors source T msg :
  In "incompatible types or unsupported conversion" errs ->
  convertDefault source T = Err msg -> In msg errs.
Proof.
  intros Hin. unfold convertDefault.
  destruct (Value_Type source) as [t|m|p] eqn:Et;
    [|no_reflect_error|discriminate].
  destruct (Type_AssignableTo t T); [discriminate|now intros [= <-]].
Qed.

End error_origin_strategies.

Lemma convertValue_errors_within (d : data) :
  errors_within convertValue conversion_errors d.
Proof.
  induction d using data_nested_ind; intros st fl T msg;
    rewrite convertValue_unfold;
    unfold Value_Kind, convertStruct, convertSlice, convertMap;
    destruct (Type_Kind st).
  all: try (apply convertDefault_errors; simpl; tauto).
  all: try (apply convertMapWith_errors; simpl; auto; discriminate).
  all: try (apply convertSliceWith_errors; simpl; now auto).
  all: try (apply convertStructWith_errors;
            first [discriminate | intros ? [= <-]; assumption]).
Qed.

(** X1. Whatever error [convertValue] returns, it is one of the three
    that [converter.go] creates: an error is passed up unchanged from
    wherever in the source value it arose, and the reflection layer
    returns none. *)
Theorem convertValue_error_is_known (source : Value) (T : rtype) msg :
  convertValue source T = Err msg -> In msg conversion_errors.
Proof.
  destruct source as [|st d fl].
  - apply convertDefault_errors. simpl; tauto.
  - apply convertValue_errors_within.
Qed.

Lemma convertValue_error_is_known_witness :
  In "incompatible types or unsupported conversion" conversion_errors.
Proof.
  apply (@convertValue_error_is_known examples.five examples.tString).
  reflexivity.
Defined.

Lemma ConvertStructs_loop_errors tagName ds :
  forall fs targetVal t msg,
    ConvertStructs_loop tagName fs ds targetVal = (t, Err msg) ->
    In msg conversion_errors.
Proof.
  induction ds as [|d ds IH]; intros fs targetVal t msg;
    [destruct fs; discriminate|].
  destruct fs as [|f fs]; [discriminate|]. cbn [ConvertStructs_loop].
  destruct (ConvertStructs_field tagName f (fieldValue flag0 f d) targetVal)
    as [t'|m|p] eqn:Ef; [apply IH| |discriminate].
  intros [= _ <-]. revert Ef. unfold ConvertStructs_field.
  destruct (Value_CanInterface (fieldValue flag0 f d)) as [c|?|?] eqn:Ec;
    [|no_reflect_error|discriminate].
  destruct (negb c || (Tag_Get (Tag f) tagName =? "")); [discriminate|].
  destruct (resolveTargetField tagName f targetVal) as [[h|]|?|?] eqn:Er;
    [|discriminate|no_reflect_error|discriminate].
  destruct (negb (Value_IsValid (handle_value h))
            || negb (Value_CanSet (handle_value h))); [discriminate|].
  destruct (Value_Type (handle_value h)) as [Tf|?|?] eqn:ET;
    [|no_reflect_error|discriminate].
  destruct (convertValue (fieldValue flag0 f d) Tf) as [cv|?|?] eqn:Ecv;
    [|intros [= <-]; eapply convertValue_errors_within; exact Ecv
     |discriminate].
  intros E. no_reflect_error.
Qed.

(** X9. Whatever error [ConvertStructs] returns, it is its own
    ["source or target is not a struct"] or one of the three errors of
    [convertValue], passed up unchanged. *)
Theorem ConvertStructs_error_is_known
    (S T : rtype) (source target : data) (tagName : string)
    (targetVal : Value) (msg : string) :
  ConvertStructs S T source target tagName = (targetVal, Err msg) ->
  msg = "source or target is not a struct" \/ In msg conversion_errors.
Proof.
  unfold ConvertStructs.
  destruct (negb (Kind_eqb (Value_Kind (ValueOf S source flag0)) Struct)
            || negb (Kind_eqb (Value_Kind (ValueOf T target flagAddressable))
                              Struct)).
  - intros [= _ <-]. now left.
  - intros H. right. eapply ConvertStructs_loop_errors; exact H.
Qed.

Lemma ConvertStructs_error_is_known_witness :
  "incompatible types or unsupported conversion"
  = "source or target is not a struct"
  \/ In "incompatible types or unsupported conversion" conversion_errors.
Proof.
  apply (@ConvertStructs_error_is_known examples.Tagged examples.Wanted
           (DStruct [DInt 1; DInt 2; DInt 3]) (Zero_data examples.Wanted) "t"
           (ValueOf examples.Wanted (DStruct [DInt 1; DString ""; DInt 0])
                    flagAddressable)).
  reflexivity.
Defined.

(** *** Records: which target field a source field reaches *)

Lemma find_field_Some fs name :
  forall k i, find_field fs name k = Some i ->
    k <= i /\ exists g, nth_error fs (i - k) = Some g /\ Name g = name.
Proof.
  induction fs as [|f fs IH]; intros k i; simpl; [discriminate|].
  destruct (String.eqb (Name f) name) eqn:E.
  - intros [= <-]. split; [lia|]. rewrite Nat.sub_diag. simpl.
    exists f. split; [reflexivity|now apply String.eqb_eq].
  - intros H. apply IH in H as [Hle [g [Hg Hn]]]. split; [lia|].
    exists g. split; [|exact Hn].
    replace (i - k) with (S (i - S k)) by lia. exact Hg.
Qed.

Lemma settableField_Some T name i g :
  settableField T name = Some (i, g) ->
  nth_error (Type_Fields T) i = Some g /\ Name g = name
  /\ IsExported g = true /\ name <> "".
Proof.
  unfold settableField, Type_FieldByName.
  destruct (String.eqb name "") eqn:En; [discriminate|].
  destruct (find_field (Type_Fields T) name 0) as [i'|] eqn:Ef; [|discriminate].
  apply find_field_Some in Ef as [_ [g' [Hg' Hn]]].
  rewrite Nat.sub_0_r in Hg'. rewrite Hg'.
  destruct (IsExported g') eqn:Ex; [|discriminate].
  intros [= <- <-]. repeat split; auto.
  now apply String.eqb_neq.
Qed.

Lemma set_nth_length ts i x : length (set_nth ts i x) = length ts.
Proof.
  revert i; induction ts as [|t ts IH]; intros [|i]; simpl; auto.
Qed.

Lemma set_nth_same ts i x :
  i < length ts -> nth_error (set_nth ts i x) i = Some x.
Proof.
  revert i; induction ts as [|t ts IH]; intros [|i]; simpl; try lia; auto.
  intros H. apply IH. lia.
Qed.

Lemma set_nth_other ts i j x :
  i <> j -> nth_error (set_nth ts i x) j = nth_error ts j.
Proof.
  revert i j; induction ts as [|t ts IH]; intros [|i] [|j]; simpl;
    try congruence; auto.
Qed.

(** [FieldByName] on an addressable record whose data has one entry per
    declared field. *)
Lemma Value_FieldByName_settable T ts name :
  Type_Kind T = Struct -> length ts = length (Type_Fields T) ->
  match settableField T name with
  | Some (i, g) =>
      exists x, nth_error ts i = Some x
        /\ Value_FieldByName (ValueOf T (DStruct ts) flagAddressable) name
           = Ok (mkHandle (ValueOf (Typ g) x flagAddressable) i)
  | None =>
      exists h,
        Value_FieldByName (ValueOf T (DStruct ts) flagAddressable) name = Ok h
        /\ Value_IsValid (handle_value h) && Value_CanSet (handle_value h)
           = false
  end.
Proof.
  intros HK Hlen. unfold settableField, Value_FieldByName, Value_Field.
  simpl. rewrite HK.
  destruct (Type_FieldByName T name) as [i|] eqn:Ei;
    [|exists noHandle; split; reflexivity].
  destruct (nth_error (Type_Fields T) i) as [g|] eqn:Eg.
  - assert (Hi : i < length ts).
    { rewrite Hlen. apply nth_error_Some. congruence. }
    destruct (nth_error ts i) as [x|] eqn:Ex;
      [|apply nth_error_None in Ex; lia].
    destruct (IsExported g) eqn:Exp.
    + exists x. split; [first [exact Ex|reflexivity]|].
      simpl. rewrite ?Eg, ?Ex.
      unfold fieldValue, field_flag. now rewrite Exp.
    + simpl. rewrite ?Eg, ?Ex.
      eexists. split; [reflexivity|]. simpl. now rewrite Exp.
  - exfalso. unfold Type_FieldByName in Ei.
    destruct (String.eqb name ""); [discriminate|].
    apply find_field_Some in Ei as [_ [g [Hg _]]].
    rewrite Nat.sub_0_r in Hg. congruence.
Qed.

(** Storing a converted value in a settable field of the target. *)
Lemma Value_Set_settable T ts i g x source c :
  flagRO (match source with ValueOf _ _ fl => fl | ZeroValue => flag0 end)
  = false ->
  convertValue source (Typ g) = Ok c ->
  Value_Set (ValueOf T (DStruct ts) flagAddressable)
            (mkHandle (ValueOf (Typ g) x flagAddressable) i) c
  = Ok (ValueOf T (DStruct (set_nth ts i (Value_data c))) flagAddressable).
Proof.
  intros Hro Hc.
  destruct (convertValue_well_typed source (Typ g)) as [Hty _].
  destruct (Hty c Hc) as [Hfit Hro'].
  destruct c as [|V xd xfl]; [discriminate|].
  simpl in Hfit. unfold Value_Set. simpl.
  assert (Hx : flagRO xfl = false).
  { apply Hro'. destruct source; [reflexivity|exact Hro]. }
  now rewrite Hx, Hfit.
Qed.

(** The loop of [convertStruct] on a readable source, into a target that
    has one entry per declared field, is the assignment by name. *)
Lemma convertStruct_loop_assign T fl :
  Type_Kind T = Struct -> flagRO fl = false ->
  forall ds fs ts,
    length ts = length (Type_Fields T) ->
    convertStruct_loop convertValue fl fs ds
                       (ValueOf T (DStruct ts) flagAddressable)
    = match assign_fields convertValue (nameTarget T) fl fs ds ts with
      | (ts', Ok _) => Ok (ValueOf T (DStruct ts') flagAddressable)
      | (_, Err msg) => Err msg
      | (_, Panic p) => Panic p
      end.
Proof.
  intros HK Hro. induction ds as [|d ds IH]; intros [|f fs] ts Hlen;
    try reflexivity.
  cbn [convertStruct_loop assign_fields]. unfold nameTarget.
  unfold Value_CanInterface, fieldValue at 1, field_flag at 1.
  rewrite Hro. simpl orb. rewrite !negb_involutive.
  destruct (IsExported f) eqn:Ex; simpl negb; cbv iota; [|now apply IH].
  pose proof (@Value_FieldByName_settable T ts (Name f) HK Hlen) as Hf.
  destruct (settableField T (Name f)) as [[i g]|].
  - destruct Hf as [x [Hx ->]]. simpl.
    destruct (convertValue (fieldValue fl f d) (Typ g)) as [c|msg|p] eqn:Ec;
      try reflexivity.
    rewrite (@Value_Set_settable T ts i g x (fieldValue fl f d) c);
      [|simpl; now rewrite Hro, Ex|exact Ec].
    apply IH. now rewrite set_nth_length.
  - destruct Hf as [h [-> ->]]. now apply IH.
Qed.

(** The target field that [ConvertStructs] settles on, for a target that
    has one entry per declared field. *)
Lemma resolveTargetField_tagTarget tagName T ts f :
  Type_Kind T = Struct -> length ts = length (Type_Fields T) ->
  IsExported f = true -> Tag_Get (Tag f) tagName <> "" ->
  match tagTarget tagName T f with
  | Some (i, g) =>
      exists x, nth_error ts i = Some x
        /\ resolveTargetField tagName f
                              (ValueOf T (DStruct ts) flagAddressable)
           = Ok (Some (mkHandle (ValueOf (Typ g) x flagAddressable) i))
  | None =>
      resolveTargetField tagName f (ValueOf T (DStruct ts) flagAddressable)
      = Ok None
  end.
Proof.
  intros HK Hlen Hex Htag. unfold tagTarget, resolveTargetField.
  rewrite Hex. simpl andb.
  assert (Hn : String.eqb tagName "" = false).
  { apply String.eqb_neq. intros ->. now rewrite Tag_Get_empty_key in Htag. }
  apply String.eqb_neq in Htag. rewrite Hn, Htag. simpl negb. cbv iota.
  pose proof (@Value_FieldByName_settable T ts (Tag_Get (Tag f) tagName)
                HK Hlen) as H1.
  pose proof (@Value_FieldByName_settable T ts (Name f) HK Hlen) as H2.
  destruct (settableField T (Tag_Get (Tag f) tagName)) as [[i g]|].
  - destruct H1 as [x [Hx ->]]. exists x. split; [exact Hx|reflexivity].
  - destruct H1 as [h [-> Hh]].
    assert (Hh' : negb (Value_IsValid (handle_value h))
                  || negb (Value_CanSet (handle_value h)) = true).
    { rewrite <- negb_andb, Hh. reflexivity. }
    rewrite Hh'.
    destruct (settableField T (Name f)) as [[i g]|].
    + destruct H2 as [x [Hx ->]]. exists x. split; [exact Hx|reflexivity].
    + destruct H2 as [h2 [-> Hh2]].
      now rewrite <- negb_andb, Hh2.
Qed.

(** The loop of [ConvertStructs], into a target that has one entry per
    declared field, is the assignment by tag. *)
Lemma ConvertStructs_loop_assign tagName T :
  Type_Kind T = Struct ->
  forall ds fs ts,
    length ts = length (Type_Fields T) ->
    ConvertStructs_loop tagName fs ds (ValueOf T (DStruct ts) flagAddressable)
    = (let (ts', r) :=
         assign_fields convertValue (tagTarget tagName T) flag0 fs ds ts in
       (ValueOf T (DStruct ts') flagAddressable, r)).
Proof.
  intros HK. induction ds as [|d ds IH]; intros [|f fs] ts Hlen;
    try reflexivity.
  cbn [ConvertStructs_loop assign_fields]. unfold ConvertStructs_field.
  unfold Value_CanInterface, fieldValue at 1, field_flag at 1.
  simpl orb. rewrite negb_involutive.
  destruct (IsExported f) eqn:Ex;
    [|unfold tagTarget; rewrite Ex; simpl; now apply IH].
  simpl negb. simpl orb.
  destruct (String.eqb (Tag_Get (Tag f) tagName) "") eqn:Et;
    [unfold tagTarget; rewrite Ex, Et; simpl; now apply IH|].
  apply String.eqb_neq in Et.
  pose proof (@resolveTargetField_tagTarget tagName T ts f HK Hlen Ex Et)
    as Hr.
  destruct (tagTarget tagName T f) as [[i g]|].
  - destruct Hr as [x [Hx ->]]. simpl.
    destruct (convertValue (fieldValue flag0 f d) (Typ g)) as [c|msg|p] eqn:Ec;
      try reflexivity.
    rewrite (@Value_Set_settable T ts i g x (fieldValue flag0 f d) c);
      [|simpl; now rewrite Ex|exact Ec].
    apply IH. now rewrite set_nth_length.
  - rewrite Hr. now apply IH.
Qed.

(** *** Field-by-field assignment *)

Section assign_facts.

Variable conv : Value -> rtype -> result Value.
Variable resolve : StructField -> option (nat * StructField).
Variable fl : flag.

Lemma assign_fields_length ds :
  forall fs ts, length (fst (assign_fields conv resolve fl fs ds ts)) = length ts.
Proof.
  induction ds as [|d ds IH]; intros [|f fs] ts; try reflexivity.
  cbn [assign_fields]. destruct (resolve f) as [[i g]|]; [|apply IH].
  destruct (conv (fieldValue fl f d) (Typ g)); try reflexivity.
  rewrite IH. apply set_nth_length.
Qed.

(** A target field that no source field is sent to is left alone,
    whatever the outcome. *)
Lemma assign_fields_frame j ds :
  forall fs ts,
    (forall k f g, nth_error fs k = Some f -> k < length ds ->
                   resolve f <> Some (j, g)) ->
    nth_error (fst (assign_fields conv resolve fl fs ds ts)) j = nth_error ts j.
Proof.
  induction ds as [|d ds IH]; intros [|f fs] ts Hno; try reflexivity.
  cbn [assign_fields].
  assert (Hrest : forall k f' g, nth_error fs k = Some f' ->
                                 k < length ds -> resolve f' <> Some (j, g)).
  { intros k f' g Hk Hlt. apply (Hno (S k)); simpl; [exact Hk|lia]. }
  destruct (resolve f) as [[i g]|] eqn:Er; [|now apply IH].
  destruct (conv (fieldValue fl f d) (Typ g)); try reflexivity.
  rewrite IH by exact Hrest. apply set_nth_other.
  intros ->. apply (Hno 0 f g); simpl; [reflexivity|lia|exact Er].
Qed.

(** When the assignment completes, a target field holds the conversion
    of the last source field sent to it. *)
Lemma assign_fields_last ds :
  forall fs ts k f d j g,
    snd (assign_fields conv resolve fl fs ds ts) = Ok tt ->
    nth_error fs k = Some f -> nth_error ds k = Some d ->
    resolve f = Some (j, g) -> j < length ts ->
    (forall k' f' g', k < k' -> nth_error fs k' = Some f' ->
                      k' < length ds -> resolve f' <> Some (j, g')) ->
    exists c, conv (fieldValue fl f d) (Typ g) = Ok c
              /\ nth_error (fst (assign_fields conv resolve fl fs ds ts)) j = Some (Value_data c).
Proof.
  induction ds as [|d0 ds IH]; intros [|f0 fs] ts k f d j g Hok Hf Hd Hr Hj Hl;
    try (destruct k; discriminate).
  cbn [assign_fields] in *. destruct k as [|k].
  - injection Hf as ->. injection Hd as ->. rewrite Hr in *.
    destruct (conv (fieldValue fl f d) (Typ g)) as [c|m|p]; try discriminate.
    exists c. split; [reflexivity|].
    rewrite assign_fields_frame.
    + now apply set_nth_same.
    + intros k' f' g' Hk' Hlt. apply (Hl (S k')); simpl; [lia|exact Hk'|lia].
  - simpl in Hf, Hd.
    assert (Hl' : forall k' f' g', k < k' -> nth_error fs k' = Some f' ->
                    k' < length ds -> resolve f' <> Some (j, g')).
    { intros k' f' g' Hlt Hk' Hlen.
      apply (Hl (S k')); simpl; [lia|exact Hk'|lia]. }
    destruct (resolve f0) as [[i0 g0]|]; [|now apply (IH fs ts k f d j g)].
    destruct (conv (fieldValue fl f0 d0) (Typ g0)) as [c0|m|p];
      try discriminate.
    apply (IH fs _ k f d j g); auto. now rewrite set_nth_length.
Qed.

(** The assignment completes exactly when every conversion it asks for
    succeeds. *)
Lemma assign_fields_ok ds :
  forall fs ts,
    snd (assign_fields conv resolve fl fs ds ts) = Ok tt
    <-> (forall k f d i g,
           nth_error fs k = Some f -> nth_error ds k = Some d ->
           resolve f = Some (i, g) ->
           is_ok (conv (fieldValue fl f d) (Typ g)) = true).
Proof.
  induction ds as [|d0 ds IH]; intros [|f0 fs] ts; cbn [assign_fields].
  - split; [intros _ [|k] ?; discriminate|reflexivity].
  - split; [intros _ [|k] ?; discriminate|reflexivity].
  - split; [intros _ [|k] ?; discriminate|reflexivity].
  - split.
    + intros Hok [|k] f d i g Hf Hd Hr.
      * injection Hf as ->. injection Hd as ->. rewrite Hr in Hok.
        now destruct (conv (fieldValue fl f d) (Typ g)).
      * simpl in Hf, Hd. destruct (resolve f0) as [[i0 g0]|].
        -- destruct (conv (fieldValue fl f0 d0) (Typ g0)); try discriminate.
           eapply (proj1 (IH _ _) Hok); eauto.
        -- eapply (proj1 (IH _ _) Hok); eauto.
    + intros Hall.
      assert (Hrest : forall k f d i g,
                 nth_error fs k = Some f -> nth_error ds k = Some d ->
                 resolve f = Some (i, g) ->
                 is_ok (conv (fieldValue fl f d) (Typ g)) = true).
      { intros k. apply (Hall (S k)). }
      destruct (resolve f0) as [[i0 g0]|] eqn:Er; [|now apply IH].
      specialize (Hall 0 f0 d0 i0 g0 eq_refl eq_refl Er).
      destruct (conv (fieldValue fl f0 d0) (Typ g0)); try discriminate.
      now apply IH.
Qed.

End assign_facts.

(** The zero value of a record type has one zero entry per field. *)
Lemma Zero_fields_nth fs :
  length (Zero_fields fs) = length (fields_of fs)
  /\ forall j g, nth_error (fields_of fs) j = Some g ->
                 nth_error (Zero_fields fs) j = Some (Zero_data (Typ g)).
Proof.
  induction fs as [|n p t tag rest [IHl IHn]]; simpl.
  - split; [reflexivity|]. intros [|j] g; discriminate.
  - split; [now rewrite IHl|]. intros [|j] g; simpl.
    + now intros [= <-].
    + apply IHn.
Qed.

Lemma Zero_data_Struct T :
  Type_Kind T = Struct ->
  exists zs, Zero_data T = DStruct zs
    /\ length zs = length (Type_Fields T)
    /\ forall j g, nth_error (Type_Fields T) j = Some g ->
                   nth_error zs j = Some (Zero_data (Typ g)).
Proof.
  induction T; simpl; try discriminate.
  - intros HK. destruct (IHT HK) as [zs [Hz [Hl Hn]]]. exists zs.
    repeat split; assumption.
  - intros _. exists (Zero_fields fields).
    destruct (Zero_fields_nth fields) as [Hl Hn]. repeat split; assumption.
Qed.

Lemma find_field_first fs name :
  forall k j g,
    nth_error fs j = Some g -> Name g = name ->
    (forall j' g', j' < j -> nth_error fs j' = Some g' -> Name g' <> name) ->
    find_field fs name k = Some (k + j).
Proof.
  induction fs as [|f fs IH]; intros k [|j] g Hg Hn Hfirst; try discriminate.
  - simpl in *. injection Hg as ->. apply String.eqb_eq in Hn.
    rewrite Hn. f_equal. lia.
  - simpl in *.
    assert (H0 : Name f <> name) by (apply (Hfirst 0); [lia|reflexivity]).
    apply String.eqb_neq in H0. rewrite H0.
    replace (k + S j) with (S k + j) by lia.
    apply (IH (S k) j g Hg Hn).
    intros j' g' Hlt. apply (Hfirst (S j')). lia.
Qed.

Lemma settableField_first T name j g :
  nth_error (Type_Fields T) j = Some g -> Name g = name -> name <> "" ->
  IsExported g = true ->
  (forall j' g', j' < j -> nth_error (Type_Fields T) j' = Some g' ->
                 Name g' <> name) ->
  settableField T name = Some (j, g).
Proof.
  intros Hg Hn Hne Hex Hfirst. unfold settableField, Type_FieldByName.
  apply String.eqb_neq in Hne. rewrite Hne.
  rewrite (@find_field_first _ name 0 j g Hg Hn Hfirst). simpl.
  now rewrite Hg, Hex.
Qed.

Lemma nameTarget_Some T f j g :
  nameTarget T f = Some (j, g) ->
  IsExported f = true /\ nth_error (Type_Fields T) j = Some g
  /\ Name g = Name f /\ IsExported g = true.
Proof.
  unfold nameTarget. destruct (IsExported f); [|discriminate].
  intros H. apply settableField_Some in H. tauto.
Qed.

Lemma tagTarget_Some tagName T f j g :
  tagTarget tagName T f = Some (j, g) ->
  IsExported f = true /\ Tag_Get (Tag f) tagName <> ""
  /\ nth_error (Type_Fields T) j = Some g /\ IsExported g = true
  /\ (Name g = Tag_Get (Tag f) tagName \/ Name g = Name f).
Proof.
  unfold tagTarget. destruct (IsExported f); [|discriminate].
  destruct (String.eqb (Tag_Get (Tag f) tagName) "") eqn:Et; [discriminate|].
  apply String.eqb_neq in Et. simpl.
  destruct (settableField T (Tag_Get (Tag f) tagName)) as [[i' g']|] eqn:E1.
  - intros [= -> ->]. apply settableField_Some in E1. tauto.
  - intros E2. apply settableField_Some in E2. tauto.
Qed.

(** [convertStruct] on a readable record, as an assignment into the zero
    value of the target type. *)
Lemma convertStruct_assign st ds fl T :
  Type_Kind st = Struct -> Type_Kind T = Struct -> flagRO fl = false ->
  convertStruct (ValueOf st (DStruct ds) fl) T
  = match assign_fields convertValue (nameTarget T) fl (Type_Fields st) ds
                        (struct_data (Zero_data T)) with
    | (ts', Ok _) => Ok (ValueOf T (DStruct ts') flagAddressable)
    | (_, Err msg) => Err msg
    | (_, Panic p) => Panic p
    end.
Proof.
  intros Hs HT Hro. unfold convertStruct, convertStructWith, Value_NumField.
  simpl. rewrite Hs.
  destruct (Zero_data_Struct T HT) as [zs [Hz [Hl _]]]. rewrite Hz.
  now apply convertStruct_loop_assign.
Qed.

(** X2. [convertStruct] copies by field name.  On a readable record and a
    target type of kind struct, a successful call returns a fresh
    addressable record of the target type in which every exported target
    field that has an exported source field of the same name holds the
    conversion of that source field to the target field's type. *)
Theorem convertStruct_copies_by_name
    (st : rtype) (ds : list data) (fl : flag) (T : rtype) (v : Value) :
  Type_Kind st = Struct -> Type_Kind T = Struct -> flagRO fl = false ->
  convertStruct (ValueOf st (DStruct ds) fl) T = Ok v ->
  exists ts,
    v = ValueOf T (DStruct ts) flagAddressable
    /\ length ts = length (Type_Fields T)
    /\ forall k f d j g,
         nth_error (Type_Fields st) k = Some f -> nth_error ds k = Some d ->
         nth_error (Type_Fields T) j = Some g ->
         Name g = Name f -> Name f <> "" ->
         IsExported f = true -> IsExported g = true ->
         (forall j' g', j' < j -> nth_error (Type_Fields T) j' = Some g' ->
                        Name g' <> Name f) ->
         (forall k' f', k < k' -> nth_error (Type_Fields st) k' = Some f' ->
                        Name f' <> Name f) ->
         exists c, convertValue (fieldValue fl f d) (Typ g) = Ok c
                   /\ nth_error ts j = Some (Value_data c).
Proof.
  intros Hs HT Hro. rewrite convertStruct_assign by assumption.
  destruct (Zero_data_Struct T HT) as [zs [Hz [Hl _]]]. rewrite Hz. simpl.
  pose proof (assign_fields_length convertValue (nameTarget T) fl ds
                (Type_Fields st) zs) as Hlen.
  pose proof (@assign_fields_last convertValue (nameTarget T) fl ds
                (Type_Fields st) zs) as Hlast.
  destruct (assign_fields convertValue (nameTarget T) fl (Type_Fields st) ds zs)
    as [ts [[]|msg|p]]; try discriminate.
  intros [= <-]. exists ts. simpl in Hlen, Hlast.
  split; [reflexivity|]. split; [congruence|].
  intros k f d j g Hf Hd Hg Hn Hne Hxf Hxg Hfirst Hlater.
  apply (Hlast k f d j g eq_refl Hf Hd).
  - unfold nameTarget. rewrite Hxf. now apply settableField_first.
  - rewrite Hl. apply nth_error_Some. congruence.
  - intros k' f' g' Hlt Hf' _ Hr. apply nameTarget_Some in Hr.
    destruct Hr as (_ & Hg' & Hn' & _).
    apply (Hlater k' f' Hlt Hf'). congruence.
Qed.

Lemma convertStruct_copies_by_name_witness :
  exists ts,
    ValueOf examples.Twin examples.populated flagAddressable
    = ValueOf examples.Twin (DStruct ts) flagAddressable
    /\ nth_error ts 1 = Some (DString "example").
Proof.
  destruct (@convertStruct_copies_by_name examples.Plain
              [DInt 42; DString "example"] flag0 examples.Twin
              (ValueOf examples.Twin examples.populated flagAddressable))
    as (ts & Hv & _ & Hcopy); try reflexivity.
  exists ts. split; [exact Hv|].
  destruct (Hcopy 1 (mkStructField "B" "" examples.tString [])
                  (DString "example") 1
                  (mkStructField "B" "" examples.tString []))
    as (c & Hc & Hnth); try reflexivity; try discriminate.
  - intros [|[|j']] g' Hlt; simpl; try lia. intros [= <-]. discriminate.
  - intros [|[|[|k']]] f' Hlt; simpl; try lia; discriminate.
  - injection Hc as <-. exact Hnth.
Defined.

(** X3. The other fields of the record that [convertStruct] returns hold
    the zero value of their type: the unexported target fields, and the
    target fields that no exported source field is named like. *)
Theorem convertStruct_other_fields_zero
    (st : rtype) (ds : list data) (fl : flag) (T : rtype) (v : Value) :
  Type_Kind st = Struct -> Type_Kind T = Struct -> flagRO fl = false ->
  convertStruct (ValueOf st (DStruct ds) fl) T = Ok v ->
  forall j g,
    nth_error (Type_Fields T) j = Some g ->
    IsExported g = false
    \/ (forall k f, nth_error (Type_Fields st) k = Some f ->
                    IsExported f = true -> Name f <> Name g) ->
    nth_error (struct_data (Value_data v)) j = Some (Zero_data (Typ g)).
Proof.
  intros Hs HT Hro. rewrite convertStruct_assign by assumption.
  destruct (Zero_data_Struct T HT) as [zs [Hz [Hl Hzero]]]. rewrite Hz. simpl.
  pose proof (fun j => @assign_fields_frame convertValue (nameTarget T) fl j
                ds (Type_Fields st) zs) as Hframe.
  destruct (assign_fields convertValue (nameTarget T) fl (Type_Fields st) ds zs)
    as [ts [[]|msg|p]]; try discriminate.
  intros [= <-] j g Hg Hno. simpl in *.
  rewrite Hframe; [now apply Hzero|].
  intros k f g' Hf _ Hr. apply nameTarget_Some in Hr.
  destruct Hr as (Hxf & Hg' & Hn & Hxg).
  assert (g' = g) by congruence. subst g'.
  destruct Hno as [Hno|Hno]; [congruence|].
  apply (Hno k f Hf Hxf). congruence.
Qed.

Lemma convertStruct_other_fields_zero_witness :
  nth_error (struct_data (Value_data
     (ValueOf examples.Wanted (DStruct [DInt 42; DString "example"; DInt 0])
              flagAddressable))) 2
  = Some (Zero_data examples.tInt).
Proof.
  apply (@convertStruct_other_fields_zero examples.Plain
           [DInt 42; DString "example"] flag0 examples.Wanted
           (ValueOf examples.Wanted
                    (DStruct [DInt 42; DString "example"; DInt 0])
                    flagAddressable)
           eq_refl eq_refl eq_refl eq_refl 2
           (mkStructField "C" "" examples.tInt []) eq_refl).
  right. intros [|[|[|k]]] f; simpl; try discriminate;
    intros [= <-] _; discriminate.
Defined.



(** The loop of [convertStruct] against a target that is no record. *)
Lemma convertStruct_loop_wrong_kind
    (conv : Value -> rtype -> result Value) (fl : flag) (target : Value) :
  Value_Kind target <> Struct ->
  forall (ds : list data) (fs : list StructField),
    length ds = length fs ->
    convertStruct_loop conv fl fs ds target
    = if negb (flagRO fl) && existsb IsExported fs
      then Panic (OnWrongKind "Value.FieldByName")
      else Ok target.
Proof.
  intros HK. induction ds as [|d ds IH]; intros [|f fs] Hlen;
    try discriminate.
  - simpl. now rewrite andb_false_r.
  - simpl. rewrite (IH fs) by (simpl in Hlen; lia).
    destruct (flagRO fl); [reflexivity|]. simpl.
    destruct (IsExported f); [|reflexivity]. simpl.
    rewrite Value_FieldByName_not_struct by exact HK. reflexivity.
Qed.

(** X5. A record converted to a type that is no record: the call panics
    in [FieldByName] as soon as the source is readable and has an exported
    field; otherwise it returns the zero value of the target type,
    whatever that type is, and no error either way. *)
Theorem convertValue_struct_to_other_kind
    (st : rtype) (ds : list data) (fl : flag) (T : rtype) :
  Type_Kind st = Struct -> Type_Kind T <> Struct ->
  length ds = length (Type_Fields st) ->
  convertValue (ValueOf st (DStruct ds) fl) T
  = if negb (flagRO fl) && existsb IsExported (Type_Fields st)
    then Panic (OnWrongKind "Value.FieldByName")
    else Ok (ValueOf T (Zero_data T) flagAddressable).
Proof.
  intros Hs HT Hlen. rewrite convertValue_unfold. simpl. rewrite Hs.
  unfold convertStruct, convertStructWith, Value_NumField. simpl.
  rewrite Hs. now apply convertStruct_loop_wrong_kind.
Qed.

Lemma convertValue_struct_to_other_kind_witness :
  convertValue (ValueOf examples.Plain examples.populated flag0)
               examples.tString
  = Panic (OnWrongKind "Value.FieldByName").
Proof.
  apply (@convertValue_struct_to_other_kind examples.Plain
           [DInt 42; DString "example"] flag0 examples.tString);
    [reflexivity|discriminate|reflexivity].
Defined.

(** [ConvertStructs] on two records, as an assignment into the target's
    fields. *)
Lemma ConvertStructs_assign S T source ts tagName :
  Type_Kind S = Struct -> Type_Kind T = Struct ->
  length ts = length (Type_Fields T) ->
  ConvertStructs S T source (DStruct ts) tagName
  = (let (ts', r) :=
       assign_fields convertValue (tagTarget tagName T) flag0
                     (Type_Fields S) (struct_data source) ts in
     (ValueOf T (DStruct ts') flagAddressable, r)).
Proof.
  intros Hs HT Hlen. unfold ConvertStructs. simpl. rewrite Hs, HT. simpl.
  now apply ConvertStructs_loop_assign.
Qed.

(** X6. [ConvertStructs] changes only the fields it assigns.  Whatever the
    outcome (success, error or panic), the target keeps its type and its
    number of fields, and a target field keeps its value when it is
    unexported or when no exported source field with a value under
    [tagName] carries its name, as that tag value or as its own name. *)
Theorem ConvertStructs_keeps_other_fields
    (S T : rtype) (source : data) (ts : list data) (tagName : string) :
  length ts = length (Type_Fields T) ->
  exists ts',
    fst (ConvertStructs S T source (DStruct ts) tagName)
    = ValueOf T (DStruct ts') flagAddressable
    /\ length ts' = length ts
    /\ forall j g,
         nth_error (Type_Fields T) j = Some g ->
         IsExported g = false
         \/ (forall k f, nth_error (Type_Fields S) k = Some f ->
               IsExported f = true -> Tag_Get (Tag f) tagName <> "" ->
               Tag_Get (Tag f) tagName <> Name g /\ Name f <> Name g) ->
         nth_error ts' j = nth_error ts j.
Proof.
  intros Hlen.
  destruct (Kind_eq_dec (Type_Kind S) Struct) as [Hs|Hs];
    [destruct (Kind_eq_dec (Type_Kind T) Struct) as [HT|HT]|].
  - rewrite ConvertStructs_assign by assumption.
    pose proof (assign_fields_length convertValue (tagTarget tagName T) flag0
                  (struct_data source) (Type_Fields S) ts) as Hl.
    pose proof (fun j => @assign_fields_frame convertValue
                  (tagTarget tagName T) flag0 j (struct_data source)
                  (Type_Fields S) ts) as Hframe.
    destruct (assign_fields convertValue (tagTarget tagName T) flag0
                (Type_Fields S) (struct_data source) ts) as [ts' r].
    simpl in *. exists ts'. split; [reflexivity|]. split; [exact Hl|].
    intros j g Hg Hno. apply Hframe. intros k f g' Hf _ Hr.
    apply tagTarget_Some in Hr. destruct Hr as (Hxf & Htag & Hg' & Hxg & Hn).
    assert (g' = g) by congruence. subst g'.
    destruct Hno as [Hno|Hno]; [congruence|].
    destruct (Hno k f Hf Hxf Htag) as [H1 H2].
    destruct Hn as [Hn|Hn]; congruence.
  - exists ts. unfold ConvertStructs. simpl.
    apply Kind_eqb_neq in HT. rewrite HT, orb_true_r. simpl. auto.
  - exists ts. unfold ConvertStructs. simpl.
    apply Kind_eqb_neq in Hs. rewrite Hs. simpl. auto.
Qed.

Lemma ConvertStructs_keeps_other_fields_witness :
  exists ts',
    fst (ConvertStructs examples.Source examples.Target examples.populated
                        (DStruct [DInt 7; DString "kept"]) "custom_tag")
    = ValueOf examples.Target (DStruct ts') flagAddressable
    /\ nth_error ts' 1 = Some (DString "kept").
Proof.
  destruct (@ConvertStructs_keeps_other_fields examples.Source examples.Target
              examples.populated [DInt 7; DString "kept"] "custom_tag"
              eq_refl) as (ts' & Hv & _ & Hkeep).
  exists ts'. split; [exact Hv|].
  apply (Hkeep 1 (mkStructField "B" "" examples.tString []) eq_refl).
  right. intros [|[|[|k]]] f; simpl; try discriminate; intros [= <-] _ Htag.
  - split; discriminate.
  - now contradiction Htag.
Defined.

(** X7. [ConvertStructs] assigns by tag, then by name.  After a successful
    call between two records, the target field that an exported source
    field with a value under [tagName] reaches (the settable field named
    by the tag value or, when there is none, the settable field of the
    source field's own name) holds the conversion of that source field,
    provided no later source field reaches the same target field. *)
Theorem ConvertStructs_assigns_by_tag
    (S T : rtype) (source : data) (ts : list data) (tagName : string)
    (v : Value) :
  Type_Kind S = Struct -> Type_Kind T = Struct ->
  length ts = length (Type_Fields T) ->
  ConvertStructs S T source (DStruct ts) tagName = (v, Ok tt) ->
  forall k f d j g,
    nth_error (Type_Fields S) k = Some f ->
    nth_error (struct_data source) k = Some d ->
    IsExported f = true -> Tag_Get (Tag f) tagName <> "" ->
    settableField T (Tag_Get (Tag f) tagName) = Some (j, g)
    \/ (settableField T (Tag_Get (Tag f) tagName) = None
        /\ settableField T (Name f) = Some (j, g)) ->
    (forall k' f' g', k < k' -> nth_error (Type_Fields S) k' = Some f' ->
                      tagTarget tagName T f' <> Some (j, g')) ->
    exists c, convertValue (fieldValue flag0 f d) (Typ g) = Ok c
              /\ nth_error (struct_data (Value_data v)) j
                 = Some (Value_data c).
Proof.
  intros Hs HT Hlen. rewrite ConvertStructs_assign by assumption.
  pose proof (@assign_fields_last convertValue (tagTarget tagName T) flag0
                (struct_data source) (Type_Fields S) ts) as Hlast.
  destruct (assign_fields convertValue (tagTarget tagName T) flag0
              (Type_Fields S) (struct_data source) ts) as [ts' r].
  intros [= <- ->] k f d j g Hf Hd Hxf Htag Hr Hlater. simpl in *.
  assert (Hres : tagTarget tagName T f = Some (j, g)).
  { unfold tagTarget. apply String.eqb_neq in Htag. rewrite Hxf, Htag. simpl.
    destruct Hr as [->|[-> ->]]; reflexivity. }
  apply (Hlast k f d j g eq_refl Hf Hd Hres).
  - apply tagTarget_Some in Hres. destruct Hres as (_ & _ & Hg & _).
    rewrite Hlen. apply nth_error_Some. congruence.
  - intros k' f' g' Hlt Hf' _. now apply (Hlater k' f' g').
Qed.

Lemma ConvertStructs_assigns_by_tag_witness :
  exists c,
    convertValue (fieldValue flag0
                    (mkStructField "A" "" examples.tInt [("custom_tag", "X")])
                    (DInt 42)) examples.tInt = Ok c
    /\ nth_error [DInt 42; DString ""] 0 = Some (Value_data c).
Proof.
  apply (@ConvertStructs_assigns_by_tag examples.Source examples.Target
           examples.populated [DInt 0; DString ""] "custom_tag"
           (ValueOf examples.Target (DStruct [DInt 42; DString ""])
                    flagAddressable)
           eq_refl eq_refl eq_refl eq_refl 0
           (mkStructField "A" "" examples.tInt [("custom_tag", "X")])
           (DInt 42) 0 (mkStructField "X" "" examples.tInt [])
           eq_refl eq_refl eq_refl).
  - discriminate.
  - left. reflexivity.
  - intros [|[|[|k']]] f' g' Hlt; simpl; try lia; try discriminate.
    intros [= <-]. discriminate.
Defined.

(** X8. [ConvertStructs] between two records returns no error and does
    not panic exactly when every conversion it asks for succeeds: the
    conversion of each exported source field that has a value under
    [tagName] and reaches a target field, to the type of that field. *)
Theorem ConvertStructs_succeeds_iff
    (S T : rtype) (source : data) (ts : list data) (tagName : string) :
  Type_Kind S = Struct -> Type_Kind T = Struct ->
  length ts = length (Type_Fields T) ->
  snd (ConvertStructs S T source (DStruct ts) tagName) = Ok tt
  <-> (forall k f d j g,
         nth_error (Type_Fields S) k = Some f ->
         nth_error (struct_data source) k = Some d ->
         tagTarget tagName T f = Some (j, g) ->
         is_ok (convertValue (fieldValue flag0 f d) (Typ g)) = true).
Proof.
  intros Hs HT Hlen. rewrite ConvertStructs_assign by assumption.
  pose proof (assign_fields_ok convertValue (tagTarget tagName T) flag0
                (struct_data source) (Type_Fields S) ts) as Hok.
  destruct (assign_fields convertValue (tagTarget tagName T) flag0
              (Type_Fields S) (struct_data source) ts) as [ts' r].
  exact Hok.
Qed.

Lemma ConvertStructs_succeeds_iff_witness :
  snd (ConvertStructs examples.Source examples.Target examples.populated
                      (DStruct [DInt 0; DString ""]) "custom_tag") = Ok tt.
Proof.
  apply (@ConvertStructs_succeeds_iff examples.Source examples.Target
           examples.populated [DInt 0; DString ""] "custom_tag"
           eq_refl eq_refl eq_refl).
  intros [|[|[|k]]] f d j g; simpl; try discriminate.
  - intros [= <-] [= <-] [= <- <-]. reflexivity.
  - intros [= <-] _. discriminate.
Defined.

#[local] Arguments Value_MapIndex : simpl never.

(** *** Equality of keys is a partial equivalence *)

Lemma float_equal_sym e m a b : float_equal e m a b = float_equal e m b a.
Proof.
  unfold float_equal.
  rewrite (orb_comm (float_isNaN e m a)), (andb_comm (float_isZero e m a)),
    (Z.eqb_sym a b).
  reflexivity.
Qed.

Lemma float_equal_trans e m a b c :
  float_equal e m a b = true -> float_equal e m b c = true ->
  float_equal e m a c = true.
Proof.
  unfold float_equal.
  destruct (float_isNaN e m a), (float_isNaN e m b), (float_isNaN e m c);
    simpl; try discriminate.
  destruct (float_isZero e m a) eqn:Za, (float_isZero e m b) eqn:Zb,
    (float_isZero e m c) eqn:Zc; simpl; try reflexivity;
    intros H1 H2;
    try (apply Z.eqb_eq in H1; subst); try (apply Z.eqb_eq in H2; subst);
    try congruence; apply Z.eqb_refl.
Qed.

Lemma basic_equal_sym k a b : basic_equal k a b = basic_equal k b a.
Proof.
  destruct k, a, b; simpl; try reflexivity;
    first [ now destruct b, b0
          | apply String.eqb_sym
          | apply float_equal_sym
          | apply Z.eqb_sym
          | now rewrite (float_equal_sym _ _ re), (float_equal_sym _ _ im) ].
Qed.

Lemma basic_equal_trans k a b c :
  basic_equal k a b = true -> basic_equal k b c = true ->
  basic_equal k a c = true.
Proof.
  destruct k; destruct a; simpl; try discriminate;
    destruct b; simpl; try discriminate;
    destruct c; simpl; try discriminate.
  all: try (intros H1 H2; apply Z.eqb_eq in H1, H2; apply Z.eqb_eq;
            congruence).
  all: try (apply float_equal_trans).
  - intros H1 H2. apply Bool.eqb_prop in H1, H2. subst. apply Bool.eqb_reflx.
  - intros H1 H2. apply andb_true_iff in H1 as [H1 H1'], H2 as [H2 H2'].
    apply andb_true_iff. split; eapply float_equal_trans; eauto.
  - intros H1 H2. apply andb_true_iff in H1 as [H1 H1'], H2 as [H2 H2'].
    apply andb_true_iff. split; eapply float_equal_trans; eauto.
  - intros H1 H2. apply String.eqb_eq in H1, H2. subst. apply String.eqb_refl.
Qed.

Lemma key_equal_sym a : forall t b, key_equal t a b = key_equal t b a.
Proof.
  induction a using data_nested_ind; intros t b'.
  all: destruct b'; simpl; destruct (underlying t) eqn:Eu; try reflexivity;
    try apply basic_equal_sym.
  - destruct p as [[x ?]|], pointee as [[y ?]|]; try reflexivity.
    apply Nat.eqb_sym.
  - revert elems. induction H as [|x xs Hx _ IH]; intros [|y ys];
      try reflexivity.
    now rewrite Hx, IH.
  - generalize (fields_of fields0). revert fields.
    induction H as [|x xs Hx _ IH]; intros [|y ys] [|f fs]; try reflexivity.
    now rewrite Hx, IH.
Qed.

Lemma key_equal_trans a :
  forall t b c,
    key_equal t a b = true -> key_equal t b c = true ->
    key_equal t a c = true.
Proof.
  induction a using data_nested_ind; intros t b' c'.
  all: destruct b'; simpl; destruct (underlying t) eqn:Eu; try discriminate.
  all: try apply basic_equal_trans.
  - destruct c'; try discriminate.
    destruct p as [[x ?]|], pointee as [[y ?]|], pointee0 as [[z ?]|];
      try discriminate; try reflexivity.
    intros H1 H2. apply Nat.eqb_eq in H1, H2. apply Nat.eqb_eq. congruence.
  - destruct c' as [| | | | | |zs| | |]; try (intros _; discriminate).
    revert elems zs. induction H as [|x xs Hx _ IH];
      intros [|y ys] [|z zs]; try discriminate; try reflexivity.
    intros H1 H2. apply andb_true_iff in H1 as [H1 H1'], H2 as [H2 H2'].
    apply andb_true_iff. split; [eapply Hx; eauto|eapply IH; eauto].
  - destruct c' as [| | | | | | | | |zs]; try (intros _; discriminate).
    generalize (fields_of fields0). revert fields zs.
    induction H as [|x xs Hx _ IH];
      intros [|y ys] [|z zs] [|f fs]; try discriminate; try reflexivity.
    intros H1 H2. apply andb_true_iff in H1 as [H1 H1'], H2 as [H2 H2'].
    apply andb_true_iff. split; [|eapply IH; eauto].
    destruct (Name f =? "_"); [reflexivity|]. simpl in *. eapply Hx; eauto.
Qed.

Lemma key_equal_refl_l t a b : key_equal t a b = true -> key_equal t a a = true.
Proof.
  intros H. apply key_equal_trans with (b := b); [exact H|].
  now rewrite key_equal_sym.
Qed.

Lemma key_equal_refl_r t a b : key_equal t a b = true -> key_equal t b b = true.
Proof.
  intros H. apply key_equal_trans with (b := a); [|exact H].
  now rewrite key_equal_sym.
Qed.

(** Equal keys are equal to the same keys. *)
Lemma key_equal_congr_l t a b c :
  key_equal t a b = true -> key_equal t a c = key_equal t b c.
Proof.
  intros H. destruct (key_equal t b c) eqn:E.
  - eapply key_equal_trans; eauto.
  - destruct (key_equal t a c) eqn:E'; [|reflexivity].
    rewrite <- E. symmetry. apply key_equal_trans with (b := a); [|exact E'].
    now rewrite key_equal_sym.
Qed.


Lemma Type_AssignableTo_underlying V T :
  Type_AssignableTo V T = true -> underlying V = underlying T.
Proof.
  unfold Type_AssignableTo, directlyAssignable.
  destruct (rtype_eqb T V) eqn:E; [apply rtype_eqb_eq in E; now subst|].
  destruct ((hasName T && hasName V)
            || negb (Kind_eqb (Type_Kind T) (Type_Kind V))); [discriminate|].
  intros H. apply rtype_eqb_eq in H. congruence.
Qed.

(** *** The map strategy in closed form *)

Lemma Type_Kind_Map_Key_Elem T :
  Type_Kind T = Map -> exists kt et, Type_Key T = Ok kt /\ Type_Elem T = Ok et.
Proof.
  unfold Type_Key, Type_Elem. induction T; simpl; try discriminate; eauto.
Qed.

(** A converted value of a readable source is valid, readable and fits. *)
Lemma convertValue_readable st d ro T c :
  convertValue (ValueOf st d (mkFlag false ro)) T = Ok c ->
  exists V cd cfl, c = ValueOf V cd cfl
    /\ flagRO cfl = false /\ Type_AssignableTo V T = true.
Proof.
  intros Hc.
  destruct (convertValue_well_typed (ValueOf st d (mkFlag false ro)) T)
    as [Hty _].
  destruct (Hty c Hc) as [Hfit Hro]. destruct c as [|V cd cfl]; [discriminate|].
  exists V, cd, cfl. repeat split; auto.
Qed.

(** So is what the conversion of [MapIndex]'s value gives. *)
Lemma convertMapIndex_readable sk se fl k et all c :
  flagRO fl = false ->
  convertMapIndex convertValue sk se fl k et all = Ok c ->
  exists V cd cfl, c = ValueOf V cd cfl
    /\ flagRO cfl = false /\ Type_AssignableTo V et = true.
Proof.
  intros Hro Hc.
  destruct (@convertMapIndex_typed convertValue sk se fl k et all) as [Hty _].
  - apply Forall_forall. intros [k' x'] _.
    split; apply convertValue_well_typed_on.
  - apply convertValue_ZeroValue_typed.
  - destruct (Hty c Hc) as [Hfit Hro'].
    destruct c as [|V cd cfl]; [discriminate|].
    exists V, cd, cfl. repeat split; auto.
Qed.

Lemma convertMap_loop_closed T kt et sk se fl all :
  Type_Kind T = Map -> Type_Key T = Ok kt -> Type_Elem T = Ok et ->
  flagRO fl = false ->
  forall es ms,
    convertMap_loop convertValue T sk se fl all es
                    (ValueOf T (DMap ms false) flag0)
    = (cs <- mapM (convertEntry sk se fl kt et all) es ;;
       Ok (ValueOf T (DMap (map_inserts kt ms cs) false) flag0)).
Proof.
  intros HK Hkt Het Hro. induction es as [|[k v] es IH]; intros ms;
    [reflexivity|].
  cbn [convertMap_loop mapM]. unfold convertEntry at 1. rewrite Hkt, Het.
  cbn [fst snd].
  destruct (convertValue (ValueOf sk k (mkFlag (flagRO fl) false)) kt)
    as [ck|msg|p] eqn:Eck; try reflexivity.
  destruct (convertMapIndex convertValue sk se fl k et all)
    as [cv|msg|p] eqn:Ecv; try reflexivity.
  rewrite Hro in Eck.
  destruct (convertValue_readable _ _ _ _ Eck)
    as (K & kd & kfl & -> & Hkro & Hka).
  destruct (convertMapIndex_readable _ _ _ _ _ _ Hro Ecv)
    as (E & ed & efl & -> & Hero & Hea).
  unfold Value_SetMapIndex. rewrite HK, Hkt, Het, Hkro, Hero, Hka, Hea.
  simpl. rewrite IH.
  destruct (mapM (convertEntry sk se fl kt et all) es); reflexivity.
Qed.

(** [convertMap] on a readable map, against a target type of kind map. *)
Lemma convertMap_closed st es isnil fl T sk se kt et :
  Type_Kind st = Map -> Type_Key st = Ok sk -> Type_Elem st = Ok se ->
  Type_Kind T = Map -> Type_Key T = Ok kt -> Type_Elem T = Ok et ->
  flagRO fl = false ->
  convertMap (ValueOf st (DMap es isnil) fl) T
  = (cs <- mapM (convertEntry sk se fl kt et es) es ;;
     Ok (ValueOf T (DMap (map_inserts kt [] cs) false) flag0)).
Proof.
  intros Hs Hsk Hse HT Hkt Het Hro.
  unfold convertMap, convertMapWith, MakeMapWithSize. simpl.
  rewrite HT, Hs, Hsk, Hse. simpl.
  now apply convertMap_loop_closed.
Qed.

(** [convertEntry] in the words of the code. *)
Lemma convertEntry_MapIndex st sk se fl kt et all isnil k x :
  Type_Kind st = Map -> Type_Key st = Ok sk -> Type_Elem st = Ok se ->
  convertEntry sk se fl kt et all (k, x)
  = (let source := ValueOf st (DMap all isnil) fl in
     let key := ValueOf sk k (mkFlag (flagRO fl) false) in
     convertedKey <- convertValue key kt ;;
     sourceValue <- Value_MapIndex source key ;;
     convertedValue <- convertValue sourceValue et ;;
     Ok (Value_data convertedKey, Value_data convertedValue)).
Proof.
  intros Hs Hsk Hse. unfold convertEntry. cbn [fst snd]. cbv zeta.
  rewrite (@convertMapIndex_MapIndex convertValue st sk se fl all isnil k et
             Hs Hsk Hse).
  destruct (convertValue (ValueOf sk k (mkFlag (flagRO fl) false)) kt);
    try reflexivity.
  now destruct (Value_MapIndex _ _).
Qed.

(** *** Map entries *)

Lemma map_find_In kt ms k v :
  map_find kt ms k = Some v ->
  exists k', In (k', v) ms /\ key_equal kt k' k = true.
Proof.
  induction ms as [|[k0 v0] ms IH]; simpl; [discriminate|].
  destruct (key_equal kt k0 k) eqn:E.
  - intros [= <-]. exists k0. auto.
  - intros H. destruct (IH H) as (k' & Hin & Hk). exists k'. auto.
Qed.

Lemma map_find_None kt ms k :
  map_find kt ms k = None <->
  forall k' v', In (k', v') ms -> key_equal kt k' k = false.
Proof.
  induction ms as [|[k0 v0] ms IH]; simpl.
  - split; [intros _ ? ? []|reflexivity].
  - destruct (key_equal kt k0 k) eqn:E.
    + split; [discriminate|]. intros H.
      specialize (H k0 v0 (or_introl eq_refl)). congruence.
    + rewrite IH. split.
      * intros H k' v' [[= <- <-]|Hin]; [exact E|eauto].
      * intros H k' v' Hin. eauto.
Qed.

Lemma map_find_insert kt ms k v k' :
  map_find kt (map_insert kt ms k v) k'
  = if key_equal kt k k' then Some v else map_find kt ms k'.
Proof.
  induction ms as [|[k0 v0] ms IH]; simpl; [reflexivity|].
  destruct (key_equal kt k0 k) eqn:E0; simpl.
  - assert (Hc : key_equal kt k0 k' = key_equal kt k k')
      by now apply key_equal_congr_l.
    destruct (needKeyUpdate kt); rewrite ?Hc; now destruct (key_equal kt k k').
  - rewrite IH. destruct (key_equal kt k0 k') eqn:E1; [|reflexivity].
    destruct (key_equal kt k k') eqn:E2; [|reflexivity].
    exfalso. assert (key_equal kt k0 k = true); [|congruence].
    apply key_equal_trans with (b := k'); [exact E1|].
    now rewrite key_equal_sym.
Qed.

Lemma map_insert_length kt ms k v :
  length (map_insert kt ms k v) <= S (length ms).
Proof.
  induction ms as [|[k0 v0] ms IH]; simpl; [lia|].
  destruct (key_equal kt k0 k); simpl; lia.
Qed.

Lemma map_inserts_length kt kvs :
  forall ms, length (map_inserts kt ms kvs) <= length ms + length kvs.
Proof.
  induction kvs as [|[k v] kvs IH]; intros ms; simpl; [lia|].
  change (map_inserts kt ms ((k, v) :: kvs))
    with (map_inserts kt (map_insert kt ms k v) kvs).
  pose proof (IH (map_insert kt ms k v)).
  pose proof (map_insert_length kt ms k v). lia.
Qed.

Lemma map_inserts_app kt ms l1 l2 :
  map_inserts kt ms (l1 ++ l2) = map_inserts kt (map_inserts kt ms l1) l2.
Proof. unfold map_inserts. apply fold_left_app. Qed.

Lemma keys_distinct_cons kt k v ms :
  keys_distinct kt ((k, v) :: ms) = true
  <-> (forall k' v', In (k', v') ms -> key_equal kt k k' = false)
      /\ keys_distinct kt ms = true.
Proof.
  simpl. rewrite andb_true_iff, forallb_forall. split.
  - intros [H1 H2]. split; [|exact H2]. intros k' v' Hin.
    specialize (H1 _ Hin). simpl in H1. now destruct (key_equal kt k k').
  - intros [H1 H2]. split; [|exact H2]. intros [k' v'] Hin. simpl.
    now rewrite (H1 _ _ Hin).
Qed.

Lemma map_insert_In kt ms k v k' v' :
  In (k', v') (map_insert kt ms k v) ->
  In (k', v') ms
  \/ (v' = v /\ (k' = k \/ exists v0, In (k', v0) ms
                                      /\ key_equal kt k' k = true)).
Proof.
  induction ms as [|[k0 v0] ms IH]; simpl.
  - intros [[= <- <-]|[]]. right. auto.
  - destruct (key_equal kt k0 k) eqn:E; simpl.
    + intros [[= <- <-]|Hin]; [|auto]. right. split; [reflexivity|].
      destruct (needKeyUpdate kt); [now left|]. right. exists v0. auto.
    + intros [[= <- <-]|Hin]; [auto|].
      destruct (IH Hin) as [H|(-> & [->|(v1 & H1 & H2)])]; auto.
      right. split; [reflexivity|]. right. exists v1. auto.
Qed.

Lemma map_insert_distinct kt ms k v :
  keys_distinct kt ms = true -> keys_distinct kt (map_insert kt ms k v) = true.
Proof.
  induction ms as [|[k0 v0] ms IH]; [reflexivity|].
  intros Hd. apply keys_distinct_cons in Hd as [Hk0 Hd].
  cbn [map_insert]. destruct (key_equal kt k0 k) eqn:E.
  - apply keys_distinct_cons. split; [|exact Hd].
    intros k' v' Hin. destruct (needKeyUpdate kt); [|eauto].
    rewrite <- (Hk0 _ _ Hin). symmetry. now apply key_equal_congr_l.
  - apply keys_distinct_cons. split; [|now apply IH].
    intros k' v' Hin.
    destruct (map_insert_In _ _ _ _ _ _ Hin)
      as [H|(-> & [->|(v1 & H1 & H2)])]; eauto.
Qed.

Lemma map_inserts_distinct kt kvs :
  forall ms, keys_distinct kt ms = true ->
             keys_distinct kt (map_inserts kt ms kvs) = true.
Proof.
  induction kvs as [|[k v] kvs IH]; intros ms Hd; [exact Hd|].
  apply IH. now apply map_insert_distinct.
Qed.

(** Assignments to other keys leave what a key holds. *)
Lemma map_find_inserts_other kt kvs k :
  (forall k' v', In (k', v') kvs -> key_equal kt k' k = false) ->
  forall ms, map_find kt (map_inserts kt ms kvs) k = map_find kt ms k.
Proof.
  induction kvs as [|[k0 v0] kvs IH]; intros Hother ms; [reflexivity|].
  change (map_inserts kt ms ((k0, v0) :: kvs))
    with (map_inserts kt (map_insert kt ms k0 v0) kvs).
  rewrite IH by (intros; eapply Hother; right; eauto).
  rewrite map_find_insert.
  now rewrite (Hother k0 v0 (or_introl eq_refl)).
Qed.

(** A key that equals itself holds the value of its last assignment. *)
Lemma map_find_inserts_last kt ms l1 l2 k v :
  key_equal kt k k = true ->
  (forall k' v', In (k', v') l2 -> key_equal kt k' k = false) ->
  map_find kt (map_inserts kt ms (l1 ++ (k, v) :: l2)) k = Some v.
Proof.
  intros Hk Hlater. rewrite map_inserts_app.
  change (map_inserts kt (map_inserts kt ms l1) ((k, v) :: l2))
    with (map_inserts kt (map_insert kt (map_inserts kt ms l1) k v) l2).
  rewrite map_find_inserts_other by exact Hlater.
  now rewrite map_find_insert, Hk.
Qed.



(** [MapIndex] finds the value of an entry whose key equals itself, in a
    map with distinct keys. *)
Lemma map_find_own kt es :
  keys_distinct kt es = true ->
  forall i k x,
    nth_error es i = Some (k, x) -> key_equal kt k k = true ->
    map_find kt es k = Some x.
Proof.
  induction es as [|[k0 v0] es IH]; intros Hd i k x Hi Hk;
    [destruct i; discriminate|].
  apply keys_distinct_cons in Hd as [H0 Hd]. destruct i as [|i]; simpl in Hi.
  - injection Hi as -> ->. simpl. now rewrite Hk.
  - simpl. rewrite (H0 k x (nth_error_In _ _ Hi)). eapply IH; eauto.
Qed.

Lemma convertMapIndex_found
    (conv : Value -> rtype -> result Value) sk se fl k et all :
  convertMapIndex conv sk se fl k et all
  = match map_find sk all k with
    | Some x => conv (ValueOf se x (mkFlag (flagRO fl) false)) et
    | None => conv ZeroValue et
    end.
Proof.
  induction all as [|[k' v'] all IH]; [reflexivity|].
  rewrite convertMapIndex_cons. simpl. now destruct (key_equal sk k' k).
Qed.

(** When the conversion of what [MapIndex] gives returns a value, the key
    was found: it equals itself. *)
Lemma convertMapIndex_Ok_found sk se fl k et all c :
  convertMapIndex convertValue sk se fl k et all = Ok c ->
  key_equal sk k k = true.
Proof.
  rewrite convertMapIndex_found.
  destruct (map_find sk all k) as [x|] eqn:E; [|discriminate].
  intros _. apply map_find_In in E as (k' & _ & Hk).
  eapply key_equal_refl_r; eauto.
Qed.

Lemma convertEntry_Ok sk se fl kt et all k x kd vd :
  convertEntry sk se fl kt et all (k, x) = Ok (kd, vd)
  <-> exists ck cx,
        convertValue (ValueOf sk k (mkFlag (flagRO fl) false)) kt = Ok ck
        /\ convertMapIndex convertValue sk se fl k et all = Ok cx
        /\ kd = Value_data ck /\ vd = Value_data cx.
Proof.
  unfold convertEntry. simpl. split.
  - destruct (convertValue (ValueOf sk k _) kt) as [ck|?|?]; try discriminate.
    destruct (convertMapIndex convertValue sk se fl k et all) as [cx|?|?];
      try discriminate.
    intros [= <- <-]. now exists ck, cx.
  - intros (ck & cx & -> & -> & -> & ->). reflexivity.
Qed.

(** X10. The map that [convertMap] returns.  From a readable map and a
    target type of kind map, a successful call returns a map of the target
    type that is not nil (also when the source is nil), whose keys are
    distinct (no key equals another) and which has at most as many
    entries as the source. *)
Theorem convertMap_result_shape
    (st : rtype) (es : list (data * data)) (isnil : bool) (fl : flag)
    (T : rtype) (v : Value) :
  Type_Kind st = Map -> Type_Kind T = Map -> flagRO fl = false ->
  convertMap (ValueOf st (DMap es isnil) fl) T = Ok v ->
  exists kt ms,
    Type_Key T = Ok kt
    /\ v = ValueOf T (DMap ms false) flag0
    /\ keys_distinct kt ms = true /\ length ms <= length es.
Proof.
  intros Hs HT Hro.
  destruct (Type_Kind_Map_Key_Elem st Hs) as (sk & se & Hsk & Hse).
  destruct (Type_Kind_Map_Key_Elem T HT) as (kt & et & Hkt & Het).
  rewrite (@convertMap_closed st es isnil fl T sk se kt et) by assumption.
  destruct (mapM (convertEntry sk se fl kt et es) es) as [cs|?|?] eqn:Em;
    try discriminate.
  intros [= <-]. exists kt, (map_inserts kt [] cs).
  split; [exact Hkt|]. split; [reflexivity|].
  split; [now apply map_inserts_distinct|].
  pose proof (map_inserts_length kt cs []) as Hl.
  destruct (mapM_Ok_nth _ _ Em) as [Hlen _]. simpl in Hl. lia.
Qed.

Lemma convertMap_result_shape_witness :
  exists kt ms,
    Type_Key (MapOf examples.tString examples.tInt) = Ok kt
    /\ ValueOf (MapOf examples.tString examples.tInt) (DMap [] false) flag0
       = ValueOf (MapOf examples.tString examples.tInt) (DMap ms false) flag0
    /\ keys_distinct kt ms = true /\ length ms <= 0.
Proof.
  apply (@convertMap_result_shape (MapOf examples.tString examples.tInt)
           [] true flag0 (MapOf examples.tString examples.tInt));
    reflexivity.
Defined.

(** X11. [convertMap] converts key by key.  After a successful call on a
    readable map, each source key has a converted key, what [MapIndex]
    gives for it has a converted value, and looking up the converted key
    in the result gives that converted value, provided the converted key
    equals itself and no key that comes later in the iteration converts
    to a key equal to it. *)
Theorem convertMap_entry_converted
    (st : rtype) (es : list (data * data)) (isnil : bool) (fl : flag)
    (T sk se kt et : rtype) (v : Value) :
  Type_Kind st = Map -> Type_Key st = Ok sk -> Type_Elem st = Ok se ->
  Type_Kind T = Map -> Type_Key T = Ok kt -> Type_Elem T = Ok et ->
  flagRO fl = false ->
  let source := ValueOf st (DMap es isnil) fl in
  convertMap source T = Ok v ->
  let key k := convertValue (ValueOf sk k flag0) kt in
  let val k :=
    sourceValue <- Value_MapIndex source (ValueOf sk k flag0) ;;
    convertValue sourceValue et in
  forall i k x,
    nth_error es i = Some (k, x) ->
    exists ck cx,
      key k = Ok ck /\ val k = Ok cx
      /\ (key_equal kt (Value_data ck) (Value_data ck) = true ->
          (forall i' k' x' ck',
             i < i' -> nth_error es i' = Some (k', x') -> key k' = Ok ck' ->
             key_equal kt (Value_data ck') (Value_data ck) = false) ->
          map_find kt (map_data (Value_data v)) (Value_data ck)
          = Some (Value_data cx)).
Proof.
  intros Hs Hsk Hse HT Hkt Het Hro source. unfold source.
  rewrite (@convertMap_closed st es isnil fl T sk se kt et) by assumption.
  destruct (mapM (convertEntry sk se fl kt et es) es) as [cs|?|?] eqn:Em;
    try discriminate.
  intros [= <-] i k x Hi.
  destruct (mapM_Ok_nth _ _ Em) as [Hlen Hnth].
  destruct (Hnth i (k, x) Hi) as ([kd vd] & Hb & Hci).
  apply convertEntry_Ok in Hb as (ck & cx & Hck & Hcx & -> & ->).
  rewrite (@convertMapIndex_MapIndex convertValue st sk se fl es isnil k et
             Hs Hsk Hse) in Hcx.
  rewrite Hro in Hck, Hcx. exists ck, cx. split; [exact Hck|].
  split; [exact Hcx|]. intros Hrefl Hlater. simpl.
  destruct (nth_error_split cs i Hci) as (l1 & l2 & -> & Hl1).
  apply map_find_inserts_last; [exact Hrefl|].
  intros kd' vd' Hin. apply In_nth_error in Hin as [j Hj].
  assert (Hci' : nth_error (l1 ++ (Value_data ck, Value_data cx) :: l2)
                           (S (i + j)) = Some (kd', vd')).
  { rewrite nth_error_app2 by lia.
    replace (S (i + j) - length l1) with (S j) by lia. exact Hj. }
  assert (Hi' : S (i + j) < length es).
  { rewrite <- Hlen. apply nth_error_Some. congruence. }
  destruct (nth_error es (S (i + j))) as [[k' x']|] eqn:Ei';
    [|apply nth_error_None in Ei'; lia].
  destruct (Hnth (S (i + j)) (k', x') Ei') as ([kd2 vd2] & Hb' & Hci2).
  rewrite Hci' in Hci2. injection Hci2 as <- <-.
  apply convertEntry_Ok in Hb' as (ck' & cx' & Hck' & _ & -> & _).
  rewrite Hro in Hck'.
  apply (Hlater (S (i + j)) k' x' ck'); [lia|exact Ei'|exact Hck'].
Qed.

Lemma convertMap_entry_converted_witness :
  exists ck cx,
    convertValue (ValueOf examples.tString (DString "a") flag0)
                 examples.tString = Ok ck
    /\ (sourceValue <-
          Value_MapIndex examples.ages
                         (ValueOf examples.tString (DString "a") flag0) ;;
        convertValue sourceValue examples.tInt) = Ok cx
    /\ (key_equal examples.tString (Value_data ck) (Value_data ck) = true ->
        (forall i' k' x' ck',
           0 < i' -> nth_error [(DString "a", DInt 1)] i' = Some (k', x') ->
           convertValue (ValueOf examples.tString k' flag0) examples.tString
           = Ok ck' ->
           key_equal examples.tString (Value_data ck') (Value_data ck)
           = false) ->
        map_find examples.tString [(DString "a", DInt 1)] (Value_data ck)
        = Some (Value_data cx)).
Proof.
  apply (@convertMap_entry_converted (MapOf examples.tString examples.tInt)
           [(DString "a", DInt 1)] false flag0
           (MapOf examples.tString examples.tInt)
           examples.tString examples.tInt examples.tString examples.tInt
           (ValueOf (MapOf examples.tString examples.tInt)
                    (DMap [(DString "a", DInt 1)] false) flag0)
           eq_refl eq_refl eq_refl eq_refl eq_refl eq_refl eq_refl eq_refl
           0 (DString "a") (DInt 1) eq_refl).
Defined.

(** Where an entry of the assigned map comes from. *)
Lemma map_inserts_In kt kvs :
  forall ms kd vd,
    In (kd, vd) (map_inserts kt ms kvs) ->
    In (kd, vd) ms
    \/ exists k, In (k, vd) kvs
         /\ (kd = k
             \/ (needKeyUpdate kt = false
                 /\ key_equal kt kd k = true
                 /\ exists v0, In (kd, v0) (ms ++ kvs))).
Proof.
  induction kvs as [|[k v] kvs IH]; intros ms kd vd Hin; [now left|].
  change (map_inserts kt ms ((k, v) :: kvs))
    with (map_inserts kt (map_insert kt ms k v) kvs) in Hin.
  destruct (IH _ _ _ Hin) as [H|(k1 & Hk1 & H)].
  - assert (Hnk : forall ms k v k' v',
               In (k', v') (map_insert kt ms k v) ->
               In (k', v') ms
               \/ (v' = v /\ (k' = k
                    \/ (needKeyUpdate kt = false /\ key_equal kt k' k = true
                        /\ exists v0, In (k', v0) ms)))).
    { clear. induction ms as [|[k0 v0] ms IH]; simpl; intros k v k' v'.
      - intros [[= <- <-]|[]]. right. auto.
      - destruct (key_equal kt k0 k) eqn:E; simpl.
        + intros [[= <- <-]|Hin]; [|auto]. right. split; [reflexivity|].
          destruct (needKeyUpdate kt); [now left|]. right.
          repeat split; eauto.
        + intros [[= <- <-]|Hin]; [auto|].
          destruct (IH _ _ _ _ Hin) as [H|(-> & [->|(H1 & H2 & v1 & H3)])];
            auto.
          right. split; [reflexivity|]. right. repeat split; eauto. }
    destruct (Hnk _ _ _ _ _ H) as [H'|(-> & [->|(H1 & H2 & v1 & H3)])].
    + now left.
    + right. exists k. split; [now left|now left].
    + right. exists k. split; [now left|]. right. repeat split; auto.
      exists v1. apply in_or_app. now left.
  - right. exists k1. split; [now right|].
    destruct H as [->|(H1 & H2 & v1 & H3)]; [now left|]. right.
    repeat split; auto.
    apply in_app_or in H3 as [H3|H3].
    + assert (Hk : exists v2, In (kd, v2) (ms ++ [(k, v)])).
      { clear -H3. revert H3. induction ms as [|[k0 v0] ms IHms]; simpl.
        - intros [[= <- <-]|[]]. eauto.
        - destruct (key_equal kt k0 k) eqn:E; simpl.
          + intros [Heq|Hin].
            * destruct (needKeyUpdate kt); injection Heq as <- <-.
              -- eexists. right. apply in_or_app. right. left. reflexivity.
              -- eexists. left. reflexivity.
            * eexists. right. apply in_or_app. left. exact Hin.
          + intros [[= <- <-]|Hin]; [eauto|].
            destruct (IHms Hin) as (v2 & Hv2). eauto. }
      destruct Hk as (v2 & Hv2). exists v2.
      apply in_app_or in Hv2 as [Hv2|[[= <- <-]|[]]];
        apply in_or_app; [now left|right; now left].
    + exists v1. apply in_or_app. right. now right.
Qed.

(** X12. [convertMap] invents no entry.  In the map it returns, the
    value of every entry is the conversion of what [MapIndex] gives for a
    source key, which is the value of that key's own entry when the keys
    of the source are distinct, and the key of the entry is the converted
    key of that source key; where equal keys of the target key type
    cannot differ (the map keeps the key it has on an assignment), it may
    instead be the converted key of another source key, equal to that
    one. *)
Theorem convertMap_adds_nothing
    (st : rtype) (es : list (data * data)) (isnil : bool) (fl : flag)
    (T sk se kt et : rtype) (v : Value) :
  Type_Kind st = Map -> Type_Key st = Ok sk -> Type_Elem st = Ok se ->
  Type_Kind T = Map -> Type_Key T = Ok kt -> Type_Elem T = Ok et ->
  flagRO fl = false ->
  let source := ValueOf st (DMap es isnil) fl in
  convertMap source T = Ok v ->
  let key k := convertValue (ValueOf sk k flag0) kt in
  let val k :=
    sourceValue <- Value_MapIndex source (ValueOf sk k flag0) ;;
    convertValue sourceValue et in
  forall kd vd,
    In (kd, vd) (map_data (Value_data v)) ->
    exists k x ck cx,
      In (k, x) es
      /\ key k = Ok ck /\ val k = Ok cx /\ vd = Value_data cx
      /\ (keys_distinct sk es = true ->
          convertValue (ValueOf se x flag0) et = Ok cx)
      /\ (kd = Value_data ck
          \/ (needKeyUpdate kt = false
              /\ key_equal kt kd (Value_data ck) = true
              /\ exists k0 x0 ck0,
                   In (k0, x0) es /\ key k0 = Ok ck0
                   /\ kd = Value_data ck0)).
Proof.
  intros Hs Hsk Hse HT Hkt Het Hro source. unfold source.
  rewrite (@convertMap_closed st es isnil fl T sk se kt et) by assumption.
  destruct (mapM (convertEntry sk se fl kt et es) es) as [cs|?|?] eqn:Em;
    try discriminate.
  intros [= <-] kd vd Hin. simpl in Hin.
  pose (key := fun k => convertValue (ValueOf sk k flag0) kt).
  pose (val := fun k =>
          sourceValue <-
            Value_MapIndex (ValueOf st (DMap es isnil) fl)
                           (ValueOf sk k flag0) ;;
          convertValue sourceValue et).
  destruct (mapM_Ok_nth _ _ Em) as [Hlen Hnth].
  assert (Hsrc : forall kd' vd',
             In (kd', vd') cs ->
             exists i k x ck cx,
               nth_error es i = Some (k, x)
               /\ key k = Ok ck /\ val k = Ok cx
               /\ convertMapIndex convertValue sk se fl k et es = Ok cx
               /\ kd' = Value_data ck /\ vd' = Value_data cx).
  { intros kd' vd' Hin'. apply In_nth_error in Hin' as [i Hci].
    assert (Hi : i < length es).
    { rewrite <- Hlen. apply nth_error_Some. congruence. }
    destruct (nth_error es i) as [[k x]|] eqn:Ei;
      [|apply nth_error_None in Ei; lia].
    destruct (Hnth i (k, x) Ei) as ([kd2 vd2] & Hb & Hci2).
    rewrite Hci in Hci2. injection Hci2 as <- <-.
    apply convertEntry_Ok in Hb as (ck & cx & Hck & Hcx & -> & ->).
    exists i, k, x, ck, cx. unfold key, val.
    pose proof (@convertMapIndex_MapIndex convertValue st sk se fl es isnil
                  k et Hs Hsk Hse) as Hmi.
    rewrite Hcx, Hro in Hmi. rewrite Hro in Hck.
    change (mkFlag false false) with flag0 in Hmi, Hck.
    rewrite <- Hmi. auto 10. }
  destruct (map_inserts_In _ _ _ _ _ Hin) as [[]|(k1 & Hk1 & Hkd)].
  destruct (Hsrc _ _ Hk1) as (i & k & x & ck & cx & Hi & Hck & Hval & Hcx
                              & -> & ->).
  exists k, x, ck, cx. split; [eapply nth_error_In; eauto|].
  split; [exact Hck|]. split; [exact Hval|]. split; [reflexivity|].
  split.
  - intros Hd. pose proof (convertMapIndex_Ok_found _ _ _ _ _ _ Hcx) as Hk.
    rewrite convertMapIndex_found in Hcx.
    rewrite (@map_find_own sk es Hd i k x Hi Hk) in Hcx.
    now rewrite Hro in Hcx.
  - destruct Hkd as [->|(Hnu & Heq & v0 & Hv0)]; [now left|]. right.
    split; [exact Hnu|]. split; [exact Heq|]. simpl in Hv0.
    destruct (Hsrc _ _ Hv0) as (i0 & k0 & x0 & ck0 & cx0 & Hi0 & Hck0 & _ & _
                                & -> & _).
    exists k0, x0, ck0. split; [eapply nth_error_In; eauto|]. auto.
Qed.

Lemma convertMap_adds_nothing_witness :
  exists k x ck cx,
    In (k, x) [(DString "a", DInt 1)]
    /\ convertValue (ValueOf examples.tString k flag0) examples.tString
       = Ok ck
    /\ (sourceValue <-
          Value_MapIndex examples.ages (ValueOf examples.tString k flag0) ;;
        convertValue sourceValue examples.tInt) = Ok cx
    /\ DInt 1 = Value_data cx
    /\ (keys_distinct examples.tString [(DString "a", DInt 1)] = true ->
        convertValue (ValueOf examples.tInt x flag0) examples.tInt = Ok cx)
    /\ (DString "a" = Value_data ck
        \/ (needKeyUpdate examples.tString = false
            /\ key_equal examples.tString (DString "a") (Value_data ck) = true
            /\ exists k0 x0 ck0,
                 In (k0, x0) [(DString "a", DInt 1)]
                 /\ convertValue (ValueOf examples.tString k0 flag0)
                                 examples.tString = Ok ck0
                 /\ DString "a" = Value_data ck0)).
Proof.
  apply (@convertMap_adds_nothing (MapOf examples.tString examples.tInt)
           [(DString "a", DInt 1)] false flag0
           (MapOf examples.tString examples.tInt)
           examples.tString examples.tInt examples.tString examples.tInt
           (ValueOf (MapOf examples.tString examples.tInt)
                    (DMap [(DString "a", DInt 1)] false) flag0)
           eq_refl eq_refl eq_refl eq_refl eq_refl eq_refl eq_refl eq_refl).
  left. reflexivity.
Defined.

(** In a map whose keys are distinct and equal themselves, [MapIndex]
    gives for each key the value of its own entry. *)
Lemma convertEntry_own sk se fl kt et es :
  keys_found sk es = true -> keys_distinct sk es = true ->
  forall k x,
    In (k, x) es ->
    convertEntry sk se fl kt et es (k, x)
    = (convertedKey <-
         convertValue (ValueOf sk k (mkFlag (flagRO fl) false)) kt ;;
       convertedValue <-
         convertValue (ValueOf se x (mkFlag (flagRO fl) false)) et ;;
       Ok (Value_data convertedKey, Value_data convertedValue)).
Proof.
  intros Hf Hd k x Hin. unfold convertEntry. cbn [fst snd].
  rewrite convertMapIndex_found.
  apply In_nth_error in Hin as [i Hi].
  rewrite (@map_find_own sk es Hd i k x Hi); [reflexivity|].
  unfold keys_found in Hf. rewrite forallb_forall in Hf.
  exact (Hf (k, x) (nth_error_In _ _ Hi)).
Qed.

Lemma mapM_ext_in (A B : Type) (f g : A -> result B) (l : list A) :
  (forall a, In a l -> f a = g a) -> mapM f l = mapM g l.
Proof.
  induction l as [|a l IH]; intros H; [reflexivity|]. simpl.
  rewrite (H a (or_introl eq_refl)), IH; [reflexivity|].
  intros; apply H; now right.
Qed.

(** X13. [convertMap] on a readable map succeeds exactly when, for every
    key of the source, the key converts and what [MapIndex] gives for the
    key converts; for a source whose keys are distinct and equal
    themselves, exactly when the key and the value of every entry
    convert. *)
Theorem convertMap_succeeds_iff
    (st : rtype) (es : list (data * data)) (isnil : bool) (fl : flag)
    (T sk se kt et : rtype) :
  Type_Kind st = Map -> Type_Key st = Ok sk -> Type_Elem st = Ok se ->
  Type_Kind T = Map -> Type_Key T = Ok kt -> Type_Elem T = Ok et ->
  flagRO fl = false ->
  let source := ValueOf st (DMap es isnil) fl in
  (is_ok (convertMap source T) = true
   <-> (forall k x, In (k, x) es ->
          is_ok (convertValue (ValueOf sk k flag0) kt) = true
          /\ is_ok (sourceValue <-
                      Value_MapIndex source (ValueOf sk k flag0) ;;
                    convertValue sourceValue et) = true))
  /\ (keys_found sk es = true -> keys_distinct sk es = true ->
      (is_ok (convertMap source T) = true
       <-> (forall k x, In (k, x) es ->
              is_ok (convertValue (ValueOf sk k flag0) kt) = true
              /\ is_ok (convertValue (ValueOf se x flag0) et) = true))).
Proof.
  intros Hs Hsk Hse HT Hkt Het Hro source. unfold source.
  rewrite (@convertMap_closed st es isnil fl T sk se kt et) by assumption.
  assert (Hiff : forall (f : data * data -> result (data * data))
                        (P : data -> data -> Prop),
             (forall k x, is_ok (f (k, x)) = true <-> P k x) ->
             is_ok (cs <- mapM f es ;;
                    Ok (ValueOf T (DMap (map_inserts kt [] cs) false) flag0))
             = true
             <-> (forall k x, In (k, x) es -> P k x)).
  { intros f P Hentry. split.
    - intros Hok k x Hin. apply Hentry.
      destruct (is_ok (f (k, x))) eqn:E; [reflexivity|].
      pose proof (mapM_some_fail _ _ _ Hin E) as Hf.
      destruct (mapM f es); discriminate.
    - intros Hall.
      assert (Hm : is_ok (mapM f es) = true).
      { apply mapM_all_ok. intros [k x] Hin. apply Hentry. now apply Hall. }
      now destruct (mapM f es). }
  split.
  - apply Hiff. intros k x.
    rewrite (@convertEntry_MapIndex st sk se fl kt et es isnil k x Hs Hsk Hse).
    cbv zeta. rewrite Hro. change (mkFlag false false) with flag0.
    destruct (convertValue (ValueOf sk k flag0) kt); simpl;
      [|intuition discriminate..].
    destruct (Value_MapIndex (ValueOf st (DMap es isnil) fl)
                             (ValueOf sk k flag0)) as [sv|?|?]; simpl;
      [|intuition discriminate..].
    destruct (convertValue sv et); simpl; intuition discriminate.
  - intros Hf Hd.
    rewrite (@mapM_ext_in _ _ (convertEntry sk se fl kt et es)
               (fun kv =>
                  convertedKey <-
                    convertValue (ValueOf sk (fst kv) flag0) kt ;;
                  convertedValue <-
                    convertValue (ValueOf se (snd kv) flag0) et ;;
                  Ok (Value_data convertedKey, Value_data convertedValue))).
    + apply Hiff. intros k x. cbn [fst snd].
      destruct (convertValue (ValueOf sk k flag0) kt); simpl;
        [|intuition discriminate..].
      destruct (convertValue (ValueOf se x flag0) et); simpl;
        intuition discriminate.
    + intros [k x] Hin.
      rewrite (@convertEntry_own sk se fl kt et es Hf Hd k x Hin).
      now rewrite Hro.
Qed.

Lemma convertMap_succeeds_iff_witness :
  is_ok (convertMap examples.ages (MapOf examples.tString examples.tInt))
  = true.
Proof.
  apply (proj1 (@convertMap_succeeds_iff
                  (MapOf examples.tString examples.tInt)
                  [(DString "a", DInt 1)] false flag0
                  (MapOf examples.tString examples.tInt)
                  examples.tString examples.tInt examples.tString
                  examples.tInt
                  eq_refl eq_refl eq_refl eq_refl eq_refl eq_refl eq_refl)).
  intros k x [[= <- <-]|[]]. split; reflexivity.
Defined.






(** *** Panics on well-shaped values *)

Lemma Type_Kind_underlying t : Type_Kind (underlying t) = Type_Kind t.
Proof. induction t; simpl; auto. Qed.

Lemma has_type_fields ds :
  forall fs,
    (fix fields_have_type (ds : list data) (fs : list StructField)
         {struct ds} : bool :=
       match ds, fs with
       | [], [] => true
       | d :: ds', f :: fs' => has_type d (Typ f) && fields_have_type ds' fs'
       | _, _ => false
       end) ds fs = true ->
    length ds = length fs
    /\ forall k f d, nth_error fs k = Some f -> nth_error ds k = Some d ->
                     has_type d (Typ f) = true.
Proof.
  induction ds as [|d ds IH]; intros [|f fs]; try discriminate.
  - intros _. split; [reflexivity|]. intros [|k] ? ?; discriminate.
  - intros H. apply andb_prop in H as [Hd Hrest].
    destruct (IH fs Hrest) as [Hlen Hnth]. split; [simpl; congruence|].
    intros [|k] f' d'; simpl.
    + now intros [= <-] [= <-].
    + apply Hnth.
Qed.

Lemma has_type_DStruct ds t :
  has_type (DStruct ds) t = true ->
  Type_Kind t = Struct /\ length ds = length (Type_Fields t)
  /\ forall k f d, nth_error (Type_Fields t) k = Some f ->
                   nth_error ds k = Some d -> has_type d (Typ f) = true.
Proof.
  unfold Type_Fields. rewrite <- Type_Kind_underlying. simpl.
  destruct (underlying t) as [b| | | | | |fs]; try discriminate;
    [destruct b; discriminate|].
  intros H. apply has_type_fields in H. split; [reflexivity|exact H].
Qed.

Lemma has_type_DSlice es cap isnil t :
  has_type (DSlice es cap isnil) t = true ->
  exists e, Type_Kind t = Slice /\ Type_Elem t = Ok e /\ length es <= cap
            /\ forall x, In x es -> has_type x e = true.
Proof.
  unfold Type_Elem. rewrite <- Type_Kind_underlying. simpl.
  destruct (underlying t) as [b| | |e| | |]; try discriminate;
    [destruct b; discriminate|].
  intros H. apply andb_prop in H as [Hlen Hall]. exists e.
  repeat split; auto.
  - now apply Nat.leb_le.
  - now apply forallb_forall.
Qed.

Lemma has_type_DMap es isnil t :
  has_type (DMap es isnil) t = true ->
  exists k e, Type_Kind t = Map /\ Type_Key t = Ok k /\ Type_Elem t = Ok e
              /\ forall kv, In kv es ->
                   has_type (fst kv) k = true /\ has_type (snd kv) e = true.
Proof.
  unfold Type_Key, Type_Elem. rewrite <- Type_Kind_underlying. simpl.
  destruct (underlying t) as [b| | | | |k e|]; try discriminate;
    [destruct b; discriminate|].
  intros H. exists k, e. repeat split; auto;
    rewrite forallb_forall in H; apply H in H0; apply andb_prop in H0; tauto.
Qed.

Lemma has_type_other d t :
  has_type d t = true ->
  match d with
  | DStruct _ | DSlice _ _ _ | DMap _ _ => True
  | _ => is_container (Type_Kind t) = false
  end.
Proof.
  rewrite <- Type_Kind_underlying.
  destruct d; try exact (fun _ => I); simpl;
    destruct (underlying t); try discriminate; try reflexivity;
    try (destruct pointee as [[? ?]|]; discriminate).
Qed.

(** The keys of the maps in the parts of data. *)
Lemma Type_Kind_underlying_Slice t :
  Type_Kind t = Slice -> exists e, underlying t = SliceOf e.
Proof. induction t; simpl; try discriminate; eauto. Qed.

Lemma Type_Kind_underlying_Map t :
  Type_Kind t = Map -> exists k e, underlying t = MapOf k e.
Proof. induction t; simpl; try discriminate; eauto. Qed.

Lemma Type_Kind_underlying_Struct t :
  Type_Kind t = Struct -> exists fs, underlying t = StructOf fs.
Proof. induction t; simpl; try discriminate; eauto. Qed.

Section maps_of_parts.

Variable P : rtype -> list (data * data) -> bool.

Lemma all_maps_DSlice es cap isnil t e x :
  Type_Kind t = Slice -> Type_Elem t = Ok e -> In x es ->
  all_maps P (DSlice es cap isnil) t = true -> all_maps P x e = true.
Proof.
  intros Hk He Hin. destruct (Type_Kind_underlying_Slice _ Hk) as [e' Hu].
  unfold Type_Elem in He. rewrite Hu in He. injection He as ->.
  simpl. rewrite Hu. rewrite forallb_forall. auto.
Qed.

Lemma all_maps_DMap es isnil t k e :
  Type_Kind t = Map -> Type_Key t = Ok k -> Type_Elem t = Ok e ->
  all_maps P (DMap es isnil) t = true ->
  P k es = true
  /\ forall kv, In kv es ->
       all_maps P (fst kv) k = true /\ all_maps P (snd kv) e = true.
Proof.
  intros Hk Hkey He. destruct (Type_Kind_underlying_Map _ Hk) as (k' & e' & Hu).
  unfold Type_Key in Hkey. unfold Type_Elem in He. rewrite Hu in Hkey, He.
  injection Hkey as ->. injection He as ->.
  simpl. rewrite Hu. intros H. apply andb_prop in H as [H1 H2].
  split; [exact H1|]. intros kv Hin. rewrite forallb_forall in H2.
  apply H2 in Hin. now apply andb_prop in Hin.
Qed.

Lemma all_maps_DStruct ds t :
  Type_Kind t = Struct ->
  all_maps P (DStruct ds) t = true ->
  forall i f d, nth_error (Type_Fields t) i = Some f ->
                nth_error ds i = Some d -> all_maps P d (Typ f) = true.
Proof.
  intros Hk. destruct (Type_Kind_underlying_Struct _ Hk) as [fs Hu].
  unfold Type_Fields. simpl. rewrite Hu.
  generalize (fields_of fs). clear. induction ds as [|d ds IH];
    intros [|f fs] H [|i] f' d'; try discriminate; simpl.
  - intros [= <-] [= <-]. now apply andb_prop in H as [H _].
  - apply andb_prop in H as [_ H]. now apply IH.
Qed.

End maps_of_parts.

Lemma mapM_Panic (A B : Type) (f : A -> result B) (l : list A) p :
  mapM f l = Panic p -> exists a, In a l /\ f a = Panic p.
Proof.
  induction l as [|a l IH]; simpl; [discriminate|].
  destruct (f a) as [b|?|q] eqn:Ea; try discriminate.
  - destruct (mapM f l) as [bs|?|q]; try discriminate.
    intros [= <-]. destruct (IH eq_refl) as [a' [Hin Ha']]. eauto.
  - intros [= <-]. eauto.
Qed.

Lemma assign_fields_Panic conv resolve fl ds :
  forall fs ts p,
    snd (assign_fields conv resolve fl fs ds ts) = Panic p ->
    exists k f d i g,
      nth_error fs k = Some f /\ nth_error ds k = Some d
      /\ resolve f = Some (i, g)
      /\ conv (fieldValue fl f d) (Typ g) = Panic p.
Proof.
  induction ds as [|d ds IH]; intros [|f fs] ts p; try discriminate.
  cbn [assign_fields].
  assert (Hrest : forall ts',
             snd (assign_fields conv resolve fl fs ds ts') = Panic p ->
             exists k f0 d0 i g,
               nth_error (f :: fs) k = Some f0
               /\ nth_error (d :: ds) k = Some d0
               /\ resolve f0 = Some (i, g)
               /\ conv (fieldValue fl f0 d0) (Typ g) = Panic p).
  { intros ts' H. destruct (IH fs ts' p H) as (k & f0 & d0 & i & g & Hr).
    exists (S k), f0, d0, i, g. exact Hr. }
  destruct (resolve f) as [[i g]|] eqn:Er; [|apply Hrest].
  destruct (conv (fieldValue fl f d) (Typ g)) as [c|?|q] eqn:Ec;
    try discriminate; [apply Hrest|].
  intros [= <-]. exists 0, f, d, i, g. repeat split; auto.
Qed.

Lemma convertValue_other_no_panic st d fl T p :
  is_container (Type_Kind st) = false ->
  convertValue (ValueOf st d fl) T <> Panic p.
Proof.
  intros Hc. rewrite convertValue_default;
    try (intros E; rewrite E in Hc; discriminate).
  now destruct (Type_AssignableTo st T).
Qed.

(** What the parts give for the whole. *)
Ltac part_panics H Hok :=
  destruct H as [->|[-> H]]; [now left|right; split; [reflexivity|]];
  unfold keys_equal_themselves in *;
  match goal with
  | |- ?k = false => destruct k eqn:Hok; [|reflexivity]
  end.

Lemma convertValue_panics_within (d : data) : panics_are_known d.
Proof.
  induction d as [b|z|bits|re im|s|ptr _|es _|es cap isnil IH|es isnil IH|ds IH]
    using data_nested_ind; intros st addr T p Hty Hp;
    try (apply has_type_other in Hty;
         now apply convertValue_other_no_panic in Hp).
  - (* slices *)
    pose proof Hty as Hty'.
    apply has_type_DSlice in Hty as (e & Hs & He & Hcap & Hall).
    rewrite convertValue_unfold in Hp. simpl in Hp. rewrite Hs in Hp.
    destruct (Kind_eq_dec (Type_Kind T) Slice) as [HT|HT];
      [|now rewrite convertSlice_not_slice_target in Hp].
    destruct (@convertSlice_closed st (DSlice es cap isnil) es cap
                (mkFlag false addr) T) as (se & te & Hse & Hte & Heq);
      [left; eauto|reflexivity|exact HT|].
    rewrite Heq, Hs in Hp. rewrite He in Hse. injection Hse as <-.
    destruct (mapM _ es) as [cs|?|q] eqn:Em; try discriminate.
    injection Hp as ->. apply mapM_Panic in Em as (x & Hin & Hx).
    rewrite Forall_forall in IH.
    pose proof (IH x Hin e true te p (Hall x Hin) Hx) as H.
    part_panics H Hok.
    rewrite (@all_maps_DSlice keys_found es cap isnil st e x Hs He Hin Hok) in H. discriminate.
  - (* maps *)
    apply has_type_DMap in Hty as (k & e & Hs & Hk & He & Hall).
    rewrite convertValue_unfold in Hp. simpl in Hp. rewrite Hs in Hp.
    destruct (Kind_eq_dec (Type_Kind T) Map) as [HT|HT].
    + destruct (Type_Kind_Map_Key_Elem T HT) as (kt & et & Hkt & Het).
      rewrite (@convertMap_closed st es isnil (mkFlag false addr) T k e kt et)
        in Hp by auto.
      destruct (mapM _ es) as [cs|?|q] eqn:Em; try discriminate.
      injection Hp as ->. apply mapM_Panic in Em as ([a x] & Hin & Hx).
      rewrite Forall_forall in IH. destruct (IH (a, x) Hin) as [IHa _].
      destruct (Hall (a, x) Hin) as [Hta _]. simpl in *.
      unfold convertEntry in Hx. simpl in Hx.
      destruct (convertValue (ValueOf k a _) kt) as [ck|?|q] eqn:Eck;
        try discriminate.
      * destruct (convertMapIndex convertValue k e (mkFlag false addr) a et es)
          as [cx|?|q] eqn:Ecx; try discriminate.
        injection Hx as ->. rewrite convertMapIndex_found in Ecx.
        destruct (map_find k es a) as [x'|] eqn:Ef.
        -- apply map_find_In in Ef as (a' & Hin' & _).
           destruct (IH (a', x') Hin') as [_ IHx].
           destruct (Hall (a', x') Hin') as [_ Htx]. simpl in *.
           pose proof (IHx e false et p Htx Ecx) as H.
           part_panics H Hok.
           destruct (@all_maps_DMap keys_found es isnil st k e Hs Hk He Hok)
             as (_ & Hparts).
           destruct (Hparts (a', x') Hin') as [_ Hx']. simpl in Hx'.
           congruence.
        -- right. injection Ecx as <-. split; [reflexivity|].
           unfold keys_equal_themselves.
           match goal with
           | |- ?k = false => destruct k eqn:Hok; [|reflexivity]
           end.
           destruct (@all_maps_DMap keys_found es isnil st k e Hs Hk He Hok)
             as (Hfound & _).
           unfold keys_found in Hfound. rewrite forallb_forall in Hfound.
           specialize (Hfound (a, x) Hin). simpl in Hfound.
           rewrite map_find_None in Ef. rewrite (Ef a x Hin) in Hfound.
           discriminate.
      * injection Hx as ->.
        pose proof (IHa k false kt p Hta Eck) as H.
        part_panics H Hok.
        destruct (@all_maps_DMap keys_found es isnil st k e Hs Hk He Hok)
          as (_ & Hparts).
        destruct (Hparts (a, x) Hin) as [Ha' _]. simpl in Ha'. congruence.
    + unfold convertMap, convertMapWith in Hp.
      apply Kind_eqb_neq in HT. now rewrite HT in Hp.
  - (* records *)
    apply has_type_DStruct in Hty as (Hs & Hlen & Hall).
    destruct (Kind_eq_dec (Type_Kind T) Struct) as [HT|HT].
    + rewrite convertValue_unfold in Hp. simpl in Hp. rewrite Hs in Hp.
      rewrite convertStruct_assign in Hp by auto.
      destruct (assign_fields convertValue (nameTarget T) (mkFlag false addr)
                  (Type_Fields st) ds (struct_data (Zero_data T)))
        as [ts [[]|?|q]] eqn:Ea; try discriminate.
      injection Hp as ->.
      destruct (@assign_fields_Panic convertValue (nameTarget T)
                  (mkFlag false addr) ds (Type_Fields st)
                  (struct_data (Zero_data T)) p)
        as (i & f & d & j & g & Hf & Hd & Hr & Hc); [now rewrite Ea|].
      apply nameTarget_Some in Hr as (Hx & _).
      unfold fieldValue, field_flag in Hc. rewrite Hx in Hc. simpl in Hc.
      rewrite Forall_forall in IH.
      pose proof (IH d (nth_error_In _ _ Hd) (Typ f) addr (Typ g) p
                     (Hall i f d Hf Hd) Hc) as H.
      part_panics H Hok.
      rewrite (@all_maps_DStruct keys_found ds st Hs Hok i f d Hf Hd) in H. discriminate.
    + destruct (@convertValue_struct_to_non_struct
                  (ValueOf st (DStruct ds) (mkFlag false addr)) T Hs HT)
        as [E|E]; rewrite E in Hp; [discriminate|left; congruence].
Qed.

(** X15. The panics of [convertValue].  On a readable source whose data
    are shaped as its type says, [convertValue] raises no panic other
    than the one of [FieldByName] called on a target that is no record
    and the one of [Type] called on the zero [Value], which is what
    [MapIndex] gives for a key that does not equal itself (a NaN); the
    second needs such a key in a map of the source.  No assignment,
    index, allocation or map update of a conversion panics. *)
Theorem convertValue_panics_are_known
    (st : rtype) (d : data) (fl : flag) (T : rtype) (p : panic) :
  has_type d st = true -> flagRO fl = false ->
  convertValue (ValueOf st d fl) T = Panic p ->
  p = OnWrongKind "Value.FieldByName"
  \/ (p = OnZeroValue "Value.Type" /\ keys_equal_themselves d st = false).
Proof.
  destruct fl as [ro addr]. simpl. intros Hty ->.
  now apply convertValue_panics_within.
Qed.

Lemma convertValue_panics_are_known_witness :
  OnWrongKind "Value.FieldByName" = OnWrongKind "Value.FieldByName"
  \/ (OnWrongKind "Value.FieldByName" = OnZeroValue "Value.Type"
      /\ keys_equal_themselves examples.populated examples.Plain = false).
Proof.
  apply (@convertValue_panics_are_known examples.Plain
           examples.populated flag0 examples.tInt
           (OnWrongKind "Value.FieldByName"));
    reflexivity.
Defined.

Lemma has_type_Struct_data d t :
  has_type d t = true -> Type_Kind t = Struct -> exists ds, d = DStruct ds.
Proof.
  rewrite <- (Type_Kind_underlying t). destruct d; simpl; eauto;
    destruct (underlying t) as [b0| | | | | |]; try discriminate;
    try (destruct b0; discriminate);
    try (destruct pointee as [[? ?]|]; discriminate).
Qed.

(** X16. The panics of [ConvertStructs].  On a source and a target
    whose data are shaped as their types say, [ConvertStructs] raises no
    panic other than the one of [FieldByName] called while a record is
    converted to a type that is no record, and the one of [Type] called
    on the zero [Value] that [MapIndex] gives for a key that does not
    equal itself (a NaN), which needs such a key in a map of the
    source. *)
Theorem ConvertStructs_panics_are_known
    (S T : rtype) (source target : data) (tagName : string)
    (targetVal : Value) (p : panic) :
  has_type source S = true -> has_type target T = true ->
  ConvertStructs S T source target tagName = (targetVal, Panic p) ->
  p = OnWrongKind "Value.FieldByName"
  \/ (p = OnZeroValue "Value.Type"
      /\ keys_equal_themselves source S = false).
Proof.
  intros Hsrc Htgt.
  destruct (Kind_eq_dec (Type_Kind S) Struct) as [Hs|Hs];
    [destruct (Kind_eq_dec (Type_Kind T) Struct) as [HT|HT]|].
  - destruct (has_type_Struct_data _ _ Hsrc Hs) as [ds ->].
    destruct (has_type_Struct_data _ _ Htgt HT) as [ts ->].
    apply has_type_DStruct in Hsrc as (_ & _ & Hall).
    apply has_type_DStruct in Htgt as (_ & Hlen & _).
    rewrite ConvertStructs_assign by assumption. simpl.
    destruct (assign_fields convertValue (tagTarget tagName T) flag0
                (Type_Fields S) ds ts) as [ts' r] eqn:Ea.
    intros [= _ ->].
    destruct (@assign_fields_Panic convertValue (tagTarget tagName T) flag0
                ds (Type_Fields S) ts p)
      as (i & f & d & j & g & Hf & Hd & Hr & Hc); [now rewrite Ea|].
    apply tagTarget_Some in Hr as (Hx & _).
    unfold fieldValue, field_flag in Hc. rewrite Hx in Hc. simpl in Hc.
    pose proof (@convertValue_panics_within d (Typ f) false (Typ g) p
                  (Hall i f d Hf Hd) Hc) as H.
    part_panics H Hok.
    rewrite (@all_maps_DStruct keys_found ds S Hs Hok i f d Hf Hd) in H. discriminate.
  - unfold ConvertStructs. simpl. apply Kind_eqb_neq in HT.
    rewrite HT, orb_true_r. discriminate.
  - unfold ConvertStructs. simpl. apply Kind_eqb_neq in Hs.
    rewrite Hs. discriminate.
Qed.

Lemma ConvertStructs_panics_are_known_witness :
  OnWrongKind "Value.FieldByName" = OnWrongKind "Value.FieldByName"
  \/ (OnWrongKind "Value.FieldByName" = OnZeroValue "Value.Type"
      /\ keys_equal_themselves (DStruct [examples.populated]) examples.Outer
         = false).
Proof.
  apply (@ConvertStructs_panics_are_known examples.Outer
           examples.Flat (DStruct [examples.populated])
           (Zero_data examples.Flat) "t"
           (ValueOf examples.Flat (DStruct [DInt 0]) flagAddressable)
           (OnWrongKind "Value.FieldByName"));
    reflexivity.
Defined.

(** *** Fields that are never read *)

Lemma ConvertStructs_field_skips tagName f fl d d' targetVal :
  IsExported f = false \/ Tag_Get (Tag f) tagName = "" ->
  ConvertStructs_field tagName f (fieldValue fl f d) targetVal
  = ConvertStructs_field tagName f (fieldValue fl f d') targetVal.
Proof.
  intros H. unfold ConvertStructs_field, fieldValue, field_flag. simpl.
  destruct H as [H|H]; rewrite H; simpl.
  - now rewrite orb_true_r.
  - now rewrite orb_true_r.
Qed.

Lemma ConvertStructs_loop_ext tagName ds :
  forall ds' fs targetVal,
    length ds = length ds' ->
    (forall k f, nth_error fs k = Some f -> IsExported f = true ->
                 Tag_Get (Tag f) tagName <> "" ->
                 nth_error ds k = nth_error ds' k) ->
    ConvertStructs_loop tagName fs ds targetVal
    = ConvertStructs_loop tagName fs ds' targetVal.
Proof.
  induction ds as [|d ds IH]; intros [|d' ds'] fs targetVal Hlen Hsame;
    try discriminate; [reflexivity|].
  destruct fs as [|f fs]; [reflexivity|]. cbn [ConvertStructs_loop].
  assert (Hhead : ConvertStructs_field tagName f (fieldValue flag0 f d)
                                       targetVal
                  = ConvertStructs_field tagName f (fieldValue flag0 f d')
                                         targetVal).
  { destruct (IsExported f) eqn:Hx;
      [|apply ConvertStructs_field_skips; now left].
    destruct (string_dec (Tag_Get (Tag f) tagName) "") as [Ht|Ht];
      [apply ConvertStructs_field_skips; now right|].
    specialize (Hsame 0 f eq_refl Hx Ht). simpl in Hsame. congruence. }
  rewrite Hhead.
  destruct (ConvertStructs_field tagName f (fieldValue flag0 f d') targetVal);
    try reflexivity.
  apply IH; [simpl in Hlen; lia|].
  intros k f' Hf'. apply (Hsame (S k) f' Hf').
Qed.

(** X17. [ConvertStructs] never reads a source field that is unexported
    or has no value under [tagName]: two sources that differ in such
    fields only leave the same target and return the same outcome, when
    the two calls range over the maps in the other fields in the same
    order (the other fields hold the same data, and the data of a map
    carry the order in which a call ranges over it). *)
Theorem ConvertStructs_reads_only_tagged_fields
    (S T : rtype) (ds ds' : list data) (target : data) (tagName : string) :
  length ds = length ds' ->
  (forall k f, nth_error (Type_Fields S) k = Some f ->
               IsExported f = true -> Tag_Get (Tag f) tagName <> "" ->
               nth_error ds k = nth_error ds' k) ->
  ConvertStructs S T (DStruct ds) target tagName
  = ConvertStructs S T (DStruct ds') target tagName.
Proof.
  intros Hlen Hsame. unfold ConvertStructs. simpl.
  destruct (negb (Kind_eqb (Type_Kind S) Struct)
            || negb (Kind_eqb (Type_Kind T) Struct)); [reflexivity|].
  now apply ConvertStructs_loop_ext.
Qed.

Lemma ConvertStructs_reads_only_tagged_fields_witness :
  ConvertStructs examples.Source examples.Target
                 (DStruct [DInt 42; DString "example"])
                 (Zero_data examples.Target) "custom_tag"
  = ConvertStructs examples.Source examples.Target
                   (DStruct [DInt 42; DString "other"])
                   (Zero_data examples.Target) "custom_tag".
Proof.
  apply (@ConvertStructs_reads_only_tagged_fields examples.Source
           examples.Target [DInt 42; DString "example"]
           [DInt 42; DString "other"] (Zero_data examples.Target)
           "custom_tag" eq_refl).
  intros [|[|[|k]]] f; simpl; try discriminate; intros [= <-] _ Htag.
  - reflexivity.
  - now contradiction Htag.
Defined.

(** *** The stores of [ConvertStructs] *)

Lemma apply_writes_length ws :
  forall ts, length (apply_writes ws ts) = length ts.
Proof.
  induction ws as [|[i x] ws IH]; intros ts; [reflexivity|].
  change (apply_writes ((i, x) :: ws) ts)
    with (apply_writes ws (set_nth ts i x)).
  now rewrite IH, set_nth_length.
Qed.

Lemma apply_writes_nth ws :
  forall ts j,
    nth_error (apply_writes ws ts) j
    = match last_write ws j with
      | Some x => if Nat.ltb j (length ts) then Some x else None
      | None => nth_error ts j
      end.
Proof.
  induction ws as [|[i x] ws IH]; intros ts j; [reflexivity|].
  change (apply_writes ((i, x) :: ws) ts)
    with (apply_writes ws (set_nth ts i x)).
  rewrite IH, set_nth_length. simpl.
  destruct (last_write ws j); [reflexivity|].
  destruct (Nat.eqb i j) eqn:E.
  - apply Nat.eqb_eq in E. subst i.
    destruct (Nat.ltb j (length ts)) eqn:El.
    + apply Nat.ltb_lt in El. now apply set_nth_same.
    + apply Nat.ltb_ge in El. apply nth_error_None.
      now rewrite set_nth_length.
  - apply Nat.eqb_neq in E. now apply set_nth_other.
Qed.

(** The stores and the outcome of an assignment do not depend on the
    fields assigned to. *)
Lemma assign_fields_writes conv resolve fl ds :
  forall fs, exists ws r, forall ts,
    assign_fields conv resolve fl fs ds ts = (apply_writes ws ts, r).
Proof.
  induction ds as [|d ds IH]; intros [|f fs];
    try (exists [], (Ok tt); reflexivity).
  cbn [assign_fields]. destruct (IH fs) as (ws & r & Hws).
  destruct (resolve f) as [[i g]|]; [|now exists ws, r].
  destruct (conv (fieldValue fl f d) (Typ g)) as [c|msg|p].
  - exists ((i, Value_data c) :: ws), r. intros ts. apply Hws.
  - exists [], (Err msg). reflexivity.
  - exists [], (Panic p). reflexivity.
Qed.

Lemma convertStruct_loop_ext conv fl ds :
  forall ds' fs target,
    length ds = length ds' ->
    (forall k f, nth_error fs k = Some f -> IsExported f = true ->
                 nth_error ds k = nth_error ds' k) ->
    convertStruct_loop conv fl fs ds target
    = convertStruct_loop conv fl fs ds' target.
Proof.
  induction ds as [|d ds IH]; intros [|d' ds'] fs target Hlen Hsame;
    try discriminate; [reflexivity|].
  destruct fs as [|f fs]; [reflexivity|]. cbn [convertStruct_loop].
  assert (Hrest : forall t, convertStruct_loop conv fl fs ds t
                            = convertStruct_loop conv fl fs ds' t).
  { intros t. apply IH; [simpl in Hlen; lia|].
    intros k f' Hf'. apply (Hsame (S k) f' Hf'). }
  rewrite !Value_CanInterface_fieldValue.
  destruct (IsExported f) eqn:Hx.
  - specialize (Hsame 0 f eq_refl Hx). simpl in Hsame.
    injection Hsame as <-.
    destruct (negb (negb (flagRO fl) && true)); [apply Hrest|].
    destruct (Value_FieldByName target (Name f)) as [h|?|?]; try reflexivity.
    destruct (Value_IsValid (handle_value h) && Value_CanSet (handle_value h));
      [|apply Hrest].
    destruct (Value_Type (handle_value h)) as [Tf|?|?]; try reflexivity.
    destruct (conv (fieldValue fl f d) Tf) as [c|?|?]; try reflexivity.
    destruct (Value_Set target h c); try reflexivity. apply Hrest.
  - rewrite andb_false_r. simpl. apply Hrest.
Qed.

(** X19. [convertStruct] never reads an unexported source field: two
    records of one type that differ in unexported fields only convert to
    the same outcome, whatever the target type, when the two calls range
    over the maps in the exported fields in the same order (the exported
    fields hold the same data, and the data of a map carry the order in
    which a call ranges over it). *)
Theorem convertStruct_reads_only_exported_fields
    (st : rtype) (ds ds' : list data) (fl : flag) (T : rtype) :
  Type_Kind st = Struct -> length ds = length ds' ->
  (forall k f, nth_error (Type_Fields st) k = Some f ->
               IsExported f = true -> nth_error ds k = nth_error ds' k) ->
  convertValue (ValueOf st (DStruct ds) fl) T
  = convertValue (ValueOf st (DStruct ds') fl) T
  /\ convertStruct (ValueOf st (DStruct ds) fl) T
     = convertStruct (ValueOf st (DStruct ds') fl) T.
Proof.
  intros Hs Hlen Hsame.
  assert (H : convertStruct (ValueOf st (DStruct ds) fl) T
              = convertStruct (ValueOf st (DStruct ds') fl) T).
  { unfold convertStruct, convertStructWith.
    destruct (Value_Elem (New T)) as [target|?|?]; try reflexivity.
    unfold Value_NumField, Value_Kind. rewrite Hs.
    now apply convertStruct_loop_ext. }
  split; [|exact H]. rewrite !convertValue_unfold. simpl.
  now rewrite Hs.
Qed.

Lemma convertStruct_reads_only_exported_fields_witness :
  convertValue (ValueOf examples.Hidden (DStruct [DInt 1]) flag0)
               examples.Hidden
  = convertValue (ValueOf examples.Hidden (DStruct [DInt 2]) flag0)
                 examples.Hidden.
Proof.
  apply (@convertStruct_reads_only_exported_fields examples.Hidden
           [DInt 1] [DInt 2] flag0 examples.Hidden eq_refl eq_refl).
  intros [|[|k]] f; simpl; try discriminate.
  intros [= <-]. discriminate.
Defined.

(** X21. What [ConvertStructs] returns does not depend on what the
    target held, and what a target field ends up holding depends on no
    other field of the target: for two calls that range over the maps of
    the source in the same order (the source is the same data in both,
    and the data of a map carry the order in which a call ranges over
    it), on two targets of the same type the outcomes are equal, and a
    field that starts equal in both ends equal in both. *)
Theorem ConvertStructs_target_fields_independent
    (S T : rtype) (source : data) (ts1 ts2 : list data) (tagName : string) :
  length ts1 = length (Type_Fields T) ->
  length ts2 = length (Type_Fields T) ->
  snd (ConvertStructs S T source (DStruct ts1) tagName)
  = snd (ConvertStructs S T source (DStruct ts2) tagName)
  /\ forall j,
       nth_error ts1 j = nth_error ts2 j ->
       nth_error (struct_data (Value_data
                    (fst (ConvertStructs S T source (DStruct ts1) tagName)))) j
       = nth_error (struct_data (Value_data
                      (fst (ConvertStructs S T source (DStruct ts2) tagName))))
                   j.
Proof.
  intros Hl1 Hl2.
  destruct (Kind_eq_dec (Type_Kind S) Struct) as [Hs|Hs];
    [destruct (Kind_eq_dec (Type_Kind T) Struct) as [HT|HT]|].
  - rewrite !ConvertStructs_assign by assumption.
    destruct (assign_fields_writes convertValue (tagTarget tagName T) flag0
                (struct_data source) (Type_Fields S)) as (ws & r & Hws).
    rewrite !Hws. simpl. split; [reflexivity|]. intros j Hj.
    rewrite !apply_writes_nth, Hl1, Hl2, Hj. reflexivity.
  - unfold ConvertStructs. simpl. apply Kind_eqb_neq in HT.
    rewrite HT, orb_true_r. simpl. auto.
  - unfold ConvertStructs. simpl. apply Kind_eqb_neq in Hs.
    rewrite Hs. simpl. auto.
Qed.

Lemma ConvertStructs_target_fields_independent_witness :
  snd (ConvertStructs examples.Source examples.Target examples.populated
                      (DStruct [DInt 0; DString ""]) "custom_tag")
  = snd (ConvertStructs examples.Source examples.Target examples.populated
                        (DStruct [DInt 7; DString "kept"]) "custom_tag").
Proof.
  apply (@ConvertStructs_target_fields_independent examples.Source
           examples.Target examples.populated [DInt 0; DString ""]
           [DInt 7; DString "kept"] "custom_tag" eq_refl eq_refl).
Defined.

(** *** Conversion of a value to its own type *)

Lemma names_ok_underlying t : names_ok (underlying t) = names_ok t.
Proof. induction t; simpl; auto. Qed.

Lemma Type_Elem_underlying t : Type_Elem (underlying t) = Type_Elem t.
Proof. unfold Type_Elem. induction t; simpl; auto. Qed.

Lemma underlying_idem t : underlying (underlying t) = underlying t.
Proof. induction t; simpl; auto. Qed.

Lemma fields_names_ok_nth fs :
  forall seen k f,
    fields_names_ok seen fs = true ->
    nth_error (fields_of fs) k = Some f -> IsExported f = true ->
    Name f <> "" /\ ~ In (Name f) seen /\ names_ok (Typ f) = true
    /\ forall j g, j < k -> nth_error (fields_of fs) j = Some g ->
                   Name g <> Name f.
Proof.
  induction fs as [|n p t tag rest IH]; intros seen k f Hok Hf Hx.
  - destruct k; discriminate.
  - simpl in Hok. apply andb_prop in Hok as [Hhead Hrest].
    destruct k as [|k]; simpl in Hf.
    + injection Hf as <-. unfold IsExported in Hx. simpl in Hx.
      rewrite Hx in Hhead.
      apply andb_prop in Hhead as [Hhead Ht].
      apply andb_prop in Hhead as [Hn Hseen]. simpl.
      repeat split; auto.
      * apply String.eqb_neq. now apply negb_true_iff.
      * intros Hin. apply negb_true_iff in Hseen.
        assert (E : existsb (String.eqb n) seen = true).
        { apply existsb_exists. exists n. split; [exact Hin|].
          apply String.eqb_refl. }
        congruence.
      * intros j g Hlt. lia.
    + destruct (IH (n :: seen) k f Hrest Hf Hx)
        as (Hne & Hns & Ht & Hearlier).
      repeat split; auto.
      * intros Hin. apply Hns. now right.
      * intros [|j] g Hlt; simpl.
        -- intros [= <-]. simpl. intros E. apply Hns. now left.
        -- apply Hearlier. lia.
Qed.

(** With [names_ok], an exported field is the settable field of its
    name. *)
Lemma names_ok_settable t k f :
  names_ok t = true -> nth_error (Type_Fields t) k = Some f ->
  IsExported f = true ->
  settableField t (Name f) = Some (k, f) /\ names_ok (Typ f) = true.
Proof.
  intros Hok Hf Hx. rewrite <- names_ok_underlying in Hok.
  unfold Type_Fields in Hf.
  assert (Hfields : Type_Fields t = match underlying t with
                                    | StructOf fs => fields_of fs
                                    | _ => []
                                    end) by reflexivity.
  destruct (underlying t) as [| | | | | |fs] eqn:U;
    try (destruct k; discriminate).
  simpl in Hok.
  destruct (@fields_names_ok_nth fs [] k f Hok Hf Hx)
    as (Hne & _ & Ht & Hearlier).
  split; [|exact Ht].
  apply settableField_first; auto; rewrite Hfields; auto.
Qed.

Lemma copy_other d t :
  match d with
  | DStruct _ | DSlice _ _ _ | DMap _ _ => True
  | _ => copy d t = d
  end.
Proof. destruct d; simpl; auto; destruct (underlying t); reflexivity. Qed.

Lemma copy_fields_nth ds :
  forall fs k f d,
    nth_error fs k = Some f -> nth_error ds k = Some d ->
    nth_error
      ((fix copy_fields (ds : list data) (fs : list StructField)
            {struct ds} : list data :=
          match ds, fs with
          | d :: ds', f :: fs' =>
              (if IsExported f then copy d (Typ f) else Zero_data (Typ f))
              :: copy_fields ds' fs'
          | _, _ => []
          end) ds fs) k
    = Some (if IsExported f then copy d (Typ f) else Zero_data (Typ f)).
Proof.
  induction ds as [|d0 ds IH]; intros [|f0 fs] [|k] f d; try discriminate.
  - now intros [= <-] [= <-].
  - simpl. apply IH.
Qed.

Lemma copy_fields_length ds :
  forall fs,
    length ds = length fs ->
    length
      ((fix copy_fields (ds : list data) (fs : list StructField)
            {struct ds} : list data :=
          match ds, fs with
          | d :: ds', f :: fs' =>
              (if IsExported f then copy d (Typ f) else Zero_data (Typ f))
              :: copy_fields ds' fs'
          | _, _ => []
          end) ds fs)
    = length ds.
Proof.
  induction ds as [|d0 ds IH]; intros [|f0 fs]; try discriminate; auto.
  intros [= H]. simpl. now rewrite IH.
Qed.

(** [mapM] of a function that succeeds on every element. *)
Lemma mapM_pointwise (A B C : Type) (f : A -> result B) (g : B -> C)
    (h : A -> C) (l : list A) :
  (forall a, In a l -> exists b, f a = Ok b /\ g b = h a) ->
  exists bs, mapM f l = Ok bs /\ map g bs = map h l.
Proof.
  induction l as [|a l IH]; intros Hall.
  - exists []. split; reflexivity.
  - destruct (Hall a (or_introl eq_refl)) as (b & Hb & Hg).
    destruct IH as (bs & Hbs & Hmap); [intros; apply Hall; now right|].
    exists (b :: bs). simpl. rewrite Hb, Hbs. split; [reflexivity|].
    simpl. now rewrite Hg, Hmap.
Qed.

Lemma has_type_DSlice_underlying es cap isnil t :
  has_type (DSlice es cap isnil) t = true ->
  exists e, underlying t = SliceOf e.
Proof.
  simpl. destruct (underlying t) as [b| | |e| | |]; try discriminate;
    [destruct b; discriminate|eauto].
Qed.

Lemma has_type_DMap_underlying es isnil t :
  has_type (DMap es isnil) t = true ->
  exists k e, underlying t = MapOf k e.
Proof.
  simpl. destruct (underlying t) as [b| | | | |k e|]; try discriminate;
    [destruct b; discriminate|eauto].
Qed.

Lemma has_type_DStruct_underlying ds t :
  has_type (DStruct ds) t = true ->
  exists fs, underlying t = StructOf fs.
Proof.
  simpl. destruct (underlying t) as [b| | | | | |fs]; try discriminate;
    [destruct b; discriminate|eauto].
Qed.

Lemma copies_other st d fl :
  is_container (Type_Kind st) = false -> copy d st = d ->
  convertValue (ValueOf st d fl) st = Ok (ValueOf st (copy d st) fl).
Proof.
  intros Hc ->. rewrite convertValue_default;
    try (intros E; rewrite E in Hc; discriminate).
  now rewrite Type_AssignableTo_refl.
Qed.

Lemma copies_slice es cap isnil :
  Forall copies_to_own_type es -> copies_to_own_type (DSlice es cap isnil).
Proof.
  intros IH st addr Hty Hok Hkeys. rewrite Forall_forall in IH.
  destruct (has_type_DSlice_underlying _ _ _ _ Hty) as [e U].
  apply has_type_DSlice in Hty as (e' & Hs & He & Hcap & Hall).
  assert (e' = e) as ->.
  { unfold Type_Elem in He. rewrite U in He. congruence. }
  assert (Hoke : names_ok e = true).
  { rewrite <- names_ok_underlying, U in Hok. exact Hok. }
  rewrite convertValue_unfold. simpl. rewrite Hs.
  destruct (@convertSlice_closed st (DSlice es cap isnil) es cap
              (mkFlag false addr) st) as (se & te & Hse & Hte & Heq);
    [left; eauto|reflexivity|exact Hs|].
  rewrite Heq, Hs. rewrite He in Hse, Hte.
  injection Hse as <-. injection Hte as <-.
  destruct (@mapM_pointwise _ _ _
              (fun x => convertValue
                          (ValueOf e x (elem_flag Slice (mkFlag false addr)))
                          e)
              Value_data (fun x => copy x e) es) as (cs & -> & Hmap).
  { intros x Hin.
    destruct (IH x Hin e true (Hall x Hin) Hoke
                 (@all_maps_DSlice _ es cap isnil st e x Hs He Hin Hkeys))
      as [fl' Hc].
    exists (ValueOf e (copy x e) fl'). split; [exact Hc|reflexivity]. }
  exists flag0. simpl. now rewrite U, Hmap.
Qed.

Lemma copies_map es isnil :
  Forall (fun kv => copies_to_own_type (fst kv)
                    /\ copies_to_own_type (snd kv)) es ->
  copies_to_own_type (DMap es isnil).
Proof.
  intros IH st addr Hty Hok Hkeys. rewrite Forall_forall in IH.
  destruct (has_type_DMap_underlying _ _ _ Hty) as (k & e & U).
  apply has_type_DMap in Hty as (k' & e' & Hs & Hk & He & Hall).
  assert (k' = k /\ e' = e) as [-> ->].
  { unfold Type_Key in Hk. unfold Type_Elem in He. rewrite U in Hk, He.
    split; congruence. }
  assert (Hokk : names_ok k = true /\ names_ok e = true).
  { rewrite <- names_ok_underlying, U in Hok. now apply andb_prop in Hok. }
  destruct Hokk as [Hokk Hoke].
  rewrite convertValue_unfold. simpl. rewrite Hs.
  rewrite (@convertMap_closed st es isnil (mkFlag false addr) st k e k e)
    by auto.
  destruct (@all_maps_DMap _ es isnil st k e Hs Hk He Hkeys)
    as (Hkeys' & Hparts).
  apply andb_prop in Hkeys' as [Hfound Hdistinct].
  destruct (@mapM_pointwise _ _ _
              (convertEntry k e (mkFlag false addr) k e es) (fun b => b)
              (fun kv => (copy (fst kv) k, copy (snd kv) e)) es)
    as (cs & -> & Hmap).
  { intros [a x] Hin. destruct (IH (a, x) Hin) as [IHa IHx].
    destruct (Hall (a, x) Hin) as [Hta Htx].
    destruct (Hparts (a, x) Hin) as [Hka Hkx]. simpl in *.
    destruct (IHa k false Hta Hokk Hka) as [fa Hca].
    destruct (IHx e false Htx Hoke Hkx) as [fx Hcx].
    rewrite (@convertEntry_own k e (mkFlag false addr) k e es
               Hfound Hdistinct a x Hin).
    simpl. rewrite Hca, Hcx. eauto. }
  rewrite map_id in Hmap. subst cs.
  exists flag0. simpl. now rewrite U.
Qed.

Lemma copies_struct ds :
  Forall copies_to_own_type ds -> copies_to_own_type (DStruct ds).
Proof.
  intros IH st addr Hty Hok Hkeys. rewrite Forall_forall in IH.
  destruct (has_type_DStruct_underlying _ _ Hty) as (fs & U).
  apply has_type_DStruct in Hty as (Hs & Hlen & Hall).
  assert (Hfs : Type_Fields st = fields_of fs).
  { unfold Type_Fields. now rewrite U. }
  rewrite convertValue_unfold. simpl. rewrite Hs.
  rewrite convertStruct_assign by auto.
  destruct (Zero_data_Struct st Hs) as (zs & Hz & Hzl & Hzn). rewrite Hz.
  simpl struct_data.
  (* what each exported field converts to *)
  assert (Hconv : forall k f d,
             nth_error (Type_Fields st) k = Some f ->
             nth_error ds k = Some d -> IsExported f = true ->
             nameTarget st f = Some (k, f)
             /\ exists fl',
                  convertValue (fieldValue (mkFlag false addr) f d) (Typ f)
                  = Ok (ValueOf (Typ f) (copy d (Typ f)) fl')).
  { intros k f d Hf Hd Hx.
    destruct (names_ok_settable st k Hok Hf Hx) as [Hset Hokf].
    split; [unfold nameTarget; now rewrite Hx|].
    unfold fieldValue, field_flag. rewrite Hx. simpl.
    exact (IH d (nth_error_In _ _ Hd) (Typ f) addr (Hall k f d Hf Hd) Hokf
              (@all_maps_DStruct _ ds st Hs Hkeys k f d Hf Hd)). }
  assert (Hres : forall k f j g,
             nth_error (Type_Fields st) k = Some f -> k < length ds ->
             nameTarget st f = Some (j, g) -> j = k /\ g = f).
  { intros k f j g Hf Hk Hr.
    destruct (nameTarget_Some _ _ Hr) as (Hx & _).
    destruct (names_ok_settable st k Hok Hf Hx) as [Hset _].
    unfold nameTarget in Hr. rewrite Hx, Hset in Hr.
    injection Hr as <- <-. auto. }
  pose proof (assign_fields_length convertValue (nameTarget st)
                (mkFlag false addr) ds (Type_Fields st) zs) as HAl.
  pose proof (fun j => @assign_fields_frame convertValue (nameTarget st)
                (mkFlag false addr) j ds (Type_Fields st) zs) as HAf.
  pose proof (@assign_fields_last convertValue (nameTarget st)
                (mkFlag false addr) ds (Type_Fields st) zs) as HAw.
  pose proof (assign_fields_ok convertValue (nameTarget st)
                (mkFlag false addr) ds (Type_Fields st) zs) as HAok.
  destruct (assign_fields convertValue (nameTarget st) (mkFlag false addr)
              (Type_Fields st) ds zs) as [ts r].
  simpl in HAl, HAf, HAw, HAok.
  assert (Hr : r = Ok tt).
  { apply HAok. intros k f d i g Hf Hd Hr.
    assert (Hk : k < length ds) by (apply nth_error_Some; congruence).
    destruct (Hres k f i g Hf Hk Hr) as [-> ->].
    destruct (nameTarget_Some _ _ Hr) as (Hx & _).
    destruct (Hconv k f d Hf Hd Hx) as [_ [fl' ->]]. reflexivity. }
  subst r. exists flagAddressable. do 2 f_equal.
  simpl. rewrite U. f_equal.
  apply nth_error_ext. intros j.
  destruct (nth_error ds j) as [d|] eqn:Ed.
  - assert (Hj : j < length ds) by (apply nth_error_Some; congruence).
    destruct (nth_error (Type_Fields st) j) as [f|] eqn:Ef;
      [|apply nth_error_None in Ef; lia].
    rewrite Hfs in Ef.
    rewrite (copy_fields_nth ds (fields_of fs) j Ef Ed).
    rewrite <- Hfs in Ef.
    destruct (IsExported f) eqn:Hx.
    + destruct (Hconv j f d Ef Ed Hx) as [Hr [fl' Hc]].
      destruct (HAw j f d j f eq_refl Ef Ed Hr) as (c & Hc' & Hnth).
      * lia.
      * intros k' f' g' Hlt Hf' Hk' Hr'.
        destruct (Hres k' f' j g' Hf' Hk' Hr'). lia.
      * rewrite Hc in Hc'. injection Hc' as <-. exact Hnth.
    + rewrite HAf; [now apply Hzn|].
      intros k f' g Hf' Hk Hr'.
      destruct (Hres k f' j g Hf' Hk Hr') as [-> ->].
      destruct (nameTarget_Some _ _ Hr') as (Hx' & _).
      rewrite Ef in Hf'. congruence.
  - assert (Hj : length ds <= j) by (now apply nth_error_None).
    transitivity (@None data); [apply nth_error_None; lia|].
    symmetry. apply nth_error_None.
    rewrite copy_fields_length; [lia|]. now rewrite <- Hfs.
Qed.

Lemma convertValue_copies (d : data) : copies_to_own_type d.
Proof.
  induction d using data_nested_ind;
    try (intros st addr Hty Hok Hkeys; apply has_type_other in Hty;
         exists (mkFlag false addr); apply copies_other;
         [exact Hty|first [reflexivity|apply (copy_other (DPtr p) st)
                          |apply (copy_other (DArray es) st)]]).
  - now apply copies_slice.
  - now apply copies_map.
  - now apply copies_struct.
Qed.

(** X20. Conversion of a value to its own type.  A readable value whose
    data are shaped as its type says, and in whose maps the keys are
    distinct and equal themselves (none is a NaN), converts to its own
    type without error or panic, and the result is a copy of it in which
    slices and maps are rebuilt (a nil one becomes an empty one), the
    unexported fields of records are zeroed, and scalars, pointers and
    arrays are taken as they are. *)
Theorem convertValue_to_own_type
    (st : rtype) (d : data) (fl : flag) :
  has_type d st = true -> names_ok st = true -> keys_ok d st = true ->
  flagRO fl = false ->
  exists fl',
    convertValue (ValueOf st d fl) st = Ok (ValueOf st (copy d st) fl').
Proof.
  destruct fl as [ro addr]. simpl. intros Hty Hok Hkeys ->.
  now apply convertValue_copies.
Qed.

(** [map[*int]int{&a: 1, &b: 1}], with [a] and [b] both 0: the copy
    holds the two pointers. *)
Lemma convertValue_to_own_type_witness :
  exists fl',
    convertValue
      (ValueOf (MapOf (PtrTo examples.tInt) examples.tInt)
               (DMap [(DPtr (Some (1, DInt 0)), DInt 1);
                      (DPtr (Some (2, DInt 0)), DInt 1)] false) flag0)
      (MapOf (PtrTo examples.tInt) examples.tInt)
    = Ok (ValueOf (MapOf (PtrTo examples.tInt) examples.tInt)
                  (DMap [(DPtr (Some (1, DInt 0)), DInt 1);
                         (DPtr (Some (2, DInt 0)), DInt 1)] false) fl').
Proof.
  apply (@convertValue_to_own_type
           (MapOf (PtrTo examples.tInt) examples.tInt)
           (DMap [(DPtr (Some (1, DInt 0)), DInt 1);
                  (DPtr (Some (2, DInt 0)), DInt 1)] false) flag0);
    reflexivity.
Defined.

(** *** The earlier revision: errors *)

#[local] Arguments best_effort.convertValue : simpl never.

Lemma best_effort_convertValue_unfold (source : Value) (targetType : rtype) :
  best_effort.convertValue source targetType =
  match Value_Kind source with
  | Struct => best_effort.convertStruct source targetType
  | Slice => best_effort.convertSlice source targetType
  | Map => best_effort.convertMap source targetType
  | _ => convertDefault source targetType
  end.
Proof.
  destruct source as [|st d fl]; [reflexivity|].
  destruct d; reflexivity.
Qed.

Section best_effort_loops.

Variable conv : Value -> rtype -> result Value.

Lemma best_effort_convertStruct_loop_not_Err fl ds :
  forall fs target msg,
    best_effort.convertStruct_loop conv fl fs ds target <> Err msg.
Proof.
  induction ds as [|d ds IH]; intros fs target msg;
    [destruct fs; discriminate|].
  destruct fs as [|f fs]; [discriminate|]. simpl.
  destruct (negb (negb (flagRO fl || negb (IsExported f)))); [apply IH|].
  destruct (Value_FieldByName target (Name f)) as [h|m|p] eqn:Eh;
    [|intros _; no_reflect_error|discriminate].
  destruct (Value_IsValid (handle_value h) && Value_CanSet (handle_value h));
    [|apply IH].
  destruct (Value_Type (handle_value h)) as [Tf|m|p] eqn:ET;
    [|intros _; no_reflect_error|discriminate].
  destruct (conv (fieldValue fl f d) Tf) as [cv|m|p];
    [|apply IH|discriminate].
  destruct (Value_Set target h cv) as [t'|m|p] eqn:ES;
    [apply IH|intros _; no_reflect_error|discriminate].
Qed.

Lemma best_effort_convertStructWith_not_Err source T msg :
  best_effort.convertStructWith conv source T <> Err msg.
Proof.
  unfold best_effort.convertStructWith.
  destruct (Value_Elem (New T)) as [target|m|p] eqn:En; try discriminate.
  destruct (Value_NumField source) as [n|m|p] eqn:Enf;
    [|intros _; no_reflect_error|discriminate].
  destruct source as [|st d fl]; [discriminate|].
  destruct d; try discriminate.
  apply best_effort_convertStruct_loop_not_Err.
Qed.

Lemma best_effort_convertSlice_loop_not_Err te se sfl es :
  forall i target msg,
    best_effort.convertSlice_loop conv te se sfl es i target <> Err msg.
Proof.
  induction es as [|e es IH]; intros i target msg; [discriminate|]. simpl.
  destruct (conv (ValueOf se e sfl) te) as [cv|m|p];
    [|apply IH|discriminate].
  destruct (Value_Index target i) as [slot|m|p] eqn:Ei;
    [|intros _; no_reflect_error|discriminate].
  destruct (Value_Set target slot cv) as [t'|m|p] eqn:ES;
    [apply IH|intros _; no_reflect_error|discriminate].
Qed.

Lemma best_effort_convertSliceWith_Err source T msg :
  best_effort.convertSliceWith conv source T = Err msg ->
  Type_Kind T <> Slice /\ msg = "target type is not a slice".
Proof.
  unfold best_effort.convertSliceWith.
  destruct (negb (Kind_eqb (Type_Kind T) Slice)) eqn:EK.
  - intros [= <-]. apply negb_true_iff, Kind_eqb_neq in EK. auto.
  - intros H. exfalso. revert H.
    destruct (Type_Elem T) as [te|m|p] eqn:Ete;
      [|intros _; no_reflect_error|discriminate].
    destruct (Value_Len source) as [len|m|p] eqn:El;
      [|intros _; no_reflect_error|discriminate].
    destruct (Value_Cap source) as [cap|m|p] eqn:Ec;
      [|intros _; no_reflect_error|discriminate].
    destruct (MakeSlice T len cap) as [target|m|p] eqn:Em;
      [|intros _; no_reflect_error|discriminate].
    destruct source as [|st d fl]; [discriminate|].
    destruct d; try (destruct (Nat.eqb len 0); discriminate);
      (destruct (Type_Elem st) as [se|m|p] eqn:Ese;
       [|intros _; no_reflect_error|discriminate]);
      apply best_effort_convertSlice_loop_not_Err.
Qed.

Lemma best_effort_convertMap_loop_not_Err T sk se sfl all es :
  forall target msg,
    best_effort.convertMap_loop conv T sk se sfl all es target <> Err msg.
Proof.
  induction es as [|[k v] es IH]; intros target msg; [discriminate|]. simpl.
  destruct (Type_Key T) as [kt|m|p] eqn:Ekt;
    [|intros _; no_reflect_error|discriminate].
  destruct (Type_Elem T) as [et|m|p] eqn:Eet.
  - destruct (conv (ValueOf sk k (mkFlag (flagRO sfl) false)) kt)
      as [ck|m|p]; try discriminate;
      destruct (convertMapIndex conv sk se sfl k et all)
        as [cv|m'|p']; try discriminate; try apply IH.
    destruct (Value_SetMapIndex target ck cv) as [t'|m|p] eqn:ES;
      [apply IH|intros _; no_reflect_error|discriminate].
  - intros _. no_reflect_error.
  - destruct (conv (ValueOf sk k (mkFlag (flagRO sfl) false)) kt);
      discriminate.
Qed.

Lemma best_effort_convertMapWith_Err source T msg :
  best_effort.convertMapWith conv source T = Err msg ->
  Type_Kind T <> Map /\ msg = "target type is not a map".
Proof.
  unfold best_effort.convertMapWith.
  destruct (negb (Kind_eqb (Type_Kind T) Map)) eqn:EK.
  - intros [= <-]. apply negb_true_iff, Kind_eqb_neq in EK. auto.
  - intros H. exfalso. revert H.
    destruct (Value_Len source) as [len|m|p] eqn:El;
      [|intros _; no_reflect_error|discriminate].
    destruct (MakeMapWithSize T len) as [target|m|p] eqn:Em;
      [|intros _; no_reflect_error|discriminate].
    destruct source as [|st d fl]; [discriminate|].
    destruct d; try discriminate.
    destruct (Kind_eqb (Type_Kind st) Map); [|discriminate].
    destruct (Type_Key st) as [sk|m|p] eqn:Esk;
      [|intros _; no_reflect_error|discriminate].
    destruct (Type_Elem st) as [se|m|p] eqn:Ese;
      [|intros _; no_reflect_error|discriminate].
    apply best_effort_convertMap_loop_not_Err.
Qed.

End best_effort_loops.

(** X22. In the earlier revision an error of [convertValue] is decided
    by the types alone.  The call returns an error exactly when a slice
    is converted to a type that is no slice, a map to a type that is no
    map, or a value of another kind than record, slice and map to a type
    it is not assignable to; no error comes from a part of the source,
    and a record source never yields one. *)
Theorem best_effort_convertValue_error_iff
    (st : rtype) (d : data) (fl : flag) (T : rtype) (msg : string) :
  best_effort.convertValue (ValueOf st d fl) T = Err msg
  <-> (Type_Kind st = Slice /\ Type_Kind T <> Slice
       /\ msg = "target type is not a slice")
      \/ (Type_Kind st = Map /\ Type_Kind T <> Map
          /\ msg = "target type is not a map")
      \/ (is_container (Type_Kind st) = false
          /\ Type_AssignableTo st T = false
          /\ msg = "incompatible types or unsupported conversion").
Proof.
  rewrite best_effort_convertValue_unfold. simpl.
  unfold best_effort.convertStruct, best_effort.convertSlice,
    best_effort.convertMap.
  split.
  - destruct (Type_Kind st) eqn:Hk; simpl;
      try (unfold convertDefault; simpl;
           destruct (Type_AssignableTo st T); [discriminate|];
           intros [= <-]; right; right; now auto).
    + intros H. apply best_effort_convertMapWith_Err in H. tauto.
    + intros H. apply best_effort_convertSliceWith_Err in H. tauto.
    + intros H. now apply best_effort_convertStructWith_not_Err in H.
  - intros [(Hs & HT & ->)|[(Hs & HT & ->)|(Hs & HT & ->)]].
    + rewrite Hs. unfold best_effort.convertSliceWith.
      apply Kind_eqb_neq in HT. now rewrite HT.
    + rewrite Hs. unfold best_effort.convertMapWith.
      apply Kind_eqb_neq in HT. now rewrite HT.
    + destruct (Type_Kind st); try discriminate;
        unfold convertDefault; simpl; now rewrite HT.
Qed.

Lemma best_effort_ConvertStructs_field_not_Err tagName f sourceField
    targetVal msg :
  best_effort.ConvertStructs_field tagName f sourceField targetVal
  <> Err msg.
Proof.
  unfold best_effort.ConvertStructs_field.
  destruct (Value_CanInterface sourceField) as [c|?|?] eqn:Ec;
    [|intros _; no_reflect_error|discriminate].
  destruct (negb c || (Tag_Get (Tag f) tagName =? "")); [discriminate|].
  destruct (resolveTargetField tagName f targetVal) as [[h|]|?|?] eqn:Er;
    [|discriminate|intros _; no_reflect_error|discriminate].
  destruct (negb (Value_IsValid (handle_value h))
            || negb (Value_CanSet (handle_value h))); [discriminate|].
  destruct (Value_Type (handle_value h)) as [Tf|?|?] eqn:ET;
    [|intros _; no_reflect_error|discriminate].
  destruct (best_effort.convertValue sourceField Tf) as [cv|?|?];
    try discriminate.
  intros E. no_reflect_error.
Qed.

Lemma best_effort_ConvertStructs_loop_not_Err tagName ds :
  forall fs targetVal msg,
    snd (best_effort.ConvertStructs_loop tagName fs ds targetVal)
    <> Err msg.
Proof.
  induction ds as [|d ds IH]; intros fs targetVal msg;
    [destruct fs; discriminate|].
  destruct fs as [|f fs]; [discriminate|].
  cbn [best_effort.ConvertStructs_loop].
  destruct (best_effort.ConvertStructs_field tagName f (fieldValue flag0 f d)
              targetVal) as [t'|m|p] eqn:Ef;
    [apply IH| |discriminate].
  now apply best_effort_ConvertStructs_field_not_Err in Ef.
Qed.

(** X23. In the earlier revision [ConvertStructs] returns an error
    exactly when the source or the target is no record, and then its own
    ["source or target is not a struct"]: a field that fails to convert
    is passed over in silence. *)
Theorem best_effort_ConvertStructs_error_iff
    (S T : rtype) (source target : data) (tagName : string) (msg : string) :
  snd (best_effort.ConvertStructs S T source target tagName) = Err msg
  <-> (Type_Kind S <> Struct \/ Type_Kind T <> Struct)
      /\ msg = "source or target is not a struct".
Proof.
  unfold best_effort.ConvertStructs. simpl.
  destruct (Kind_eqb (Type_Kind S) Struct) eqn:Es;
    destruct (Kind_eqb (Type_Kind T) Struct) eqn:Et; simpl.
  - apply Kind_eqb_eq in Es, Et. split.
    + intros H. now apply best_effort_ConvertStructs_loop_not_Err in H.
    + intros [[H|H] _]; congruence.
  - apply Kind_eqb_neq in Et. split; [intros [= <-]|intros [_ ->]]; auto.
  - apply Kind_eqb_neq in Es. split; [intros [= <-]|intros [_ ->]]; auto.
  - apply Kind_eqb_neq in Es. split; [intros [= <-]|intros [_ ->]]; auto.
Qed.

(** *** The earlier revision: agreement with [converter.go] *)

Section agreement.

Variables conv1 conv2 : Value -> rtype -> result Value.

Hypothesis agree_on_zero :
  forall T v, conv1 ZeroValue T = Ok v -> conv2 ZeroValue T = Ok v.

Lemma best_effort_convertStruct_loop_agrees fl ds :
  Forall (agrees_on conv1 conv2) ds ->
  forall fs target v,
    convertStruct_loop conv1 fl fs ds target = Ok v ->
    best_effort.convertStruct_loop conv2 fl fs ds target = Ok v.
Proof.
  induction 1 as [|d ds Hd _ IH]; intros fs target v.
  - destruct fs; exact (fun H => H).
  - destruct fs as [|f fs]; [exact (fun H => H)|]. simpl.
    destruct (negb (negb (flagRO fl || negb (IsExported f)))); [apply IH|].
    destruct (Value_FieldByName target (Name f)) as [h|m|p];
      try discriminate.
    destruct (Value_IsValid (handle_value h) && Value_CanSet (handle_value h));
      [|apply IH].
    destruct (Value_Type (handle_value h)) as [Tf|m|p]; try discriminate.
    destruct (conv1 (fieldValue fl f d) Tf) as [cv|m|p] eqn:Ec;
      try discriminate.
    unfold fieldValue in Ec. apply Hd in Ec. unfold fieldValue. rewrite Ec.
    destruct (Value_Set target h cv) as [t'|m|p]; try discriminate.
    apply IH.
Qed.

Lemma best_effort_convertSlice_loop_agrees te se sfl es :
  Forall (agrees_on conv1 conv2) es ->
  forall i target v,
    convertSlice_loop conv1 te se sfl es i target = Ok v ->
    best_effort.convertSlice_loop conv2 te se sfl es i target = Ok v.
Proof.
  induction 1 as [|e es He _ IH]; intros i target v; [exact (fun H => H)|].
  simpl.
  destruct (conv1 (ValueOf se e sfl) te) as [cv|m|p] eqn:Ec;
    try discriminate.
  apply He in Ec. rewrite Ec.
  destruct (Value_Index target i) as [slot|m|p]; try discriminate.
  destruct (Value_Set target slot cv) as [t'|m|p]; try discriminate.
  apply IH.
Qed.

Lemma best_effort_convertMapIndex_agrees sk se sfl k et all v :
  Forall (fun kv => agrees_on conv1 conv2 (fst kv)
                    /\ agrees_on conv1 conv2 (snd kv)) all ->
  convertMapIndex conv1 sk se sfl k et all = Ok v ->
  convertMapIndex conv2 sk se sfl k et all = Ok v.
Proof.
  induction 1 as [|[k' x'] all [_ Hx] _ IH].
  - rewrite !convertMapIndex_nil. apply agree_on_zero.
  - rewrite !convertMapIndex_cons. destruct (key_equal sk k' k); [|exact IH].
    apply Hx.
Qed.

Lemma best_effort_convertMap_loop_agrees T sk se sfl all es :
  Forall (fun kv => agrees_on conv1 conv2 (fst kv)
                    /\ agrees_on conv1 conv2 (snd kv)) all ->
  Forall (fun kv => agrees_on conv1 conv2 (fst kv)
                    /\ agrees_on conv1 conv2 (snd kv)) es ->
  forall target v,
    convertMap_loop conv1 T sk se sfl all es target = Ok v ->
    best_effort.convertMap_loop conv2 T sk se sfl all es target = Ok v.
Proof.
  intros Hall.
  induction 1 as [|[k x] es [Hk _] _ IH]; intros target v;
    [exact (fun H => H)|].
  simpl in Hk. simpl.
  destruct (Type_Key T) as [kt|m|p]; try discriminate.
  destruct (conv1 (ValueOf sk k (mkFlag (flagRO sfl) false)) kt)
    as [ck|m|p] eqn:Eck; try discriminate.
  destruct (Type_Elem T) as [et|m|p]; try discriminate.
  destruct (convertMapIndex conv1 sk se sfl k et all)
    as [cx|m|p] eqn:Ecx; try discriminate.
  apply Hk in Eck. apply (best_effort_convertMapIndex_agrees _ _ _ _ _ Hall)
    in Ecx.
  rewrite Eck, Ecx.
  destruct (Value_SetMapIndex target ck cx) as [t'|m|p]; try discriminate.
  apply IH.
Qed.

Lemma best_effort_strategies_agree st d fl T v :
  (forall ds, d = DStruct ds -> Forall (agrees_on conv1 conv2) ds) ->
  Forall (agrees_on conv1 conv2) (seq_data d) ->
  Forall (fun kv => agrees_on conv1 conv2 (fst kv)
                    /\ agrees_on conv1 conv2 (snd kv)) (map_data d) ->
  (convertStructWith conv1 (ValueOf st d fl) T = Ok v ->
   best_effort.convertStructWith conv2 (ValueOf st d fl) T = Ok v)
  /\ (convertSliceWith conv1 (ValueOf st d fl) T = Ok v ->
      best_effort.convertSliceWith conv2 (ValueOf st d fl) T = Ok v)
  /\ (convertMapWith conv1 (ValueOf st d fl) T = Ok v ->
      best_effort.convertMapWith conv2 (ValueOf st d fl) T = Ok v).
Proof.
  intros HS HL HM. split; [|split].
  - unfold convertStructWith, best_effort.convertStructWith.
    destruct (Value_Elem (New T)) as [target|m|p]; try discriminate.
    destruct (Value_NumField (ValueOf st d fl)) as [n|m|p];
      try discriminate.
    destruct d; try exact (fun H => H).
    apply best_effort_convertStruct_loop_agrees. now apply HS.
  - unfold convertSliceWith, best_effort.convertSliceWith.
    destruct (negb (Kind_eqb (Type_Kind T) Slice)); [discriminate|].
    destruct (Type_Elem T) as [te|m|p]; try discriminate.
    destruct (Value_Len (ValueOf st d fl)) as [len|m|p]; try discriminate.
    destruct (Value_Cap (ValueOf st d fl)) as [cap|m|p]; try discriminate.
    destruct (MakeSlice T len cap) as [target|m|p]; try discriminate.
    destruct d; try exact (fun H => H);
      (destruct (Type_Elem st) as [se|m|p]; try discriminate);
      now apply best_effort_convertSlice_loop_agrees.
  - unfold convertMapWith, best_effort.convertMapWith.
    destruct (negb (Kind_eqb (Type_Kind T) Map)); [discriminate|].
    destruct (Value_Len (ValueOf st d fl)) as [len|m|p]; try discriminate.
    destruct (MakeMapWithSize T len) as [target|m|p]; try discriminate.
    destruct d; try discriminate.
    destruct (Kind_eqb (Type_Kind st) Map); [|discriminate].
    destruct (Type_Key st) as [sk|m|p]; try discriminate.
    destruct (Type_Elem st) as [se|m|p]; try discriminate.
    now apply best_effort_convertMap_loop_agrees.
Qed.

End agreement.

Lemma best_effort_agrees_on (d : data) :
  agrees_on convertValue best_effort.convertValue d.
Proof.
  induction d using data_nested_ind; intros st fl T v;
    rewrite convertValue_unfold, best_effort_convertValue_unfold;
    unfold Value_Kind, convertStruct, convertSlice, convertMap,
      best_effort.convertStruct, best_effort.convertSlice,
      best_effort.convertMap;
    destruct (Type_Kind st); try exact (fun H => H);
    (apply best_effort_strategies_agree;
     [intros ? ?; discriminate|..]); simpl;
    try discriminate; try (intros ? [= <-]); try assumption;
    try (constructor; fail).
Qed.

(** X24. The two revisions agree where [converter.go] succeeds:
    whenever [convertValue] of [converter.go] returns a value, the
    [convertValue] of the earlier revision returns the same value, when
    it ranges over the maps of the source in the same order (the source
    is the same data in both calls, and the data of a map carry the
    order in which a call ranges over it). *)
Theorem best_effort_convertValue_agrees
    (source : Value) (T : rtype) (v : Value) :
  convertValue source T = Ok v -> best_effort.convertValue source T = Ok v.
Proof.
  destruct source as [|st d fl]; [exact (fun H => H)|].
  apply best_effort_agrees_on.
Qed.

Lemma best_effort_convertValue_agrees_witness :
  best_effort.convertValue examples.ints examples.Ints
  = Ok (ValueOf examples.Ints (DSlice [DInt 1; DInt 2; DInt 3] 4 false)
                flag0).
Proof.
  apply (@best_effort_convertValue_agrees examples.ints examples.Ints).
  reflexivity.
Defined.

Lemma best_effort_ConvertStructs_loop_agrees tagName ds :
  forall fs targetVal v,
    ConvertStructs_loop tagName fs ds targetVal = (v, Ok tt) ->
    best_effort.ConvertStructs_loop tagName fs ds targetVal = (v, Ok tt).
Proof.
  induction ds as [|d ds IH]; intros fs targetVal v;
    [destruct fs; exact (fun H => H)|].
  destruct fs as [|f fs]; [exact (fun H => H)|].
  cbn [ConvertStructs_loop best_effort.ConvertStructs_loop].
  assert (Hfield : forall t',
             ConvertStructs_field tagName f (fieldValue flag0 f d) targetVal
             = Ok t' ->
             best_effort.ConvertStructs_field tagName f
               (fieldValue flag0 f d) targetVal = Ok t').
  { intros t'. unfold ConvertStructs_field, best_effort.ConvertStructs_field.
    destruct (Value_CanInterface (fieldValue flag0 f d)) as [c|?|?];
      try discriminate.
    destruct (negb c || (Tag_Get (Tag f) tagName =? ""));
      [exact (fun H => H)|].
    destruct (resolveTargetField tagName f targetVal) as [[h|]|?|?];
      try discriminate; [|exact (fun H => H)].
    destruct (negb (Value_IsValid (handle_value h))
              || negb (Value_CanSet (handle_value h)));
      [exact (fun H => H)|].
    destruct (Value_Type (handle_value h)) as [Tf|?|?]; try discriminate.
    destruct (convertValue (fieldValue flag0 f d) Tf) as [cv|?|?] eqn:Ec;
      try discriminate.
    unfold fieldValue in Ec. apply best_effort_agrees_on in Ec.
    unfold fieldValue. now rewrite Ec. }
  destruct (ConvertStructs_field tagName f (fieldValue flag0 f d) targetVal)
    as [t'|m|p]; try discriminate.
  rewrite (Hfield t' eq_refl). apply IH.
Qed.

(** X25. The two revisions of [ConvertStructs] agree where
    [converter.go] succeeds: whenever [ConvertStructs] of [converter.go]
    returns nil, the earlier revision returns nil as well and leaves the
    target in the same state, when it ranges over the maps of the source
    in the same order (the source is the same data in both calls, and
    the data of a map carry the order in which a call ranges over
    it). *)
Theorem best_effort_ConvertStructs_agrees
    (S T : rtype) (source target : data) (tagName : string) (v : Value) :
  ConvertStructs S T source target tagName = (v, Ok tt) ->
  best_effort.ConvertStructs S T source target tagName = (v, Ok tt).
Proof.
  unfold ConvertStructs, best_effort.ConvertStructs.
  destruct (negb (Kind_eqb (Value_Kind (ValueOf S source flag0)) Struct)
            || negb (Kind_eqb (Value_Kind (ValueOf T target flagAddressable))
                              Struct)); [discriminate|].
  apply best_effort_ConvertStructs_loop_agrees.
Qed.

Lemma best_effort_ConvertStructs_agrees_witness :
  best_effort.ConvertStructs examples.Source examples.Target
    examples.populated (Zero_data examples.Target) "custom_tag"
  = (ValueOf examples.Target (DStruct [DInt 42; DString ""]) flagAddressable,
     Ok tt).
Proof.
  apply (@best_effort_ConvertStructs_agrees examples.Source examples.Target
           examples.populated (Zero_data examples.Target) "custom_tag").
  reflexivity.
Defined.

(** *** The earlier revision: elements that fail to convert *)

Lemma Value_Index_index v i h : Value_Index v i = Ok h -> handle_index h = i.
Proof.
  unfold Value_Index. destruct v as [|t d fl]; [discriminate|].
  destruct (Type_Kind t); try discriminate;
    (destruct (Type_Elem t); try discriminate;
     destruct (nth_error (seq_data d) i); try discriminate;
     now intros [= <-]).
Qed.

Lemma best_effort_convertSlice_loop_Ok
    (conv : Value -> rtype -> result Value) (te se : rtype) (sfl : flag)
    (T : rtype) (cap : nat) (tfl : flag) (v : Value) :
  forall (es done todo : list data),
    length todo = length es ->
    best_effort.convertSlice_loop conv te se sfl es (length done)
      (ValueOf T (DSlice (done ++ todo) cap false) tfl) = Ok v ->
    exists ds,
      v = ValueOf T (DSlice (done ++ ds) cap false) tfl
      /\ length ds = length es
      /\ forall i e, nth_error es i = Some e ->
           match conv (ValueOf se e sfl) te with
           | Ok c => nth_error ds i = Some (Value_data c)
           | Err _ => nth_error ds i = nth_error todo i
           | Panic _ => False
           end.
Proof.
  induction es as [|e es IH]; intros done todo Hlen.
  - destruct todo; [|discriminate]. simpl. intros [= <-]. exists [].
    repeat split; auto. intros [|i] e; discriminate.
  - destruct todo as [|t todo]; [discriminate|].
    cbn [best_effort.convertSlice_loop].
    assert (Hnext : forall x,
               best_effort.convertSlice_loop conv te se sfl es
                 (S (length done))
                 (ValueOf T (DSlice (done ++ x :: todo) cap false) tfl)
               = Ok v ->
               exists ds',
                 v = ValueOf T (DSlice (done ++ x :: ds') cap false) tfl
                 /\ length ds' = length es
                 /\ forall i e0, nth_error es i = Some e0 ->
                      match conv (ValueOf se e0 sfl) te with
                      | Ok c => nth_error ds' i = Some (Value_data c)
                      | Err _ => nth_error ds' i = nth_error todo i
                      | Panic _ => False
                      end).
    { intros x Hx.
      replace (done ++ x :: todo) with ((done ++ [x]) ++ todo) in Hx
        by now rewrite <- app_assoc.
      replace (S (length done)) with (length (done ++ [x])) in Hx
        by (rewrite length_app; simpl; lia).
      destruct (IH (done ++ [x]) todo) as (ds' & Hv & Hl & Hnth);
        [simpl in Hlen; lia|exact Hx|].
      exists ds'. rewrite <- app_assoc in Hv. auto. }
    destruct (conv (ValueOf se e sfl) te) as [c|m|p] eqn:Ec; try discriminate.
    + destruct (Value_Index
                  (ValueOf T (DSlice (done ++ t :: todo) cap false) tfl)
                  (length done)) as [slot|m|p] eqn:Ei;
        try discriminate.
      apply Value_Index_index in Ei.
      destruct (Value_Set
                  (ValueOf T (DSlice (done ++ t :: todo) cap false) tfl)
                  slot c) as [t'|m|p] eqn:Es; try discriminate.
      apply Value_Set_Ok in Es. rewrite Ei in Es. simpl in Es.
      rewrite set_nth_app in Es. subst t'. intros Hx.
      destruct (Hnext _ Hx) as (ds' & Hv & Hl & Hnth).
      exists (Value_data c :: ds'). split; [exact Hv|].
      split; [simpl; congruence|].
      intros [|i] e0; simpl.
      * intros [= <-]. now rewrite Ec.
      * apply Hnth.
    + intros Hx. destruct (Hnext _ Hx) as (ds' & Hv & Hl & Hnth).
      exists (t :: ds'). split; [exact Hv|]. split; [simpl; congruence|].
      intros [|i] e0; simpl.
      * intros [= <-]. now rewrite Ec.
      * apply Hnth.
Qed.

(** X26. In the earlier revision [convertSlice] passes over what does not
    convert.  When a call on a slice returns, the result has the length
    and the capacity of the source; at each index it holds the converted
    element, or the zero value of the target element type where the
    conversion of the element returned an error. *)
Theorem best_effort_convertSlice_zero_fills
    (st : rtype) (es : list data) (cap : nat) (isnil : bool) (fl : flag)
    (T se te : rtype) (v : Value) :
  Type_Elem st = Ok se -> Type_Kind T = Slice -> Type_Elem T = Ok te ->
  best_effort.convertSlice (ValueOf st (DSlice es cap isnil) fl) T = Ok v ->
  exists ds,
    v = ValueOf T (DSlice ds cap false) flag0
    /\ length ds = length es
    /\ forall i e, nth_error es i = Some e ->
         match best_effort.convertValue
                 (ValueOf se e (elem_flag Slice fl)) te with
         | Ok c => nth_error ds i = Some (Value_data c)
         | Err _ => nth_error ds i = Some (Zero_data te)
         | Panic _ => False
         end.
Proof.
  intros Hse HT Hte.
  unfold best_effort.convertSlice, best_effort.convertSliceWith, MakeSlice.
  rewrite (proj2 (Kind_eqb_eq _ _) HT), Hte. simpl.
  destruct (Type_Kind st) as [|b| | | | |]; simpl; try discriminate;
    [destruct b; discriminate|].
  destruct (Nat.ltb cap (length es)); simpl; [discriminate|].
  rewrite Hse. intros H.
  destruct (@best_effort_convertSlice_loop_Ok best_effort.convertValue
              te se (elem_flag Slice fl) T cap flag0 v es []
              (repeat (Zero_data te) (length es)))
    as (ds & Hv & Hl & Hnth); [apply repeat_length|exact H|].
  exists ds. split; [exact Hv|]. split; [exact Hl|].
  intros i e Hi. specialize (Hnth i e Hi). unfold elem_flag in Hnth.
  destruct (best_effort.convertValue
              (ValueOf se e (mkFlag (flagRO fl) true)) te); auto.
  rewrite Hnth. apply nth_error_repeat.
  apply nth_error_Some. congruence.
Qed.

Lemma best_effort_convertSlice_zero_fills_witness :
  exists ds,
    ValueOf (SliceOf examples.tString)
            (DSlice [DString ""; DString ""; DString ""] 4 false) flag0
    = ValueOf (SliceOf examples.tString) (DSlice ds 4 false) flag0
    /\ length ds = 3
    /\ nth_error ds 0 = Some (Zero_data examples.tString).
Proof.
  destruct (@best_effort_convertSlice_zero_fills (SliceOf examples.tInt)
              [DInt 1; DInt 2; DInt 3] 4 false flag0
              (SliceOf examples.tString) examples.tInt examples.tString
              (ValueOf (SliceOf examples.tString)
                       (DSlice [DString ""; DString ""; DString ""] 4 false)
                       flag0)
              eq_refl eq_refl eq_refl eq_refl)
    as (ds & Hv & Hl & Hnth).
  exists ds. split; [exact Hv|]. split; [exact Hl|].
  exact (Hnth 0 (DInt 1) eq_refl).
Defined.

(** *** Converted values are well shaped *)

Lemma has_type_underlying_eq d a b :
  underlying a = underlying b -> has_type d a = has_type d b.
Proof. destruct d; simpl; now intros ->. Qed.

Lemma has_type_fields_intro ds :
  forall fs,
    length ds = length fs ->
    (forall k f d, nth_error fs k = Some f -> nth_error ds k = Some d ->
                   has_type d (Typ f) = true) ->
    (fix fields_have_type (ds : list data) (fs : list StructField)
         {struct ds} : bool :=
       match ds, fs with
       | [], [] => true
       | d :: ds', f :: fs' => has_type d (Typ f) && fields_have_type ds' fs'
       | _, _ => false
       end) ds fs = true.
Proof.
  induction ds as [|d ds IH]; intros [|f fs] Hlen Hall; try discriminate.
  - reflexivity.
  - rewrite (Hall 0 f d eq_refl eq_refl). simpl.
    apply IH; [simpl in Hlen; lia|].
    intros k. apply (Hall (S k)).
Qed.

Lemma underlying_not_Defined t n u : underlying t <> Defined n u.
Proof. induction t; simpl; try discriminate; auto. Qed.

Lemma has_type_DStruct_intro ds t :
  Type_Kind t = Struct -> length ds = length (Type_Fields t) ->
  (forall k f d, nth_error (Type_Fields t) k = Some f ->
                 nth_error ds k = Some d -> has_type d (Typ f) = true) ->
  has_type (DStruct ds) t = true.
Proof.
  unfold Type_Fields. rewrite <- Type_Kind_underlying. simpl.
  destruct (underlying t) eqn:U; try discriminate.
  - now apply underlying_not_Defined in U.
  - intros _. apply has_type_fields_intro.
Qed.

Lemma has_type_Zero (t : rtype) :
  has_type (Zero_data t) t = true
with has_type_Zero_fields (fs : fieldlist) :
  length (Zero_fields fs) = length (fields_of fs)
  /\ forall k f d, nth_error (fields_of fs) k = Some f ->
                   nth_error (Zero_fields fs) k = Some d ->
                   has_type d (Typ f) = true.
Proof.
  - destruct t as [b|n u|e|e|n e|k e|fs].
    + destruct b; reflexivity.
    + rewrite (@has_type_underlying_eq _ (Defined n u) u) by reflexivity.
      apply (has_type_Zero u).
    + reflexivity.
    + reflexivity.
    + simpl. rewrite repeat_length, Nat.eqb_refl. simpl.
      apply forallb_forall. intros x Hx. apply repeat_spec in Hx. subst x.
      apply (has_type_Zero e).
    + reflexivity.
    + destruct (has_type_Zero_fields fs) as [Hl Hn].
      apply has_type_DStruct_intro; [reflexivity|exact Hl|exact Hn].
  - destruct fs as [|n p t tag rest].
    + split; [reflexivity|]. intros [|k] f d; discriminate.
    + destruct (has_type_Zero_fields rest) as [Hl Hn]. split.
      * simpl. now rewrite Hl.
      * intros [|k] f d; simpl.
        -- intros [= <-] [= <-]. simpl. apply (has_type_Zero t).
        -- apply Hn.
Qed.

Lemma has_type_assignable d V T :
  Type_AssignableTo V T = true -> has_type d V = true -> has_type d T = true.
Proof.
  intros Ha Hd. apply Type_AssignableTo_underlying in Ha.
  now rewrite <- (@has_type_underlying_eq d V T Ha).
Qed.

Lemma mapM_Ok_In (A B : Type) (f : A -> result B) (l : list A) bs :
  mapM f l = Ok bs ->
  forall b, In b bs -> exists a, In a l /\ f a = Ok b.
Proof.
  revert bs. induction l as [|a l IH]; simpl; intros bs.
  - intros [= <-] b [].
  - destruct (f a) as [b0|?|?] eqn:Ea; try discriminate.
    destruct (mapM f l) as [bs'|?|?]; try discriminate.
    intros [= <-] b [<-|Hin]; [eauto|].
    destruct (IH bs' eq_refl b Hin) as (a' & Ha' & Hf). eauto.
Qed.

(** What holds of the fields at the start and of every store holds of
    the fields at the end, whatever the outcome. *)
Lemma assign_fields_invariant conv resolve fl (Q : nat -> data -> Prop) ds :
  forall fs ts,
    (forall j x, nth_error ts j = Some x -> Q j x) ->
    (forall k f d i g c,
       nth_error fs k = Some f -> nth_error ds k = Some d ->
       resolve f = Some (i, g) ->
       conv (fieldValue fl f d) (Typ g) = Ok c -> Q i (Value_data c)) ->
    forall j x,
      nth_error (fst (assign_fields conv resolve fl fs ds ts)) j = Some x ->
      Q j x.
Proof.
  induction ds as [|d ds IH]; intros [|f fs] ts Hts Hw; try exact Hts.
  cbn [assign_fields].
  assert (Hw' : forall k f0 d0 i g c,
             nth_error fs k = Some f0 -> nth_error ds k = Some d0 ->
             resolve f0 = Some (i, g) ->
             conv (fieldValue fl f0 d0) (Typ g) = Ok c ->
             Q i (Value_data c)).
  { intros k. apply (Hw (S k)). }
  destruct (resolve f) as [[i g]|] eqn:Er; [|now apply IH].
  destruct (conv (fieldValue fl f d) (Typ g)) as [c|?|?] eqn:Ec;
    try exact Hts.
  apply IH; [|exact Hw'].
  intros j x. destruct (Nat.eq_dec i j) as [->|Hne].
  - destruct (nth_error ts j) eqn:Ej.
    + rewrite set_nth_same by (apply nth_error_Some; congruence).
      intros [= <-]. exact (Hw 0 f d j g c eq_refl eq_refl Er Ec).
    + intros Hx. exfalso.
      assert (Hlen : j < length (set_nth ts j (Value_data c)))
        by (apply nth_error_Some; congruence).
      rewrite set_nth_length in Hlen. apply nth_error_None in Ej. lia.
  - rewrite set_nth_other by exact Hne. apply Hts.
Qed.

Lemma keeps_shape_slice es cap isnil :
  Forall keeps_shape es -> keeps_shape (DSlice es cap isnil).
Proof.
  intros IH st addr T v Hty Hv. rewrite Forall_forall in IH.
  apply has_type_DSlice in Hty as (e & Hs & He & Hcap & Hall).
  rewrite convertValue_unfold in Hv. simpl in Hv. rewrite Hs in Hv.
  destruct (Kind_eq_dec (Type_Kind T) Slice) as [HT|HT];
    [|now rewrite convertSlice_not_slice_target in Hv].
  destruct (@convertSlice_closed st (DSlice es cap isnil) es cap
              (mkFlag false addr) T) as (se & te & Hse & Hte & Heq);
    [left; eauto|reflexivity|exact HT|].
  rewrite Heq, Hs in Hv. rewrite He in Hse. injection Hse as <-.
  destruct (mapM _ es) as [cs|?|?] eqn:Em; try discriminate.
  injection Hv as <-. simpl.
  destruct (Type_Kind_Slice_Elem T HT) as (te' & U & Hte').
  rewrite Hte in Hte'. injection Hte' as <-. rewrite U.
  destruct (mapM_Ok_nth _ _ Em) as [Hlen _].
  rewrite length_map, Hlen, (proj2 (Nat.leb_le _ _) Hcap). simpl.
  apply forallb_forall. intros x Hx. apply in_map_iff in Hx as (c & <- & Hc).
  destruct (mapM_Ok_In _ _ Em c Hc) as (a & Ha & Hconv).
  exact (IH a Ha e true te c (Hall a Ha) Hconv).
Qed.

Lemma keeps_shape_map es isnil :
  Forall (fun kv => keeps_shape (fst kv) /\ keeps_shape (snd kv)) es ->
  keeps_shape (DMap es isnil).
Proof.
  intros IH st addr T v Hty Hv. rewrite Forall_forall in IH.
  apply has_type_DMap in Hty as (k & e & Hs & Hk & He & Hall).
  rewrite convertValue_unfold in Hv. simpl in Hv. rewrite Hs in Hv.
  destruct (Kind_eq_dec (Type_Kind T) Map) as [HT|HT].
  - destruct (Type_Kind_underlying_Map T HT) as (kt & et & U).
    assert (Hkt : Type_Key T = Ok kt) by (unfold Type_Key; now rewrite U).
    assert (Het : Type_Elem T = Ok et) by (unfold Type_Elem; now rewrite U).
    rewrite (@convertMap_closed st es isnil (mkFlag false addr) T k e kt et)
      in Hv by auto.
    destruct (mapM _ es) as [cs|?|?] eqn:Em; try discriminate.
    injection Hv as <-. simpl. rewrite U.
    assert (Hcs : forall kd vd,
               In (kd, vd) cs ->
               has_type kd kt = true /\ has_type vd et = true).
    { intros kd vd Hin.
      destruct (mapM_Ok_In _ _ Em _ Hin) as ([a x] & Ha & Hconv).
      apply convertEntry_Ok in Hconv as (ck & cx & Hck & Hcx & -> & ->).
      destruct (IH (a, x) Ha) as [IHa _].
      destruct (Hall (a, x) Ha) as [Hta _]. simpl in *.
      split; [exact (IHa k false kt ck Hta Hck)|].
      rewrite convertMapIndex_found in Hcx.
      destruct (map_find k es a) as [x'|] eqn:Ef; [|discriminate].
      apply map_find_In in Ef as (a' & Hin' & _).
      destruct (IH (a', x') Hin') as [_ IHx].
      destruct (Hall (a', x') Hin') as [_ Htx]. simpl in *.
      exact (IHx e false et cx Htx Hcx). }
    apply forallb_forall. intros [kd vd] Hin.
    apply map_inserts_In in Hin as [[]|(k1 & Hk1 & Hkd)]. simpl.
    destruct (Hcs _ _ Hk1) as [Hk1' Hvd].
    destruct Hkd as [->|(_ & _ & v0 & Hv0)].
    + now rewrite Hk1', Hvd.
    + simpl in Hv0. destruct (Hcs _ _ Hv0) as [Hkd' _].
      now rewrite Hkd', Hvd.
  - unfold convertMap, convertMapWith in Hv.
    apply Kind_eqb_neq in HT. now rewrite HT in Hv.
Qed.

Lemma keeps_shape_struct ds :
  Forall keeps_shape ds -> keeps_shape (DStruct ds).
Proof.
  intros IH st addr T v Hty Hv. rewrite Forall_forall in IH.
  apply has_type_DStruct in Hty as (Hs & Hlen & Hall).
  destruct (Kind_eq_dec (Type_Kind T) Struct) as [HT|HT].
  - rewrite convertValue_unfold in Hv. simpl in Hv. rewrite Hs in Hv.
    rewrite convertStruct_assign in Hv by auto.
    destruct (Zero_data_Struct T HT) as (zs & Hz & Hzl & Hzn).
    rewrite Hz in Hv. simpl in Hv.
    pose proof (assign_fields_length convertValue (nameTarget T)
                  (mkFlag false addr) ds (Type_Fields st) zs) as HAl.
    pose proof (@assign_fields_invariant convertValue (nameTarget T)
                  (mkFlag false addr)
                  (fun j x => forall g, nth_error (Type_Fields T) j = Some g ->
                                        has_type x (Typ g) = true)
                  ds (Type_Fields st) zs) as HAi.
    destruct (assign_fields convertValue (nameTarget T) (mkFlag false addr)
                (Type_Fields st) ds zs) as [ts [[]|?|?]]; try discriminate.
    injection Hv as <-. simpl in *.
    apply has_type_DStruct_intro; [exact HT|congruence|].
    intros j g x Hg Hx. apply (HAi) with (j := j); auto.
    + intros j' x' Hx' g' Hg'. rewrite (Hzn j' g' Hg') in Hx'.
      injection Hx' as <-. apply has_type_Zero.
    + intros k f d i g' c Hf Hd Hr Hc g'' Hg''.
      apply nameTarget_Some in Hr as (Hxf & Hgi & _).
      assert (g'' = g') by congruence. subst g''.
      unfold fieldValue, field_flag in Hc. rewrite Hxf in Hc. simpl in Hc.
      exact (IH d (nth_error_In _ _ Hd) (Typ f) addr (Typ g') c
                (Hall k f d Hf Hd) Hc).
  - destruct (@convertValue_struct_to_non_struct
                (ValueOf st (DStruct ds) (mkFlag false addr)) T Hs HT)
      as [E|E]; rewrite E in Hv; [|discriminate].
    injection Hv as <-. apply has_type_Zero.
Qed.

Lemma convertValue_keeps_shape (d : data) : keeps_shape d.
Proof.
  induction d using data_nested_ind;
    try (intros st addr T v Hty Hv;
         pose proof (has_type_other _ _ Hty) as Hc; simpl in Hc;
         rewrite convertValue_default in Hv
           by (intros E; rewrite E in Hc; discriminate);
         destruct (Type_AssignableTo st T) eqn:Ha; [|discriminate];
         injection Hv as <-; exact (@has_type_assignable _ _ _ Ha Hty)).
  - now apply keeps_shape_slice.
  - now apply keeps_shape_map.
  - now apply keeps_shape_struct.
Qed.

(** X27. Converted values are well shaped.  When [convertValue] returns
    a value for a readable source whose data are shaped as its type says,
    the data of the result are shaped as the target type says: a slice has
    no more elements than its capacity, a record one entry per declared
    field, and so on through the parts. *)
Theorem convertValue_result_has_type
    (st : rtype) (d : data) (fl : flag) (T : rtype) (v : Value) :
  has_type d st = true -> flagRO fl = false ->
  convertValue (ValueOf st d fl) T = Ok v ->
  has_type (Value_data v) T = true.
Proof.
  destruct fl as [ro addr]. simpl. intros Hty ->.
  now apply convertValue_keeps_shape.
Qed.

Lemma convertValue_result_has_type_witness :
  has_type (DSlice [DInt 1; DInt 2; DInt 3] 4 false) examples.Ints = true.
Proof.
  apply (@convertValue_result_has_type (SliceOf examples.tInt)
           (DSlice [DInt 1; DInt 2; DInt 3] 4 false) flag0 examples.Ints
           (ValueOf examples.Ints (DSlice [DInt 1; DInt 2; DInt 3] 4 false)
                    flag0));
    reflexivity.
Defined.

(** X28. [ConvertStructs] leaves the target well shaped.  Whatever the
    outcome, when the data of source and target are shaped as their
    types say before the call, the data of the target are shaped as its
    type says after it: every field it has assigned holds data of the
    shape of that field's type. *)
Theorem ConvertStructs_target_has_type
    (S T : rtype) (source target : data) (tagName : string) :
  has_type source S = true -> has_type target T = true ->
  has_type (Value_data (fst (ConvertStructs S T source target tagName))) T
  = true.
Proof.
  intros Hsrc Htgt.
  destruct (Kind_eq_dec (Type_Kind S) Struct) as [Hs|Hs];
    [destruct (Kind_eq_dec (Type_Kind T) Struct) as [HT|HT]|].
  - destruct (has_type_Struct_data _ _ Hsrc Hs) as [ds ->].
    destruct (has_type_Struct_data _ _ Htgt HT) as [ts ->].
    apply has_type_DStruct in Hsrc as (_ & _ & Hall).
    apply has_type_DStruct in Htgt as (_ & Hlen & Htall).
    rewrite ConvertStructs_assign by assumption. simpl struct_data.
    pose proof (assign_fields_length convertValue (tagTarget tagName T) flag0
                  ds (Type_Fields S) ts) as HAl.
    pose proof (@assign_fields_invariant convertValue (tagTarget tagName T)
                  flag0
                  (fun j x => forall g, nth_error (Type_Fields T) j = Some g ->
                                        has_type x (Typ g) = true)
                  ds (Type_Fields S) ts) as HAi.
    destruct (assign_fields convertValue (tagTarget tagName T) flag0
                (Type_Fields S) ds ts) as [ts' r].
    simpl in *. apply has_type_DStruct_intro; [exact HT|congruence|].
    intros j g x Hg Hx. apply HAi with (j := j); auto.
    + intros j' x' Hx' g' Hg'. exact (Htall j' g' x' Hg' Hx').
    + intros k f d i g' c Hf Hd Hr Hc g'' Hg''.
      apply tagTarget_Some in Hr as (Hxf & _ & Hgi & _).
      assert (g'' = g') by congruence. subst g''.
      unfold fieldValue, field_flag in Hc. rewrite Hxf in Hc. simpl in Hc.
      exact (@convertValue_keeps_shape d (Typ f) false (Typ g') c
               (Hall k f d Hf Hd) Hc).
  - unfold ConvertStructs. simpl. apply Kind_eqb_neq in HT.
    now rewrite HT, orb_true_r.
  - unfold ConvertStructs. simpl. apply Kind_eqb_neq in Hs.
    now rewrite Hs.
Qed.

Lemma ConvertStructs_target_has_type_witness :
  has_type (DStruct [DInt 1; DString ""; DInt 0]) examples.Wanted = true.
Proof.
  apply (@ConvertStructs_target_has_type examples.Tagged examples.Wanted
           (DStruct [DInt 1; DInt 2; DInt 3]) (Zero_data examples.Wanted)
           "t");
    reflexivity.
Defined.
